(** * Partial persistence by node copying: the versioned node engine and
      the linked list built on it (time_travel/partial.py).

    The Python program keeps its nodes as shared mutable objects.  Here the
    objects live in an explicit store (a list of node records, a reference
    is an index into it), every method is a state transformer over that
    store, and an exception is an outcome that keeps the store as it was
    when the exception was raised. *)

From stdpp Require Import gmap strings list fin_maps pretty sorting.
From Stdlib Require Import ZArith Lia Sorted.

Open Scope Z_scope.

(** ** Values, log entries, nodes *)

(** What a field can hold: [None], an integer, or a reference to a node. *)
Inductive value :=
  | VNone
  | VInt (z : Z)
  | VRef (n : nat).

#[global] Instance value_eq_dec : EqDecision value.
Proof. solve_decision. Defined.

(** A log entry is the tuple [(version, field, value)]. *)
Definition entry : Type := Z * string * value.

Definition e_version (e : entry) : Z := e.1.1.
Definition e_field (e : entry) : string := e.1.2.
Definition e_value (e : entry) : value := e.2.

Record node := Node {
  n_p : nat;                        (* self.p  *)
  n_dt : list string;               (* self.dt *)
  n_pt : list string;               (* self.pt *)
  fields : gmap string value;       (* self.fields *)
  back : gmap string (gset nat);    (* self.back : tag -> set of nodes *)
  mods : list entry                 (* self.mods *)
}.

Definition with_mods (l : list entry) (nd : node) : node :=
  Node (n_p nd) (n_dt nd) (n_pt nd) (fields nd) (back nd) l.

Definition with_back (b : gmap string (gset nat)) (nd : node) : node :=
  Node (n_p nd) (n_dt nd) (n_pt nd) (fields nd) b (mods nd).

(** [PartialPersistentNode.__init__] *)
Definition PartialPersistentNode
    (data_vars_tags ptr_vars_tags : list string) (max_pointer_num : nat) : node :=
  {| n_p := max_pointer_num;
     n_dt := data_vars_tags;
     n_pt := ptr_vars_tags;
     fields := list_to_map ((λ var, (var, VNone)) <$> (data_vars_tags ++ ptr_vars_tags));
     back := list_to_map ((λ var, (var, (∅ : gset nat))) <$> ptr_vars_tags);
     mods := [] |}.

(** ** Outcomes and the store monad *)

Inductive exn :=
  | AssertionError      (* a failed [assert] *)
  | AttributeError      (* a method called on [None] or on an integer *)
  | KeyError            (* a dictionary looked up at a missing key *)
  | RuntimeError        (* "Set changed size during iteration" *)
  | BadRef.             (* a reference outside the store; no Python object is one *)

Inductive outcome (A : Type) :=
  | Ok (a : A)
  | Raise (e : exn)
  | OutOfFuel.
Arguments Ok {A} a.
Arguments Raise {A} e.
Arguments OutOfFuel {A}.

Definition M (S A : Type) : Type := S → S * outcome A.

Definition ret {S A} (a : A) : M S A := λ s, (s, Ok a).
Definition raise {S A} (e : exn) : M S A := λ s, (s, Raise e).
Definition out_of_fuel {S A} : M S A := λ s, (s, OutOfFuel).
Definition bind {S A B} (m : M S A) (k : A → M S B) : M S B :=
  λ s, match m s with
       | (s', Ok a) => k a s'
       | (s', Raise e) => (s', Raise e)
       | (s', OutOfFuel) => (s', OutOfFuel)
       end.

Notation "'do' x <- m ; k" := (bind m (λ x, k))
  (at level 10, x name, m at level 100, k at level 200).
Notation "m ;; k" := (bind m (λ _, k))
  (at level 100, k at level 200, right associativity).

(** ** The node engine *)

(** The loop of [read]: [res] is the running result, the scan stops at the
    first entry whose version is above [v]. *)
Fixpoint read_scan (var : string) (v : Z) (res : value) (l : list entry) : value :=
  match l with
  | [] => res
  | (mod_version, mod_field, mod_value) :: l' =>
      if bool_decide (mod_version > v) then res
      else read_scan var v (if bool_decide (mod_field = var) then mod_value else res) l'
  end.

(** [PartialPersistentNode.read] *)
Definition read (self : node) (var : string) (v : Z) : outcome value :=
  match fields self !! var with
  | None => Raise AssertionError
  | Some res => Ok (read_scan var v res (mods self))
  end.

(** [PartialPersistentNode.set_back]; [old] is the optional third argument. *)
Definition set_back (self : nat) (ptr : string) (new : nat) (old : option nat)
    : M (list node) unit :=
  λ h,
  match h !! self with
  | None => (h, Raise BadRef)
  | Some nd =>
      if bool_decide (ptr ∈ n_pt nd) then
        match back nd !! ptr with
        | None => (h, Raise KeyError)
        | Some s =>
            let s' := match old with
                      | Some o => if bool_decide (o ∈ s) then s ∖ {[o]} else s
                      | None => s
                      end in
            (<[self := with_back (<[ptr := s' ∪ {[new]}]> (back nd)) nd]> h, Ok tt)
        end
      else (h, Raise AssertionError)
  end.

(** [for (_, mod_field, mod_value) in self.mods: new.fields[mod_field] = mod_value] *)
Definition fold_mods (l : list entry) (f : gmap string value) : gmap string value :=
  foldl (λ acc e, <[e_field e := e_value e]> acc) f l.

(** [{var: set([i for i in self.back[var]]) for var in self.pt}] *)
Definition copy_back (self : node) : option (gmap string (gset nat)) :=
  list_to_map <$> mapM (λ var, (λ s, (var, s)) <$> back self !! var) (n_pt self).

(** The node a split creates (lines 54-61), before it is linked in. *)
Definition split_node (self : node) (var : string) (val : value)
    (bk : gmap string (gset nat)) : node :=
  {| n_p := n_p self; n_dt := n_dt self; n_pt := n_pt self;
     fields := <[var := val]>
       (fold_mods (mods self)
          (fields (PartialPersistentNode (n_dt self) (n_pt self) (n_p self))));
     back := bk;
     mods := [] |}.

(** Lines 64-66: tell every node the new node points to that [new] replaces
    [self] among its referencers. *)
Fixpoint retarget (ptrs : list string) (new self : nat) : M (list node) unit :=
  match ptrs with
  | [] => ret tt
  | ptr :: rest =>
      λ h,
      match h !! new with
      | None => (h, Raise BadRef)
      | Some nn =>
          match fields nn !! ptr with
          | None => (h, Raise KeyError)
          | Some (VRef node_pointing_to) =>
              (set_back node_pointing_to ptr new (Some self) ;;
               retarget rest new self) h
          | Some _ => (h, Raise AttributeError)
          end
      end
  end.

(** Iteration over a Python set of objects follows the hash table, whose
    layout depends on object addresses: the order of a set with two or more
    elements is not fixed by the program, and a set that is changed while it
    is iterated (same size, other elements) may or may not yield what was
    added.  An [oracle] resolves both: asked with the owner of the set, the
    tag and the nodes yielded so far, it says which candidate comes next
    ([Some k]) or that the iteration ends ([None]). *)
Definition oracle : Type := nat → string → list nat → option nat.

Section engine.
Variable orc : oracle.

(** The node the iteration yields next, if any.  While the set is as it was
    ([dirty = false]) the candidates are the nodes not yet yielded: a single
    one is yielded without asking, among several the oracle picks, and the
    iteration ends only when none is left.  Once the set has been changed the
    oracle picks among the nodes now in it, or ends the iteration. *)
Definition choose (dirty : bool) (new : nat) (ptr : string)
    (visited cands : list nat) : option nat :=
  match cands with
  | [] => None
  | [x] => if dirty
           then match orc new ptr visited with None => None | Some _ => Some x end
           else Some x
  | x :: _ => match orc new ptr visited with
              | None => if dirty then None else Some x
              | Some k => Some (nth (k `mod` length cands)%nat cands x)
              end
  end.

(** [for node_point_to_me in new.back[ptr]: <body>] over the live set
    [new.back[ptr]].  [snap] is the set when the loop started, [pending] what
    of it has not been yielded.  A set of another size raises
    [RuntimeError]; a set of the same size with other elements makes the rest
    of the iteration the oracle's choice among the elements now present. *)
Fixpoint iter_back (n : nat) (body : nat → M (list node) unit)
    (new : nat) (ptr : string) (snap : gset nat) (dirty : bool)
    (visited pending : list nat) : M (list node) unit :=
  λ h,
  match h !! new with
  | None => (h, Raise BadRef)
  | Some nn =>
      let live := default ∅ (back nn !! ptr) in
      if bool_decide (size live ≠ size snap) then (h, Raise RuntimeError)
      else
        let dirty' := dirty || negb (bool_decide (live = snap)) in
        let cands := if dirty' then elements live else pending in
        match choose dirty' new ptr visited cands with
        | None => (h, Ok tt)
        | Some x =>
            match n with
            | O => (h, OutOfFuel)
            | S n' =>
                (body x ;;
                 iter_back n' body new ptr snap dirty' (visited ++ [x])
                   (filter (λ y, y ≠ x) pending)) h
            end
        end
  end.

(** Lines 69-71: rewrite every referencer of the old node to point at [new]. *)
Fixpoint cascade (n : nat) (wr : nat → Z → string → value → M (list node) unit)
    (ptrs : list string) (new : nat) (now : Z) : M (list node) unit :=
  match ptrs with
  | [] => ret tt
  | ptr :: rest =>
      (λ h,
        match h !! new with
        | None => (h, Raise BadRef)
        | Some nn =>
            let snap := default ∅ (back nn !! ptr) in
            iter_back n (λ node_point_to_me, wr node_point_to_me now ptr (VRef new))
              new ptr snap false [] (elements snap) h
        end) ;;
      cascade n wr rest new now
  end.

(** [PartialPersistentNode.write].  [fuel] bounds the depth of the recursion
    through [cascade] and the length of each iteration. *)
Fixpoint write (fuel : nat) (self : nat) (now : Z) (var : string) (val : value)
    : M (list node) unit :=
  match fuel with
  | O => out_of_fuel
  | S fuel' =>
      λ h,
      match h !! self with
      | None => (h, Raise BadRef)
      | Some nd =>
          if bool_decide (is_Some (fields nd !! var)) then
            if bool_decide (length (mods nd) ≤ 2 * n_p nd)%nat then
              (<[self := with_mods (mods nd ++ [(now, var, val)]) nd]> h, Ok tt)
            else
              match copy_back nd with
              | None => (h, Raise KeyError)
              | Some bk =>
                  let new := length h in
                  (retarget (n_pt nd) new self ;;
                   cascade fuel' (write fuel') (n_pt nd) new now)
                    (h ++ [split_node nd var val bk])
              end
          else (h, Raise AssertionError)
      end
  end.

End engine.

(** ** The linked list *)

(** The list object: the store its nodes live in, [self.root],
    [self._timestamp], and a record of the version handed to every engine
    call the list's methods make (a ghost: the program does not keep it). *)
Record LinkedList := MkList {
  heap : list node;
  root : nat;
  timestamp : Z;
  calls : list Z
}.

Definition LL_dt : list string := ["value"%string].
Definition LL_pt : list string := ["next_ptr"%string].
Definition LL_p : nat := 1.

(** [LinkedList.__init__] *)
Definition LinkedList_init : LinkedList :=
  {| heap := [PartialPersistentNode LL_dt LL_pt LL_p];
     root := 0; timestamp := 0; calls := [] |}.

Definition get_root : M LinkedList nat := λ s, (s, Ok (root s)).

(** [PartialPersistentNode(self.dt, self.pt, self.p)] *)
Definition new_node : M LinkedList nat :=
  λ s, (MkList (heap s ++ [PartialPersistentNode LL_dt LL_pt LL_p])
               (root s) (timestamp s) (calls s),
        Ok (length (heap s))).

(** [LinkedList.now] *)
Definition now : M LinkedList Z :=
  λ s, (MkList (heap s) (root s) (timestamp s + 1) (calls s), Ok (timestamp s)).

(** An engine call made by the list: run it on the store and note its
    version. *)
Definition engine {A} (at_ : Z) (m : M (list node) A) : M LinkedList A :=
  λ s, let (h', r) := m (heap s) in
       (MkList h' (root s) (timestamp s) (calls s ++ [at_]), r).

(** [recv.read(var, v)] where [recv] is any Python value. *)
Definition call_read (recv : value) (var : string) (v : Z) : M LinkedList value :=
  match recv with
  | VRef n =>
      engine v (λ h, match h !! n with
                     | None => (h, Raise BadRef)
                     | Some nd => (h, read nd var v)
                     end)
  | _ => raise AttributeError
  end.

Section list_ops.
Variable orc : oracle.
Variable fuel : nat.

(** [recv.write(now, var, val)] *)
Definition call_write (recv : value) (at_ : Z) (var : string) (val : value)
    : M LinkedList unit :=
  match recv with
  | VRef n => engine at_ (write orc fuel n at_ var val)
  | _ => raise AttributeError
  end.

(** [recv.set_back(ptr, new, old)]; set_back takes no version. *)
Definition call_set_back (recv : value) (ptr : string) (new : nat) (old : option nat)
    : M LinkedList unit :=
  match recv with
  | VRef n => λ s, let (h', r) := set_back n ptr new old (heap s) in
                   (MkList h' (root s) (timestamp s) (calls s), r)
  | _ => raise AttributeError
  end.

(** [LinkedList.set_root_value] *)
Definition set_root_value (val : value) : M LinkedList unit :=
  do at_ <- now;
  do r <- get_root;
  call_write (VRef r) at_ "value" val.

(** The [while True] loop of [append]. *)
Fixpoint append_walk (n : nat) (at_ : Z) (cursor : nat) : M LinkedList nat :=
  match n with
  | O => out_of_fuel
  | S n' =>
      do next_node <- call_read (VRef cursor) "next_ptr" at_;
      match next_node with
      | VNone => ret cursor
      | VRef c => append_walk n' at_ c
      | VInt _ => raise AttributeError
      end
  end.

(** [LinkedList.append] *)
Definition append (val : value) : M LinkedList unit :=
  do at_ <- now;
  do r <- get_root;
  do cursor <- append_walk fuel at_ r;
  do new <- new_node;
  call_write (VRef new) at_ "value" val ;;
  call_set_back (VRef new) "next_ptr" cursor None ;;
  call_write (VRef cursor) at_ "next_ptr" (VRef new).

(** [for _ in range(k): cursor = cursor.read('next_ptr', at);
     if cursor is None: ...]: [None] when the walk runs off the end. *)
Fixpoint hop (k : nat) (at_ : Z) (cursor : nat) : M LinkedList (option nat) :=
  match k with
  | O => ret (Some cursor)
  | S k' =>
      do c <- call_read (VRef cursor) "next_ptr" at_;
      match c with
      | VNone => ret None
      | VRef c' => hop k' at_ c'
      | VInt _ => raise AttributeError
      end
  end.

(** [LinkedList.modify_ith_node_val] *)
Definition modify_ith_node_val (i : Z) (val : value) : M LinkedList unit :=
  if bool_decide (i >= 0) then
    do at_ <- now;
    do r <- get_root;
    do c <- hop (Z.to_nat i) at_ r;
    match c with
    | None => append val
    | Some cursor => call_write (VRef cursor) at_ "value" val
    end
  else raise AssertionError.

(** [LinkedList.insert_after_ith_node] *)
Definition insert_after_ith_node (i : Z) (val : value) : M LinkedList unit :=
  do at_ <- now;
  do r <- get_root;
  do c <- hop (Z.to_nat i) at_ r;
  match c with
  | None => append val
  | Some cursor =>
      do next_ <- call_read (VRef cursor) "next_ptr" at_;
      do new <- new_node;
      call_write (VRef new) at_ "value" val ;;
      call_write (VRef cursor) at_ "next_ptr" (VRef new) ;;
      call_write (VRef new) at_ "next_ptr" next_ ;;
      call_set_back next_ "next_ptr" new (Some cursor) ;;
      call_set_back (VRef new) "next_ptr" cursor None
  end.

(** [LinkedList.delete_ith_node] *)
Definition delete_ith_node (i : Z) : M LinkedList unit :=
  if bool_decide (i > 0) then
    do at_ <- now;
    do r <- get_root;
    do c <- hop (Z.to_nat (i - 1)) at_ r;
    match c with
    | None => ret tt
    | Some cursor =>
        do next_ <- call_read (VRef cursor) "next_ptr" at_;
        match next_ with
        | VRef nx =>
            do next_next <- call_read (VRef nx) "next_ptr" at_;
            call_write (VRef cursor) at_ "next_ptr" next_next ;;
            call_set_back next_next "next_ptr" cursor (Some nx)
        | _ => raise AttributeError
        end
    end
  else raise AssertionError.

End list_ops.

(** [str(x)] for a field value.  The text Python gives a node object holds
    its address; the model writes a fixed text for it. *)
Definition str_value (x : value) : string :=
  match x with
  | VNone => "None"
  | VInt z => pretty z
  | VRef _ => "<PartialPersistentNode object>"
  end.

(** The [while cursor:] loop of [str_]; an integer is false when zero. *)
Fixpoint str_loop (n : nat) (h : list node) (cursor : value) (v : Z) (res : string)
    : outcome string :=
  match cursor with
  | VNone => Ok (res +:+ "END")
  | VInt 0 => Ok (res +:+ "END")
  | VInt _ => Raise AttributeError
  | VRef c =>
      match n with
      | O => OutOfFuel
      | S n' =>
          match h !! c with
          | None => Raise BadRef
          | Some nd =>
              match read nd "value" v with
              | Ok x =>
                  match read nd "next_ptr" v with
                  | Ok nxt => str_loop n' h nxt v (res +:+ str_value x +:+ "->")
                  | Raise e => Raise e
                  | OutOfFuel => OutOfFuel
                  end
              | Raise e => Raise e
              | OutOfFuel => OutOfFuel
              end
          end
      end
  end.

(** [LinkedList.str_] *)
Definition str_ (n : nat) (s : LinkedList) (v : Z) : outcome string :=
  str_loop n (heap s) (VRef (root s)) v "".

(** [LinkedList.__str__] *)
Definition str_current (n : nat) (s : LinkedList) : outcome string :=
  str_ n s (timestamp s).

(** The public operations, and the states a list can be in. *)
Inductive op :=
  | OpSetRoot (val : value)
  | OpAppend (val : value)
  | OpModify (i : Z) (val : value)
  | OpInsert (i : Z) (val : value)
  | OpDelete (i : Z)
  | OpNow.

Definition run_op (orc : oracle) (fuel : nat) (o : op) : M LinkedList unit :=
  match o with
  | OpSetRoot val => set_root_value orc fuel val
  | OpAppend val => append orc fuel val
  | OpModify i val => modify_ith_node_val orc fuel i val
  | OpInsert i val => insert_after_ith_node orc fuel i val
  | OpDelete i => delete_ith_node orc fuel i
  | OpNow => now ;; ret tt
  end.

(** A program: the operations in turn, up to the first that raises. *)
Fixpoint run_ops (orc : oracle) (fuel : nat) (os : list op) : M LinkedList unit :=
  match os with
  | [] => ret tt
  | o :: rest => run_op orc fuel o ;; run_ops orc fuel rest
  end.

Inductive reachable : LinkedList → Prop :=
  | reach_init : reachable LinkedList_init
  | reach_step s orc fuel o :
      reachable s → reachable (run_op orc fuel o s).1.

(** An oracle that ends a disturbed iteration at once, and one that lets it
    yield one more node first. *)
Definition stop_oracle : oracle := λ _ _ _, None.
Definition once_oracle : oracle :=
  λ _ _ visited, if bool_decide (length visited < 2)%nat then Some 0%nat else None.

(** The steps of the program's [__main__]; each ends with the checkpoint
    [cp = L.now()]. *)
Definition main_build : list op :=
  [OpSetRoot (VInt 1); OpAppend (VInt 2); OpAppend (VInt 3);
   OpAppend (VInt 4); OpAppend (VInt 5); OpNow].
Definition main_modify2 : list op := [OpModify 2 (VInt 20); OpNow].
Definition main_insert2 : list op := [OpInsert 2 (VInt 22); OpNow].
Definition main_modify1 : list op := [OpModify 1 (VInt 10); OpNow].
Definition main_delete2 : list op := [OpDelete 2; OpNow].

(** The list of the program's run after its second checkpoint. *)
Definition main_state2 : LinkedList :=
  (run_ops stop_oracle 8 (main_build ++ main_modify2) LinkedList_init).1.

(** A two-element list whose root has a full log:
    [set_root_value(1); append(2); modify_ith_node_val(0, 10)]. *)
Definition full_root_list : LinkedList :=
  (run_ops stop_oracle 8
     [OpSetRoot (VInt 1); OpAppend (VInt 2); OpModify 0 (VInt 10)]
     LinkedList_init).1.

(** A one-node list whose root has a full log:
    [set_root_value(1); modify_ith_node_val(0, 2); modify_ith_node_val(0, 3)]. *)
Definition one_full_list : LinkedList :=
  (run_ops stop_oracle 8
     [OpSetRoot (VInt 1); OpModify 0 (VInt 2); OpModify 0 (VInt 3)]
     LinkedList_init).1.

(** A three-element list whose first two nodes have full logs. *)
Definition two_full_list : LinkedList :=
  (run_ops stop_oracle 8
     [OpSetRoot (VInt 1); OpAppend (VInt 2); OpAppend (VInt 3);
      OpModify 0 (VInt 10); OpModify 1 (VInt 20)]
     LinkedList_init).1.

(** ** What the spec says a read returns *)

(** An entry counts for [read(var, v)] when it is for [var] and its version
    is at most [v]. *)
Definition visible (var : string) (v : Z) (e : entry) : Prop :=
  e_field e = var ∧ e_version e ≤ v.

#[global] Instance visible_dec var v e : Decision (visible var v e).
Proof. unfold visible. apply _. Defined.

(** The spec's rule, word for word: the value of the most recent log entry
    for the tag with version at most [v], else [fields[tag]]. *)
Definition read_spec (self : node) (var : string) (v : Z) : option value :=
  match last (filter (visible var v) (mods self)) with
  | Some e => Some (e_value e)
  | None => fields self !! var
  end.

Definition version_le (a b : entry) : Prop := e_version a ≤ e_version b.

(** The latest value the log holds for a tag, whatever its version. *)
Definition latest_logged (tag : string) (l : list entry) : option value :=
  e_value <$> last (filter (λ e, e_field e = tag) l).

(** ** How the store may change *)

(** The versions of the entries an operation adds lie in a window
    [lo <= version < hi]. *)
Definition in_window (lo hi : Z) (e : entry) : Prop := lo ≤ e_version e < hi.

Definition same_schema (a b : node) : Prop :=
  n_p a = n_p b ∧ n_dt a = n_dt b ∧ n_pt a = n_pt b.

Definition list_schema (nd : node) : Prop :=
  n_p nd = LL_p ∧ n_dt nd = LL_dt ∧ n_pt nd = LL_pt.

(** [self.back] has a set for every pointer tag. *)
Definition keyed (nd : node) : Prop :=
  ∀ ptr, ptr ∈ n_pt nd → is_Some (back nd !! ptr).

(** A node that was there before: same schema, same baseline, a reverse
    map that lost no key, and a log that only gained entries at its end,
    within capacity. *)
Definition grows (lo hi : Z) (nd nd' : node) : Prop :=
  same_schema nd nd' ∧ fields nd' = fields nd ∧ (keyed nd → keyed nd') ∧
  ∃ extra, mods nd' = mods nd ++ extra ∧ Forall (in_window lo hi) extra ∧
           (extra ≠ [] → (length (mods nd') ≤ 2 * n_p nd + 1)%nat).

(** A node that was not there before. *)
Definition born (lo hi : Z) (h : list node) (nd' : node) : Prop :=
  Forall (in_window lo hi) (mods nd') ∧
  (length (mods nd') ≤ 2 * n_p nd' + 1)%nat ∧
  keyed nd' ∧
  (list_schema nd' ∨ ∃ i nd, h !! i = Some nd ∧ same_schema nd nd').

Record evolves (lo hi : Z) (h h' : list node) : Prop := {
  ev_old : ∀ i nd, h !! i = Some nd → ∃ nd', h' !! i = Some nd' ∧ grows lo hi nd nd';
  ev_new : ∀ i nd', h !! i = None → h' !! i = Some nd' → born lo hi h nd'
}.

(** [pres R m]: whatever [m] does and however it ends, the state it leaves
    is related by [R] to the one it started in. *)
Definition pres {S A} (R : S → S → Prop) (m : M S A) : Prop :=
  ∀ s s' r, m s = (s', r) → R s s'.

(** What the engine calls of one list operation stamped [at_] do. *)
Record ll_evolves (at_ : Z) (s s' : LinkedList) : Prop := {
  lle_root : root s' = root s;
  lle_ts : timestamp s' = timestamp s;
  lle_heap : evolves at_ (at_ + 1) (heap s) (heap s');
  lle_calls : ∃ ev, calls s' = calls s ++ ev ∧ Forall (λ v, v = at_) ev
}.

(** An operation that takes one stamp and uses it throughout. *)
Record one_tick (s s' : LinkedList) : Prop := {
  ot_root : root s' = root s;
  ot_ts : timestamp s' = timestamp s + 1;
  ot_heap : evolves (timestamp s) (timestamp s + 1) (heap s) (heap s');
  ot_calls : ∃ ev, calls s' = calls s ++ ev ∧ Forall (λ v, v = timestamp s) ev
}.

(** An operation that walks with one stamp and then appends with the next. *)
Record two_ticks (s s' : LinkedList) : Prop := {
  tt_root : root s' = root s;
  tt_ts : timestamp s' = timestamp s + 2;
  tt_heap : evolves (timestamp s + 1) (timestamp s + 2) (heap s) (heap s');
  tt_calls : ∃ ev1 ev2, calls s' = calls s ++ ev1 ++ ev2 ∧
               Forall (λ v, v = timestamp s) ev1 ∧
               Forall (λ v, v = timestamp s + 1) ev2
}.

(** What every public operation does, whichever way it ends. *)
Record op_step (s s' : LinkedList) : Prop := {
  os_root : root s' = root s;
  os_ts : timestamp s ≤ timestamp s';
  os_heap : evolves (timestamp s) (timestamp s') (heap s) (heap s')
}.

(** The state of a node of a list whose clock shows [ts]. *)
Record node_ok (ts : Z) (nd : node) : Prop := {
  nok_schema : list_schema nd;
  nok_keyed : keyed nd;
  nok_log : (length (mods nd) ≤ 2 * n_p nd + 1)%nat;
  nok_versions : Forall (λ e, e_version e < ts) (mods nd)
}.

Definition list_ok (s : LinkedList) : Prop :=
  0 ≤ timestamp s ∧ Forall (node_ok (timestamp s)) (heap s).

(** The walk of [hop] as a function of the store alone. *)
Fixpoint walk (k : nat) (h : list node) (at_ : Z) (cursor : nat) : outcome (option nat) :=
  match k with
  | O => Ok (Some cursor)
  | S k' =>
      match h !! cursor with
      | None => Raise BadRef
      | Some nd =>
          match read nd "next_ptr" at_ with
          | Ok VNone => Ok None
          | Ok (VRef c') => walk k' h at_ c'
          | Ok (VInt _) => Raise AttributeError
          | Raise e => Raise e
          | OutOfFuel => OutOfFuel
          end
      end
  end.

(** How each public operation uses the clock: the stamps it takes and the
    versions its engine calls carry. *)
Definition op_stamps (o : op) (s s' : LinkedList) (r : outcome unit) : Prop :=
  match o with
  | OpSetRoot _ | OpAppend _ => one_tick s s'
  | OpModify i _ =>
      if bool_decide (i >= 0) then
        match walk (Z.to_nat i) (heap s) (timestamp s) (root s) with
        | Ok None => two_ticks s s'
        | _ => one_tick s s'
        end
      else s' = s ∧ r = Raise AssertionError
  | OpInsert i _ =>
      match walk (Z.to_nat i) (heap s) (timestamp s) (root s) with
      | Ok None => two_ticks s s'
      | _ => one_tick s s'
      end
  | OpDelete i =>
      if bool_decide (i > 0) then one_tick s s'
      else s' = s ∧ r = Raise AssertionError
  | OpNow =>
      timestamp s' = timestamp s + 1 ∧ heap s' = heap s ∧ calls s' = calls s
  end.

(** ** Further notions *)

(** The log of a node of a list whose clock shows [ts]: sorted, with
    versions the clock has issued. *)
Definition log_ok (ts : Z) (nd : node) : Prop :=
  Sorted version_le (mods nd) ∧ Forall (λ e, 0 ≤ e_version e < ts) (mods nd).

(** Both tags of the list's schema are keys of [self.fields]. *)
Definition declared (nd : node) : Prop :=
  is_Some (fields nd !! "value"%string) ∧ is_Some (fields nd !! "next_ptr"%string).

(** [ipres I m]: [m] keeps the property [I] of the state, however it ends. *)
Definition ipres {S A} (I : S → Prop) (m : M S A) : Prop :=
  ∀ s s' r, I s → m s = (s', r) → I s'.

(** The walk of [append] as a function of the store alone: the node whose
    pointer reads [None]. *)
Fixpoint last_node (n : nat) (h : list node) (at_ : Z) (cursor : nat) : outcome nat :=
  match n with
  | O => OutOfFuel
  | S n' =>
      match h !! cursor with
      | None => Raise BadRef
      | Some nd =>
          match read nd "next_ptr" at_ with
          | Ok VNone => Ok cursor
          | Ok (VRef c') => last_node n' h at_ c'
          | Ok (VInt _) => Raise AttributeError
          | Raise e => Raise e
          | OutOfFuel => OutOfFuel
          end
      end
  end.

(** Two list states that differ at most in the record of calls. *)
Definition same_core (s1 s2 : LinkedList) : Prop :=
  heap s1 = heap s2 ∧ root s1 = root s2 ∧ timestamp s1 = timestamp s2.

(** [csim m]: what [m] does to store, root and clock, and how it ends, does
    not depend on the record of calls. *)
Definition csim {A} (m : M LinkedList A) : Prop :=
  ∀ s1 s2, same_core s1 s2 →
    same_core (m s1).1 (m s2).1 ∧ (m s1).2 = (m s2).2.

(** The node at an index of a list's store (an empty node where there is
    none). *)
Definition node_at (s : LinkedList) (i : nat) : node :=
  default (PartialPersistentNode [] [] 0) (heap s !! i).

(** A property of nodes that holds of every node of a list's store. *)
Definition heap_all (P : node → Prop) (s : LinkedList) : Prop :=
  Forall P (heap s).

(** A pointer value that is [None] or one of the first [n] nodes of the store. *)
Definition closed (n : nat) (x : value) : Prop :=
  match x with
  | VNone => True
  | VRef c => (c < n)%nat
  | VInt _ => False
  end.

(** A node of the list all of whose pointers, in the baseline, in the log
    and in the reverse map, lead to one of the first [n] nodes of the store. *)
Definition node_closed (n : nat) (nd : node) : Prop :=
  (n_dt nd = LL_dt ∧ n_pt nd = LL_pt) ∧
  declared nd ∧
  is_Some (back nd !! "next_ptr"%string) ∧
  (∀ x, fields nd !! "next_ptr"%string = Some x → closed n x) ∧
  Forall (λ e, e_field e = "next_ptr"%string → closed n (e_value e)) (mods nd) ∧
  (∀ ptr bs j, back nd !! ptr = Some bs → j ∈ bs → (j < n)%nat).

(** A store all of whose pointers stay inside it. *)
Definition heap_closed (h : list node) : Prop :=
  Forall (node_closed (length h)) h.

(** A list whose store is closed and whose root is a node of it. *)
Definition list_closed (s : LinkedList) : Prop :=
  heap_closed (heap s) ∧ (root s < length (heap s))%nat.

(** The tags the list uses. *)
Definition list_tag (var : string) : Prop :=
  var = "value"%string ∨ var = "next_ptr"%string.

(** An outcome that is not a failed assertion, a failed dictionary lookup
    or a reference outside the store. *)
Definition benign {A} (r : outcome A) : Prop :=
  match r with
  | Raise AssertionError | Raise KeyError | Raise BadRef => False
  | _ => True
  end.

(** A fact about the size of the store that stays true when it grows. *)
Definition mono (F : nat → Prop) : Prop :=
  ∀ n m, (n ≤ m)%nat → F n → F m.

(** [hsafe F m]: from a closed store of a size that satisfies [F], the engine
    call [m] leaves a closed store that is no smaller, and ends benignly. *)
Definition hsafe {A} (F : nat → Prop) (m : M (list node) A) : Prop :=
  ∀ h h' r, heap_closed h → F (length h) → m h = (h', r) →
    heap_closed h' ∧ (length h ≤ length h')%nat ∧ benign r.

(** The same for a step of a list operation, with what holds of its result. *)
Definition lsafe {A} (F : nat → Prop) (m : M LinkedList A) (Q : A → nat → Prop)
    : Prop :=
  ∀ s s' r, list_closed s → F (length (heap s)) → m s = (s', r) →
    list_closed s' ∧ (length (heap s) ≤ length (heap s'))%nat ∧
    match r with Ok a => Q a (length (heap s')) | _ => benign r end.

(** The argument check of an operation fails. *)
Definition bad_index (o : op) : Prop :=
  match o with
  | OpModify i _ => i < 0
  | OpDelete i => i ≤ 0
  | _ => False
  end.

(** The states a list can get to from [s]: any number of public operations,
    each with its own iteration order and bound, each continued from the
    state the one before left, whether that one returned or raised. *)
Inductive steps (s : LinkedList) : LinkedList → Prop :=
  | steps_refl : steps s s
  | steps_step s' orc fuel o :
      steps s s' → steps s (run_op orc fuel o s').1.

(** * Lemmas *)

(** ** The scan of the log *)

Section read_facts.
Implicit Types (l : list entry) (res : value) (var : string) (v : Z).

Lemma read_scan_all_later var v res l :
  Forall (λ e, v < e_version e) l → read_scan var v res l = res.
Proof.
  destruct l as [|[[mv mf] mx] l']; [done|].
  intros H. apply Forall_cons_1 in H as [H _]. unfold e_version in H.
  simpl in *. rewrite bool_decide_true; [done | lia].
Qed.

Lemma read_scan_app_later var v res l extra :
  Forall (λ e, v < e_version e) extra →
  read_scan var v res (l ++ extra) = read_scan var v res l.
Proof.
  intros H. revert res. induction l as [|[[mv mf] mx] l' IH]; intros res; simpl.
  - by apply read_scan_all_later.
  - case_bool_decide; [done|]. apply IH.
Qed.

Lemma read_scan_all_visible var v1 v2 res l :
  Forall (λ e, e_version e ≤ v1) l → v1 ≤ v2 →
  read_scan var v2 res l = read_scan var v1 res l.
Proof.
  intros H Hv. revert res.
  induction H as [|[[mv mf] mx] l' Hx _ IH]; intros res; [done|].
  unfold e_version in Hx. simpl in *.
  rewrite (bool_decide_false (mv > v2)) by lia.
  rewrite (bool_decide_false (mv > v1)) by lia. apply IH.
Qed.

Lemma read_scan_snoc var v res l x :
  Forall (λ e, e_version e ≤ v) l →
  read_scan var v res (l ++ [(v, var, x)]) = x.
Proof.
  intros H. revert res.
  induction H as [|[[mv mf] mx] l' Hx _ IH]; intros res; simpl.
  - rewrite bool_decide_false by lia. by rewrite bool_decide_true.
  - unfold e_version in Hx. simpl in Hx. rewrite bool_decide_false by lia. apply IH.
Qed.

Lemma filter_visible_none var v l :
  Forall (λ e, v < e_version e) l → filter (visible var v) l = [].
Proof.
  induction 1 as [|e l' He _ IH]; [done|].
  rewrite filter_cons_False; [done|]. unfold visible. lia.
Qed.

Lemma read_scan_spec var v res l :
  StronglySorted version_le l →
  read_scan var v res l
  = default res (e_value <$> last (filter (visible var v) l)).
Proof.
  intros Hs. revert res.
  induction Hs as [|[[mv mf] mx] l' Hs IH Hall]; intros res; [done|].
  simpl. case_bool_decide as Hgt.
  - rewrite filter_cons_False by (unfold visible, e_version; simpl; lia).
    assert (filter (visible var v) l' = []) as ->; [|done].
    apply filter_visible_none. eapply Forall_impl; [exact Hall|].
    intros e He. unfold version_le, e_version in *. simpl in *. lia.
  - rewrite IH. case_bool_decide as Hf.
    + rewrite filter_cons_True by (unfold visible, e_version, e_field; simpl; split; [done|lia]).
      rewrite last_cons. by destruct (last (filter (visible var v) l')).
    + rewrite filter_cons_False; [done|].
      unfold visible, e_field. simpl. tauto.
Qed.

End read_facts.

(** ** The store monad *)

Section pres_facts.
Context {S : Type} (R : S → S → Prop) `{!Reflexive R, !Transitive R}.

Lemma pres_ret {A} (a : A) : pres R (ret a).
Proof. intros s s' r [= <- _]. reflexivity. Qed.

Lemma pres_raise {A} e : pres R (raise (A:=A) e).
Proof. intros s s' r [= <- _]. reflexivity. Qed.

Lemma pres_out_of_fuel {A} : pres R (out_of_fuel (A:=A)).
Proof. intros s s' r [= <- _]. reflexivity. Qed.

Lemma pres_bind {A B} (m : M S A) (k : A → M S B) :
  pres R m → (∀ a, pres R (k a)) → pres R (bind m k).
Proof.
  intros Hm Hk s s' r. unfold bind.
  destruct (m s) as [s1 [a|e|]] eqn:E; intros H.
  - etrans; [by eapply Hm | by eapply Hk].
  - injection H as <- _. by eapply Hm.
  - injection H as <- _. by eapply Hm.
Qed.

End pres_facts.

(** ** The store only grows *)

Section evolves_facts.
Implicit Types (h : list node) (nd : node) (lo hi : Z).

Lemma same_schema_refl nd : same_schema nd nd.
Proof. done. Qed.

Lemma same_schema_trans a b c : same_schema a b → same_schema b c → same_schema a c.
Proof. unfold same_schema. intuition congruence. Qed.

Lemma list_schema_same a b : same_schema a b → list_schema a → list_schema b.
Proof. unfold same_schema, list_schema. intuition congruence. Qed.

Lemma grows_refl lo hi nd : grows lo hi nd nd.
Proof.
  split; [done|]. split; [done|]. split; [done|]. exists []. by rewrite app_nil_r.
Qed.

Lemma grows_trans lo hi a b c : grows lo hi a b → grows lo hi b c → grows lo hi a c.
Proof.
  intros (Hs1 & Hf1 & Hk1 & e1 & Hm1 & Hw1 & Hb1)
         (Hs2 & Hf2 & Hk2 & e2 & Hm2 & Hw2 & Hb2).
  split; [by eapply same_schema_trans|]. split; [congruence|]. split; [tauto|].
  exists (e1 ++ e2). split; [by rewrite Hm2, Hm1, app_assoc|].
  split; [by apply Forall_app|].
  intros Hne. destruct Hs1 as (Hp & _ & _).
  destruct e2 as [|x e2].
  - rewrite app_nil_r in Hne, Hm2. rewrite Hm2. by apply Hb1.
  - rewrite Hp. by apply Hb2.
Qed.

Lemma grows_mono lo hi lo' hi' a b :
  lo' ≤ lo → hi ≤ hi' → grows lo hi a b → grows lo' hi' a b.
Proof.
  intros ?? (Hs & Hf & Hk & e & Hm & Hw & Hb).
  split; [done|]. split; [done|]. split; [done|].
  exists e. repeat split; [done| |done].
  eapply Forall_impl; [exact Hw|]. unfold in_window. intros; lia.
Qed.

Lemma evolves_refl lo hi h : evolves lo hi h h.
Proof.
  split.
  - intros i nd H. exists nd. split; [done|apply grows_refl].
  - intros i nd H1 H2. congruence.
Qed.

Lemma evolves_trans lo hi h1 h2 h3 :
  evolves lo hi h1 h2 → evolves lo hi h2 h3 → evolves lo hi h1 h3.
Proof.
  intros [O1 N1] [O2 N2]. split.
  - intros i nd H. destruct (O1 _ _ H) as (nd' & H' & G1).
    destruct (O2 _ _ H') as (nd'' & H'' & G2).
    exists nd''. split; [done|]. by eapply grows_trans.
  - intros i nd3 Hnone H3.
    destruct (h2 !! i) as [nd2|] eqn:E2.
    + destruct (N1 _ _ Hnone E2) as (Hw & Hlen & Hkey & Hsch).
      destruct (O2 _ _ E2) as (nd3' & H3' & (Hs & Hf & Hk & e & Hm & Hwe & Hb)).
      assert (nd3' = nd3) as -> by congruence.
      split; [rewrite Hm; by apply Forall_app|].
      split; [|split; [by apply Hk|]].
      * destruct Hs as (Hp & _ & _). rewrite <- Hp.
        destruct e as [|x e]; [rewrite Hm, app_nil_r; done|by apply Hb].
      * destruct Hsch as [Hl|(j & nd1 & Hj & Hs1)].
        -- left. by eapply list_schema_same.
        -- right. exists j, nd1. split; [done|]. by eapply same_schema_trans.
    + destruct (N2 _ _ E2 H3) as (Hw & Hlen & Hkey & Hsch).
      split; [done|]. split; [done|]. split; [done|].
      destruct Hsch as [Hl|(j & nd2 & Hj & Hs2)]; [by left|].
      destruct (h1 !! j) as [nd1|] eqn:E1.
      * destruct (O1 _ _ E1) as (nd2' & Hj' & (Hs1 & _)).
        assert (nd2' = nd2) as -> by congruence.
        right. exists j, nd1. split; [done|]. by eapply same_schema_trans.
      * destruct (N1 _ _ E1 Hj) as (_ & _ & _ & [Hl|(k & nd0 & Hk & Hs0)]).
        -- left. by eapply list_schema_same.
        -- right. exists k, nd0. split; [done|]. by eapply same_schema_trans.
Qed.

#[global] Instance evolves_reflexive lo hi : Reflexive (evolves lo hi).
Proof. intros h. apply evolves_refl. Qed.

#[global] Instance evolves_transitive lo hi : Transitive (evolves lo hi).
Proof. intros a b c. apply evolves_trans. Qed.

Lemma evolves_mono lo hi lo' hi' h h' :
  lo' ≤ lo → hi ≤ hi' → evolves lo hi h h' → evolves lo' hi' h h'.
Proof.
  intros Hlo Hhi [O N]. split.
  - intros i nd Hi. destruct (O _ _ Hi) as (nd' & ? & ?).
    exists nd'. split; [done|]. by eapply grows_mono.
  - intros i nd' H1 H2. destruct (N _ _ H1 H2) as (Hw & ? & ?).
    split; [|done].
    eapply Forall_impl; [exact Hw|]. unfold in_window. intros; lia.
Qed.

Lemma evolves_length lo hi h h' : evolves lo hi h h' → (length h ≤ length h')%nat.
Proof.
  intros [O _].
  destruct (decide (length h ≤ length h')%nat) as [|Hn]; [done|].
  destruct (lookup_lt_is_Some_2 h (length h')) as [nd Hnd]; [lia|].
  destruct (O _ _ Hnd) as (nd' & H' & _). apply lookup_lt_Some in H'. lia.
Qed.

(** Replacing a node by a grown one. *)
Lemma evolves_update lo hi h i nd nd' :
  h !! i = Some nd → grows lo hi nd nd' → evolves lo hi h (<[i := nd']> h).
Proof.
  intros Hi G. split.
  - intros j x Hj. destruct (decide (i = j)) as [->|Hne].
    + exists nd'. split; [|congruence].
      apply list_lookup_insert_eq. by eapply lookup_lt_Some.
    + exists x. split; [by rewrite list_lookup_insert_ne|apply grows_refl].
  - intros j x Hnone Hj. apply lookup_ge_None in Hnone.
    apply lookup_lt_Some in Hj. rewrite length_insert in Hj. lia.
Qed.

(** Adding a node at the end of the store. *)
Lemma evolves_alloc lo hi h nd' : born lo hi h nd' → evolves lo hi h (h ++ [nd']).
Proof.
  intros B. split.
  - intros i nd H. exists nd. split; [|apply grows_refl].
    rewrite lookup_app_l; [done|]. by eapply lookup_lt_Some.
  - intros i x Hnone Hi. apply lookup_ge_None in Hnone.
    rewrite lookup_app_r in Hi by done.
    destruct (i - length h)%nat; simpl in Hi; [congruence|done].
Qed.

Lemma grows_with_back lo hi nd ptr x :
  grows lo hi nd (with_back (<[ptr := x]> (back nd)) nd).
Proof.
  split; [done|]. split; [done|]. split.
  - intros Hk q Hq. simpl. destruct (decide (ptr = q)) as [->|Hne].
    + rewrite lookup_insert_eq. by eexists.
    + rewrite lookup_insert_ne by done. by apply Hk.
  - exists []. by rewrite app_nil_r.
Qed.

Lemma grows_with_mods lo hi nd now var val :
  lo ≤ now < hi → (length (mods nd) ≤ 2 * n_p nd)%nat →
  grows lo hi nd (with_mods (mods nd ++ [(now, var, val)]) nd).
Proof.
  intros Hw Hlen. split; [done|]. split; [done|]. split; [done|].
  exists [(now, var, val)]. split; [done|]. split.
  - by apply Forall_singleton.
  - intros _. simpl. rewrite length_app. simpl. lia.
Qed.

(** The copy of the reverse map made by a split. *)
Lemma copy_back_lookup nd bk ptr :
  copy_back nd = Some bk → ptr ∈ n_pt nd →
  bk !! ptr = back nd !! ptr ∧ is_Some (back nd !! ptr).
Proof.
  unfold copy_back. intros H Hin.
  apply fmap_Some in H as (k & Hk & ->). apply mapM_Some in Hk.
  induction Hk as [|x y l k' Hxy _ IH]; [by apply elem_of_nil in Hin|].
  apply fmap_Some in Hxy as (sx & Hsx & ->). simpl.
  destruct (decide (x = ptr)) as [->|Hne].
  - rewrite lookup_insert_eq. split; [done|by eexists].
  - rewrite lookup_insert_ne by done. apply IH.
    apply elem_of_cons in Hin as [->|]; done.
Qed.

Lemma copy_back_is_Some nd : keyed nd → is_Some (copy_back nd).
Proof.
  intros Hk. unfold copy_back. apply fmap_is_Some, mapM_is_Some, Forall_forall.
  intros ptr Hin. simpl. apply fmap_is_Some. by apply Hk.
Qed.

Lemma keyed_split nd var val bk :
  copy_back nd = Some bk → keyed (split_node nd var val bk).
Proof.
  intros H ptr Hin. simpl in *.
  destruct (copy_back_lookup _ _ _ H Hin) as [-> ?]. done.
Qed.

Lemma keyed_new dt pt p : keyed (PartialPersistentNode dt pt p).
Proof.
  intros ptr Hin. simpl in *.
  destruct (list_to_map _ !! ptr) eqn:E; [by eexists|].
  apply not_elem_of_list_to_map in E. exfalso. apply E.
  rewrite <- list_fmap_compose.
  apply list_elem_of_fmap. by exists ptr.
Qed.

End evolves_facts.

(** ** The engine keeps history *)

Section engine_facts.
Variable orc : oracle.
Implicit Types (h : list node) (lo hi now : Z).

Lemma set_back_pres lo hi self ptr new old :
  pres (evolves lo hi) (set_back self ptr new old).
Proof.
  intros h h' r. unfold set_back.
  destruct (h !! self) as [nd|] eqn:E; [|intros [= <- _]; reflexivity].
  case_bool_decide; [|intros [= <- _]; reflexivity].
  destruct (back nd !! ptr); intros [= <- _]; [|reflexivity].
  eapply evolves_update; [done|apply grows_with_back].
Qed.

Lemma retarget_pres lo hi ptrs new self :
  pres (evolves lo hi) (retarget ptrs new self).
Proof.
  induction ptrs as [|ptr rest IH]; [apply pres_ret; apply _|].
  intros h h' r. simpl.
  destruct (h !! new) as [nn|]; [|intros [= <- _]; reflexivity].
  destruct (fields nn !! ptr) as [[| |t]|]; try (intros [= <- _]; reflexivity).
  apply pres_bind; [apply _..|apply set_back_pres|intros _; apply IH].
Qed.

Lemma iter_back_pres lo hi n body new ptr snap dirty visited pending :
  (∀ x, pres (evolves lo hi) (body x)) →
  pres (evolves lo hi) (iter_back orc n body new ptr snap dirty visited pending).
Proof.
  intros Hbody. revert dirty visited pending.
  induction n as [|n IH]; intros dirty visited pending h h' r; simpl;
    (destruct (h !! new) as [nn|]; [|intros [= <- _]; reflexivity]);
    (case_bool_decide; [intros [= <- _]; reflexivity|]);
    (destruct (choose _ _ _ _ _ _); [|intros [= <- _]; reflexivity]).
  - intros [= <- _]; reflexivity.
  - apply pres_bind; [apply _..|apply Hbody|intros _; apply IH].
Qed.

Lemma cascade_pres lo hi n wr ptrs new now :
  (∀ x var val, pres (evolves lo hi) (wr x now var val)) →
  pres (evolves lo hi) (cascade orc n wr ptrs new now).
Proof.
  intros Hwr. induction ptrs as [|ptr rest IH]; [apply pres_ret; apply _|].
  simpl. apply pres_bind; [apply _..| |intros _; apply IH].
  intros h h' r. destruct (h !! new) as [nn|]; [|intros [= <- _]; reflexivity].
  apply iter_back_pres. intros x. apply Hwr.
Qed.

Lemma born_split lo hi h self nd var val bk :
  h !! self = Some nd → copy_back nd = Some bk →
  born lo hi h (split_node nd var val bk).
Proof.
  intros H Hbk. split; [constructor|]. split; [simpl; lia|].
  split; [by apply keyed_split|]. right. by exists self, nd.
Qed.

(** Every write, with all the splits and rewrites it sets off and however
    it ends, leaves the nodes that were there with their baseline and with
    their log extended by entries of version [now] only. *)
Lemma write_pres lo hi fuel self now var val :
  lo ≤ now < hi →
  pres (evolves lo hi) (write orc fuel self now var val).
Proof.
  intros Hw. revert self var val.
  induction fuel as [|fuel IH]; intros self var val;
    [apply pres_out_of_fuel; apply _|].
  intros h h' r. simpl.
  destruct (h !! self) as [nd|] eqn:E; [|intros [= <- _]; reflexivity].
  case_bool_decide; [|intros [= <- _]; reflexivity].
  case_bool_decide.
  - intros [= <- _]. eapply evolves_update; [done|by apply grows_with_mods].
  - destruct (copy_back nd) as [bk|] eqn:Hbk; [|intros [= <- _]; reflexivity].
    intros Hrun. etrans; [by eapply evolves_alloc, born_split|].
    assert (pres (evolves lo hi)
              (retarget (n_pt nd) (length h) self ;;
               cascade orc fuel (write orc fuel) (n_pt nd) (length h) now)) as Hp.
    { apply pres_bind; [apply _..|apply retarget_pres|].
      intros _. apply cascade_pres. intros x var' val'. apply IH. }
    by eapply Hp.
Qed.

End engine_facts.

(** ** The list's operations, one stamp at a time *)

#[global] Arguments call_read : simpl never.
#[global] Arguments call_write : simpl never.
#[global] Arguments call_set_back : simpl never.
#[global] Arguments engine : simpl never.

Section list_facts.
Variable orc : oracle.
Variable fuel : nat.
Implicit Types (s : LinkedList).

#[global] Instance ll_evolves_reflexive at_ : Reflexive (ll_evolves at_).
Proof. intros s. split; [done..|reflexivity|]. exists []. by rewrite app_nil_r. Qed.

#[global] Instance ll_evolves_transitive at_ : Transitive (ll_evolves at_).
Proof.
  intros a b c [R1 T1 H1 (e1 & C1 & F1)] [R2 T2 H2 (e2 & C2 & F2)].
  split; [congruence..|by etrans|].
  exists (e1 ++ e2). split; [by rewrite C2, C1, app_assoc|by apply Forall_app].
Qed.

Lemma get_root_pres at_ : pres (ll_evolves at_) get_root.
Proof. intros s s' r [= <- _]. reflexivity. Qed.

Lemma new_node_pres at_ : pres (ll_evolves at_) new_node.
Proof.
  intros s s' r [= <- _]. split; simpl; [done..| |].
  - apply evolves_alloc. split; [constructor|]. split; [simpl; lia|].
    split; [apply keyed_new|by left].
  - exists []. by rewrite app_nil_r.
Qed.

Lemma engine_pres {A} at_ (m : M (list node) A) :
  pres (evolves at_ (at_ + 1)) m → pres (ll_evolves at_) (engine at_ m).
Proof.
  intros Hm s s' r. unfold engine.
  destruct (m (heap s)) as [h' r'] eqn:E. intros [= <- _].
  split; simpl; [done..|by eapply Hm|].
  exists [at_]. split; [done|by apply Forall_singleton].
Qed.

Lemma call_read_pres recv var at_ : pres (ll_evolves at_) (call_read recv var at_).
Proof.
  destruct recv; try (apply pres_raise; apply _).
  apply engine_pres. intros h h' r.
  destruct (h !! n); intros [= <- _]; reflexivity.
Qed.

Lemma call_write_pres recv at_ var val :
  pres (ll_evolves at_) (call_write orc fuel recv at_ var val).
Proof.
  destruct recv; try (apply pres_raise; apply _).
  apply engine_pres, write_pres. lia.
Qed.

Lemma call_set_back_pres at_ recv ptr new old :
  pres (ll_evolves at_) (call_set_back recv ptr new old).
Proof.
  destruct recv; try (apply pres_raise; apply _).
  intros s s' r. unfold call_set_back.
  destruct (set_back n ptr new old (heap s)) as [h' r'] eqn:E. intros [= <- _].
  split; simpl; [done..|by eapply set_back_pres|].
  exists []. by rewrite app_nil_r.
Qed.

Lemma append_walk_pres n at_ cursor : pres (ll_evolves at_) (append_walk n at_ cursor).
Proof.
  revert cursor. induction n as [|n IH]; intros cursor; simpl;
    [apply pres_out_of_fuel; apply _|].
  apply pres_bind; [apply _..|apply call_read_pres|].
  intros [| |c]; [apply pres_ret|apply pres_raise|apply IH]; apply _.
Qed.

(** [hop] reads and changes nothing: its result is the [walk] of the store. *)
Lemma hop_walk k at_ cursor s :
  ∃ ev, Forall (λ v, v = at_) ev ∧
        hop k at_ cursor s
        = (MkList (heap s) (root s) (timestamp s) (calls s ++ ev),
           walk k (heap s) at_ cursor).
Proof.
  revert cursor s. induction k as [|k IH]; intros cursor s; simpl.
  - exists []. split; [done|]. rewrite app_nil_r. by destruct s.
  - unfold bind, call_read, engine.
    destruct (heap s !! cursor) as [nd|] eqn:E.
    + destruct (read nd "next_ptr" at_) as [[| |c]| |] eqn:Er;
        try (exists [at_]; split; [by apply Forall_singleton|done]).
      destruct (IH c (MkList (heap s) (root s) (timestamp s) (calls s ++ [at_])))
        as (ev & Hev & Heq).
      exists (at_ :: ev). split; [by constructor|].
      rewrite Heq. simpl. by rewrite <- app_assoc.
    + exists [at_]. split; [by apply Forall_singleton|done].
Qed.

(** The part of an operation that follows [at = self.now()]. *)
Lemma tick_then {A} (k : Z → M LinkedList A) s s' r :
  (∀ at_, pres (ll_evolves at_) (k at_)) →
  bind now k s = (s', r) → one_tick s s'.
Proof.
  intros Hk. unfold bind, now. intros H. apply Hk in H.
  destruct H as [R T Hh Hc]. simpl in *. by split.
Qed.

Lemma append_one_tick val s s' r :
  append orc fuel val s = (s', r) → one_tick s s'.
Proof.
  apply tick_then. intros at_.
  apply pres_bind; [apply _..|apply get_root_pres|intros rt].
  apply pres_bind; [apply _..|apply append_walk_pres|intros cursor].
  apply pres_bind; [apply _..|apply new_node_pres|intros new].
  apply pres_bind; [apply _..|apply call_write_pres|intros _].
  apply pres_bind; [apply _..|apply call_set_back_pres|intros _].
  apply call_write_pres.
Qed.

Lemma set_root_value_one_tick val s s' r :
  set_root_value orc fuel val s = (s', r) → one_tick s s'.
Proof.
  apply tick_then. intros at_.
  apply pres_bind; [apply _..|apply get_root_pres|intros rt].
  apply call_write_pres.
Qed.

(** After a walk that ran off the end, the fallback [append] takes a stamp
    of its own. *)
Lemma fallback_two_ticks val s ev s' r :
  Forall (λ v, v = timestamp s) ev →
  append orc fuel val (MkList (heap s) (root s) (timestamp s + 1) (calls s ++ ev))
    = (s', r) →
  two_ticks s s'.
Proof.
  intros Hev [R T Hh (ev2 & Hc & Hev2)]%append_one_tick. simpl in *.
  split; [done|lia| |].
  - by replace (timestamp s + 2) with (timestamp s + 1 + 1) by lia.
  - exists ev, ev2. split; [by rewrite app_assoc|done].
Qed.

Lemma walked_one_tick s ev :
  Forall (λ v, v = timestamp s) ev →
  one_tick s (MkList (heap s) (root s) (timestamp s + 1) (calls s ++ ev)).
Proof. intros Hev. split; simpl; [done..|reflexivity|by exists ev]. Qed.

Lemma one_tick_after_walk s ev s' :
  Forall (λ v, v = timestamp s) ev →
  ll_evolves (timestamp s)
    (MkList (heap s) (root s) (timestamp s + 1) (calls s ++ ev)) s' →
  one_tick s s'.
Proof.
  intros Hev [R T Hh (ev2 & Hc & Hev2)]. simpl in *.
  split; [done..|]. exists (ev ++ ev2).
  split; [by rewrite app_assoc|by apply Forall_app].
Qed.

(** [modify_ith_node_val]: a failed assertion changes nothing; a walk that
    runs off the end makes the operation an [append] with a second stamp;
    otherwise one stamp serves the whole operation. *)
Lemma modify_ticks i val s s' r :
  modify_ith_node_val orc fuel i val s = (s', r) →
  if bool_decide (i >= 0) then
    match walk (Z.to_nat i) (heap s) (timestamp s) (root s) with
    | Ok None => two_ticks s s'
    | _ => one_tick s s'
    end
  else s' = s ∧ r = Raise AssertionError.
Proof.
  unfold modify_ith_node_val. case_bool_decide; [|by intros [= <- <-]].
  unfold bind at 1, now. unfold bind at 1, get_root. unfold bind at 1. simpl.
  destruct (hop_walk (Z.to_nat i) (timestamp s) (root s)
              (MkList (heap s) (root s) (timestamp s + 1) (calls s)))
    as (ev & Hev & ->). simpl.
  destruct (walk _ _ _ _) as [[c|]| |].
  - intros Hw. eapply one_tick_after_walk; [done|]. by eapply call_write_pres.
  - by apply fallback_two_ticks.
  - intros [= <- _]. by apply walked_one_tick.
  - intros [= <- _]. by apply walked_one_tick.
Qed.

(** [insert_after_ith_node]: no assertion; the same two cases. *)
Lemma insert_ticks i val s s' r :
  insert_after_ith_node orc fuel i val s = (s', r) →
  match walk (Z.to_nat i) (heap s) (timestamp s) (root s) with
  | Ok None => two_ticks s s'
  | _ => one_tick s s'
  end.
Proof.
  unfold insert_after_ith_node.
  unfold bind at 1, now. unfold bind at 1, get_root. unfold bind at 1. simpl.
  destruct (hop_walk (Z.to_nat i) (timestamp s) (root s)
              (MkList (heap s) (root s) (timestamp s + 1) (calls s)))
    as (ev & Hev & ->). simpl.
  destruct (walk _ _ _ _) as [[c|]| |].
  - intros Hw. eapply one_tick_after_walk; [done|]. revert Hw.
    generalize (MkList (heap s) (root s) (timestamp s + 1) (calls s ++ ev)).
    intros s0 Hw.
    assert (pres (ll_evolves (timestamp s))
      (do next_ <- call_read (VRef c) "next_ptr" (timestamp s);
       do new <- new_node;
       call_write orc fuel (VRef new) (timestamp s) "value" val ;;
       call_write orc fuel (VRef c) (timestamp s) "next_ptr" (VRef new) ;;
       call_write orc fuel (VRef new) (timestamp s) "next_ptr" next_ ;;
       call_set_back next_ "next_ptr" new (Some c) ;;
       call_set_back (VRef new) "next_ptr" c None)) as Hp; [|by eapply Hp].
    apply pres_bind; [apply _..|apply call_read_pres|intros next_].
    apply pres_bind; [apply _..|apply new_node_pres|intros new].
    apply pres_bind; [apply _..|apply call_write_pres|intros _].
    apply pres_bind; [apply _..|apply call_write_pres|intros _].
    apply pres_bind; [apply _..|apply call_write_pres|intros _].
    apply pres_bind; [apply _..|apply call_set_back_pres|intros _].
    apply call_set_back_pres.
  - by apply fallback_two_ticks.
  - intros [= <- _]. by apply walked_one_tick.
  - intros [= <- _]. by apply walked_one_tick.
Qed.

(** [delete_ith_node]: a failed assertion changes nothing, clock included;
    otherwise one stamp. *)
Lemma delete_ticks i s s' r :
  delete_ith_node orc fuel i s = (s', r) →
  if bool_decide (i > 0) then one_tick s s'
  else s' = s ∧ r = Raise AssertionError.
Proof.
  unfold delete_ith_node. case_bool_decide; [|by intros [= <- <-]].
  apply tick_then. intros at_.
  apply pres_bind; [apply _..|apply get_root_pres|intros rt].
  apply pres_bind; [apply _..| |intros [cursor|]; [|apply pres_ret; apply _]].
  { intros s0 s1 r1. destruct (hop_walk (Z.to_nat (i - 1)) at_ rt s0)
      as (ev & Hev & ->). intros [= <- _].
    split; simpl; [done..|reflexivity|by exists ev]. }
  apply pres_bind; [apply _..|apply call_read_pres|intros next_].
  destruct next_ as [| |nx]; try (apply pres_raise; apply _).
  apply pres_bind; [apply _..|apply call_read_pres|intros next_next].
  apply pres_bind; [apply _..|apply call_write_pres|intros _].
  apply call_set_back_pres.
Qed.

End list_facts.

(** ** Every state a list can reach *)

Section reach_facts.
Implicit Types (s : LinkedList).

Lemma one_tick_step s s' : one_tick s s' → op_step s s'.
Proof. intros [R T Hh _]. split; [done|lia|by rewrite T]. Qed.

Lemma two_ticks_step s s' : two_ticks s s' → op_step s s'.
Proof.
  intros [R T Hh _]. split; [done|lia|].
  rewrite T. eapply evolves_mono; [| |exact Hh]; lia.
Qed.

Lemma op_step_refl s : op_step s s.
Proof. split; [done|lia|reflexivity]. Qed.

Lemma run_op_step orc fuel o s s' r :
  run_op orc fuel o s = (s', r) → op_step s s'.
Proof.
  destruct o as [val|val|i val|i val|i|]; simpl.
  - intros H. by eapply one_tick_step, set_root_value_one_tick.
  - intros H. by eapply one_tick_step, append_one_tick.
  - intros H%modify_ticks. case_bool_decide.
    + destruct (walk _ _ _ _) as [[c|]| |];
        auto using one_tick_step, two_ticks_step.
    + destruct H as [-> _]. apply op_step_refl.
  - intros H%insert_ticks.
    destruct (walk _ _ _ _) as [[c|]| |];
      auto using one_tick_step, two_ticks_step.
  - intros H%delete_ticks. case_bool_decide.
    + by apply one_tick_step.
    + destruct H as [-> _]. apply op_step_refl.
  - intros [= <- _]. split; simpl; [done|lia|reflexivity].
Qed.

Lemma node_ok_grows ts ts' nd nd' :
  ts ≤ ts' → grows ts ts' nd nd' → node_ok ts nd → node_ok ts' nd'.
Proof.
  intros Hts (Hs & Hf & Hk & e & Hm & Hw & Hb) [Sch Key Log Ver].
  pose proof Hs as (Hp & _ & _). split.
  - by eapply list_schema_same.
  - by apply Hk.
  - rewrite <- Hp. destruct e as [|x e]; [|by apply Hb].
    by rewrite Hm, app_nil_r.
  - rewrite Hm. apply Forall_app. split.
    + eapply Forall_impl; [exact Ver|]. simpl. intros; lia.
    + eapply Forall_impl; [exact Hw|]. unfold in_window. intros; lia.
Qed.

Lemma list_ok_step s s' : op_step s s' → list_ok s → list_ok s'.
Proof.
  intros [R T [O N]] [H0 Hall]. split; [lia|].
  rewrite Forall_lookup in Hall. apply Forall_lookup. intros i nd' Hi.
  destruct (heap s !! i) as [nd|] eqn:E.
  - destruct (O _ _ E) as (nd'' & Hi' & G).
    assert (nd'' = nd') as -> by congruence.
    eapply node_ok_grows; [exact T|exact G|by eapply Hall].
  - destruct (N _ _ E Hi) as (Hw & Hlen & Hkey & Hsch). split; [|done|done|].
    + destruct Hsch as [|(j & nd & Hj & Hs)]; [done|].
      eapply list_schema_same; [exact Hs|]. by eapply Hall.
    + eapply Forall_impl; [exact Hw|]. unfold in_window. intros; lia.
Qed.

Lemma list_ok_init : list_ok LinkedList_init.
Proof.
  split; [done|]. repeat constructor. apply keyed_new.
Qed.

Lemma reachable_ok s : reachable s → list_ok s.
Proof.
  induction 1 as [|s orc fuel o _ IH]; [apply list_ok_init|].
  eapply list_ok_step; [|exact IH].
  eapply run_op_step. apply surjective_pairing.
Qed.

Lemma reachable_run_ops orc fuel os s :
  reachable s → reachable (run_ops orc fuel os s).1.
Proof.
  revert s. induction os as [|o os IH]; intros s Hs; [done|].
  simpl. unfold bind.
  pose proof (reach_step s orc fuel o Hs) as Hstep.
  destruct (run_op orc fuel o s) as [s1 [[]|e|]]; simpl in *; [by apply IH|done..].
Qed.

End reach_facts.

(** ** Reads and renders below the window *)

Section render_facts.
Implicit Types (h : list node) (s : LinkedList).

Lemma read_same_at nd var v1 v2 :
  Forall (λ e, e_version e ≤ v1) (mods nd) → v1 ≤ v2 →
  read nd var v2 = read nd var v1.
Proof.
  intros Hall Hle. unfold read. destruct (fields nd !! var); [|done].
  f_equal. by apply read_scan_all_visible.
Qed.

Lemma str_loop_same_at n h cursor v1 v2 res :
  Forall (λ nd, Forall (λ e, e_version e ≤ v1) (mods nd)) h → v1 ≤ v2 →
  str_loop n h cursor v2 res = str_loop n h cursor v1 res.
Proof.
  intros Hall Hle. revert cursor res.
  induction n as [|n IH]; intros [|z|c] res; simpl; try done.
  destruct (h !! c) as [nd|] eqn:E; [|done].
  rewrite Forall_lookup in Hall. specialize (Hall _ _ E).
  rewrite !(read_same_at nd _ v1 v2) by done.
  destruct (read nd "value" v1); [|done..].
  destruct (read nd "next_ptr" v1); [|done..].
  apply IH.
Qed.

(** Reads that agree node by node print the same. *)
Lemma str_loop_frame n h h' cursor v res x :
  (∀ i nd, h !! i = Some nd →
     ∃ nd', h' !! i = Some nd' ∧ ∀ var, read nd' var v = read nd var v) →
  str_loop n h cursor v res = Ok x → str_loop n h' cursor v res = Ok x.
Proof.
  intros Hfr. revert cursor res.
  induction n as [|n IH]; intros [|z|c] res; simpl; try done.
  destruct (h !! c) as [nd|] eqn:E; [|done].
  destruct (Hfr _ _ E) as (nd' & -> & Hrd). rewrite !Hrd.
  destruct (read nd "value" v); [|done..].
  destruct (read nd "next_ptr" v); [|done..].
  apply IH.
Qed.

(** A grown node reads as before below the window. *)
Lemma grows_read lo hi nd nd' var v :
  grows lo hi nd nd' → v < lo → read nd' var v = read nd var v.
Proof.
  intros (_ & Hf & _ & e & Hm & Hw & _) Hv. unfold read. rewrite Hf, Hm.
  destruct (fields nd !! var); [|done]. f_equal.
  apply read_scan_app_later.
  eapply Forall_impl; [exact Hw|]. unfold in_window. intros; lia.
Qed.

End render_facts.

(** ** Single engine calls *)

Section runs.
Variable orc : oracle.

Lemma engine_run {A} at_ (m : M (list node) A) s h' r :
  m (heap s) = (h', r) →
  engine at_ m s = (MkList h' (root s) (timestamp s) (calls s ++ [at_]), r).
Proof. intros H. unfold engine. by rewrite H. Qed.

Lemma call_read_run s c nd var v :
  heap s !! c = Some nd →
  call_read (VRef c) var v s
  = (MkList (heap s) (root s) (timestamp s) (calls s ++ [v]), read nd var v).
Proof. intros H. unfold call_read. apply engine_run. by rewrite H. Qed.

Lemma read_Ok_declared nd var v x : read nd var v = Ok x → is_Some (fields nd !! var).
Proof. unfold read. destruct (fields nd !! var); [by eexists|done]. Qed.

(** A write on a log with room appends and does nothing else. *)
Lemma write_room fuel h self nd now var val :
  h !! self = Some nd → is_Some (fields nd !! var) →
  (length (mods nd) ≤ 2 * n_p nd)%nat →
  write orc (S fuel) self now var val h
  = (<[self := with_mods (mods nd ++ [(now, var, val)]) nd]> h, Ok tt).
Proof.
  intros Hs Hd Hlen. simpl. rewrite Hs.
  by rewrite !bool_decide_true by done.
Qed.

(** A write on a full log builds the new node and links it in. *)
Lemma write_full fuel h self nd bk now var val :
  h !! self = Some nd → is_Some (fields nd !! var) →
  ¬ (length (mods nd) ≤ 2 * n_p nd)%nat →
  copy_back nd = Some bk →
  write orc (S fuel) self now var val h
  = (retarget (n_pt nd) (length h) self ;;
     cascade orc fuel (write orc fuel) (n_pt nd) (length h) now)
      (h ++ [split_node nd var val bk]).
Proof.
  intros Hs Hd Hlen Hbk. simpl. rewrite Hs.
  rewrite bool_decide_true by done. rewrite bool_decide_false by done.
  by rewrite Hbk.
Qed.

Lemma lookup_new_node (h : list node) nd : (h ++ [nd]) !! length h = Some nd.
Proof. by rewrite lookup_app_r, Nat.sub_diag. Qed.

(** The new node's first pointer field holds no node: the split raises
    before it has touched any other node. *)
Lemma write_full_absent fuel h self nd bk now var val ptr rest :
  h !! self = Some nd → is_Some (fields nd !! var) →
  ¬ (length (mods nd) ≤ 2 * n_p nd)%nat →
  copy_back nd = Some bk →
  n_pt nd = ptr :: rest →
  fields (split_node nd var val bk) !! ptr = Some VNone →
  write orc (S fuel) self now var val h
  = (h ++ [split_node nd var val bk], Raise AttributeError).
Proof.
  intros Hs Hd Hlen Hbk Hpt Hf.
  rewrite (write_full _ _ _ _ _ _ _ _ Hs Hd Hlen Hbk).
  unfold bind. rewrite Hpt. simpl. rewrite lookup_new_node. by rewrite Hf.
Qed.

Lemma fold_mods_lookup l f tag :
  fold_mods l f !! tag
  = match latest_logged tag l with Some x => Some x | None => f !! tag end.
Proof.
  unfold fold_mods, latest_logged. revert f.
  induction l as [|e l IH]; intros f; [done|].
  simpl. rewrite IH. rewrite filter_cons. case_decide as Hf.
  - rewrite last_cons. destruct (last (filter _ l)); [done|].
    simpl. by rewrite <- Hf, lookup_insert_eq.
  - destruct (last (filter _ l)); [done|]. simpl.
    by rewrite lookup_insert_ne.
Qed.

Lemma iter_back_nothing n body new ptr nn (h : list node) :
  h !! new = Some nn → back nn !! ptr = Some ∅ →
  iter_back orc n body new ptr ∅ false [] (elements (∅ : gset nat)) h = (h, Ok tt).
Proof.
  intros Hn Hb. destruct n; simpl; rewrite Hn, Hb; simpl;
    rewrite bool_decide_false by (intros H; by apply H);
    rewrite bool_decide_true by done; by rewrite elements_empty.
Qed.

End runs.

(** ** An absent pointer target *)

Section absent_target.
Variable orc : oracle.

(** In a reachable list, a write that overflows a node and leaves [None]
    in the new node's pointer field raises before it has changed any node. *)
Lemma overflow_absent_raises fuel s self nd now var val :
  reachable s → heap s !! self = Some nd → is_Some (fields nd !! var) →
  length (mods nd) = (2 * n_p nd + 1)%nat →
  (if decide (var = "next_ptr"%string) then val = VNone
   else latest_logged "next_ptr" (mods nd) = None
        ∨ latest_logged "next_ptr" (mods nd) = Some VNone) →
  ∃ new, write orc (S fuel) self now var val (heap s)
         = (heap s ++ [new], Raise AttributeError).
Proof.
  intros Hreach Hself Hdecl Hfull Habs.
  apply reachable_ok in Hreach as [_ Hall]. rewrite Forall_lookup in Hall.
  destruct (Hall _ _ Hself) as [(_ & Hdt & Hpt) Hkey _ _].
  destruct (copy_back_is_Some _ Hkey) as [bk Hbk].
  exists (split_node nd var val bk).
  eapply write_full_absent; [done|done|lia|done|exact Hpt|].
  simpl. rewrite Hdt, Hpt. case_decide as Hv.
  - subst. by rewrite lookup_insert_eq.
  - rewrite lookup_insert_ne by done. rewrite fold_mods_lookup.
    by destruct Habs as [-> | ->].
Qed.

End absent_target.

(** * The claims *)

(** ** Reads *)

(** C1.  On a node whose log is sorted by version (nondecreasing), reading a
    declared tag at version [v] returns the value of the last log entry for
    that tag with version at most [v], and the baseline [fields[tag]] when
    there is none: the code's scan and the spec's rule agree. *)
Theorem C1_read_most_recent (self : node) (var : string) (v : Z) :
  Sorted version_le (mods self) →
  is_Some (fields self !! var) →
  ∃ x, read_spec self var v = Some x ∧ read self var v = Ok x.
Proof.
  intros Hs [base Hbase].
  apply Sorted_StronglySorted in Hs;
    [|intros a b c; unfold version_le; lia].
  unfold read, read_spec. rewrite Hbase, (read_scan_spec _ _ _ _ Hs).
  destruct (last (filter (visible var v) (mods self))); simpl; eauto.
Qed.

Example C1_read_most_recent_witness :
  let nd := with_mods [(0, "value"%string, VInt 1); (1, "next_ptr"%string, VRef 1);
                       (10, "next_ptr"%string, VRef 7)]
              (PartialPersistentNode LL_dt LL_pt LL_p) in
  Sorted version_le (mods nd) ∧
  ∃ x, read_spec nd "next_ptr" 5 = Some x ∧ read nd "next_ptr" 5 = Ok x.
Proof.
  assert (Sorted version_le
            [(0, "value"%string, VInt 1); (1, "next_ptr"%string, VRef 1);
             (10, "next_ptr"%string, VRef 7)]) as Hs.
  { repeat constructor; unfold version_le, e_version; simpl; lia. }
  split; [exact Hs|].
  apply C1_read_most_recent; [exact Hs|].
  exists VNone. vm_compute. reflexivity.
Defined.

(** ** The reverse sets *)

(** C2 does not hold of the code.  In the program's own run, with any fuel
    from 8 on and any iteration order, [insert_after_ith_node(2, 22)] ends
    without an exception and leaves the inserted node (node 5) with two
    nodes in [back['next_ptr']]: the old cursor (node 2) and the copy (node
    6) its split made, while [p] is 1. *)
Theorem C2_reverse_set_exceeds_p (orc : oracle) (n : nat) :
  let r := run_ops orc (8 + n) (main_build ++ main_modify2 ++ [OpInsert 2 (VInt 22)])
             LinkedList_init in
  r.2 = Ok tt ∧
  ((λ nd, (n_p nd, size <$> back nd !! "next_ptr"%string)) <$> heap r.1 !! 5%nat)
    = Some (1%nat, Some 2%nat) ∧
  ((λ nd, back nd !! "next_ptr"%string) <$> heap r.1 !! 5%nat)
    = Some (Some ({[2%nat; 6%nat]} : gset nat)).
Proof. vm_compute. repeat split. Qed.

(** ** Overflow *)

(** C3 does not hold of the code.  The root of the one-node list
    [set_root_value(1); modify_ith_node_val(0, 2); modify_ith_node_val(0, 3)]
    has [p = 1] and a log of [2p + 1 = 3] entries.  The next write on it,
    [modify_ith_node_val(0, 4)], does not complete a split: with any
    iteration order and any fuel it raises [AttributeError], because
    [set_back] is called on the [None] the new node's pointer field holds.
    The root is as it was, and the list, which printed [3->END], still does:
    no node of the list holds the written value. *)
Theorem C3_overflow_raises (orc : oracle) (n : nat) :
  let s := one_full_list in
  let r := run_op orc (S n) (OpModify 0 (VInt 4)) s in
  (run_ops orc (S n) [OpSetRoot (VInt 1); OpModify 0 (VInt 2); OpModify 0 (VInt 3)]
     LinkedList_init) = (s, Ok tt) ∧
  ((λ nd, (n_p nd, length (mods nd))) <$> heap s !! root s) = Some (1%nat, 3%nat) ∧
  r.2 = Raise AttributeError ∧
  root r.1 = root s ∧ heap r.1 !! root s = heap s !! root s ∧
  str_current 8 s = Ok "3->END"%string ∧
  str_current 8 r.1 = Ok "3->END"%string.
Proof. vm_compute. repeat split. Qed.

(** ** History is append-only *)

(** C4.  Whatever public operation runs on whatever list, and however it
    ends (splits, cascaded rewrites, an exception): every node that was
    there is still there with the same baseline and with its old log as a
    prefix of its new one; reading any tag of it at a version below the
    operation's stamp gives what it gave before; and so does printing the
    list at such a version. *)
Theorem C4_history_kept (orc : oracle) (fuel : nat) (o : op) (s : LinkedList)
    (i : nat) (nd : node) (v : Z) :
  heap s !! i = Some nd → v < timestamp s →
  let s' := (run_op orc fuel o s).1 in
  (∃ nd', heap s' !! i = Some nd' ∧ fields nd' = fields nd ∧
          mods nd `prefix_of` mods nd' ∧
          ∀ var, read nd' var v = read nd var v) ∧
  (∀ n x, str_ n s v = Ok x → str_ n s' v = Ok x).
Proof.
  intros Hi Hv s'.
  assert (op_step s s') as [R T [O N]]
    by (eapply run_op_step, surjective_pairing).
  split.
  - destruct (O _ _ Hi) as (nd' & Hi' & G). exists nd'.
    split; [done|]. split; [apply G|]. split.
    + destruct G as (_ & _ & _ & e & -> & _). by exists e.
    + intros var. by eapply grows_read.
  - intros n x. unfold str_. rewrite R. apply str_loop_frame.
    intros j ndj Hj. destruct (O _ _ Hj) as (nd' & Hj' & G).
    exists nd'. split; [done|]. intros var. by eapply grows_read.
Qed.

Example C4_history_kept_witness :
  let s := main_state2 in
  let nd := default (PartialPersistentNode [] [] 0) (heap s !! 2%nat) in
  let s' := (run_op stop_oracle 8 (OpInsert 2 (VInt 22)) s).1 in
  heap s !! 2%nat = Some nd ∧ 7 < timestamp s ∧
  (∃ nd', heap s' !! 2%nat = Some nd' ∧ fields nd' = fields nd ∧
          mods nd `prefix_of` mods nd' ∧
          ∀ var, read nd' var 7 = read nd var 7) ∧
  (∀ n x, str_ n s 7 = Ok x → str_ n s' 7 = Ok x).
Proof.
  assert (heap main_state2 !! 2%nat
          = Some (default (PartialPersistentNode [] [] 0) (heap main_state2 !! 2%nat)))
    as Hi by (vm_compute; reflexivity).
  assert (7 < timestamp main_state2) as Hv by (vm_compute; reflexivity).
  split; [exact Hi|]. split; [exact Hv|].
  exact (C4_history_kept stop_oracle 8 (OpInsert 2 (VInt 22)) main_state2 2 _ 7 Hi Hv).
Defined.

(** ** The program's own run *)

(** C5.  The run of [__main__], with any fuel from 8 on and any iteration
    order: no step raises; after each step the list prints as the spec says
    and the checkpoints are 5, 7, 9, 11 and 13; and at the end, printing at
    each checkpoint gives again what was printed when it was taken. *)
Theorem C5_main_scenario (orc : oracle) (n : nat) :
  let fuel := (8 + n)%nat in
  let r1 := run_ops orc fuel main_build LinkedList_init in
  let r2 := run_ops orc fuel main_modify2 r1.1 in
  let r3 := run_ops orc fuel main_insert2 r2.1 in
  let r4 := run_ops orc fuel main_modify1 r3.1 in
  let r5 := run_ops orc fuel main_delete2 r4.1 in
  (r1.2 = Ok tt ∧ r2.2 = Ok tt ∧ r3.2 = Ok tt ∧ r4.2 = Ok tt ∧ r5.2 = Ok tt) ∧
  (timestamp r1.1 = 6 ∧ timestamp r2.1 = 8 ∧ timestamp r3.1 = 10 ∧
   timestamp r4.1 = 12 ∧ timestamp r5.1 = 14) ∧
  (str_current fuel r1.1 = Ok "1->2->3->4->5->END"%string ∧
   str_current fuel r2.1 = Ok "1->2->20->4->5->END"%string ∧
   str_current fuel r3.1 = Ok "1->2->20->22->4->5->END"%string ∧
   str_current fuel r4.1 = Ok "1->10->20->22->4->5->END"%string ∧
   str_current fuel r5.1 = Ok "1->10->22->4->5->END"%string) ∧
  (str_ fuel r5.1 5 = str_current fuel r1.1 ∧
   str_ fuel r5.1 7 = str_current fuel r2.1 ∧
   str_ fuel r5.1 9 = str_current fuel r3.1 ∧
   str_ fuel r5.1 11 = str_current fuel r4.1 ∧
   str_ fuel r5.1 13 = str_current fuel r5.1).
Proof. vm_compute. repeat split. Qed.

(** ** Reading back what was written *)

(** C6, as the code has it.  On a node whose log has room (at most [2p]
    entries), writing a declared tag at a version no smaller than any in
    the log succeeds, and reading the tag of that node at that version
    returns the value written. *)
Theorem C6_read_your_write (orc : oracle) (fuel : nat) (h : list node)
    (self : nat) (nd : node) (now : Z) (var : string) (val : value) :
  h !! self = Some nd →
  is_Some (fields nd !! var) →
  (length (mods nd) ≤ 2 * n_p nd)%nat →
  Forall (λ e, e_version e ≤ now) (mods nd) →
  ∃ h' nd', write orc (S fuel) self now var val h = (h', Ok tt) ∧
            h' !! self = Some nd' ∧ read nd' var now = Ok val.
Proof.
  intros Hself [base Hbase] Hlen Hver. simpl. rewrite Hself.
  rewrite bool_decide_true by (by eexists).
  rewrite bool_decide_true by done.
  eexists _, _. split; [done|]. split.
  - apply list_lookup_insert_eq. by eapply lookup_lt_Some.
  - unfold read. simpl. rewrite Hbase. f_equal. by apply read_scan_snoc.
Qed.

Example C6_read_your_write_witness :
  let nd := default (PartialPersistentNode [] [] 0) (heap main_state2 !! 0%nat) in
  heap main_state2 !! 0%nat = Some nd ∧
  (length (mods nd) ≤ 2 * n_p nd)%nat ∧
  ∃ h' nd', write stop_oracle 1 0 8 "value" (VInt 7) (heap main_state2) = (h', Ok tt) ∧
            h' !! 0%nat = Some nd' ∧ read nd' "value" 8 = Ok (VInt 7).
Proof.
  assert (heap main_state2 !! 0%nat
          = Some (default (PartialPersistentNode [] [] 0) (heap main_state2 !! 0%nat)))
    as Hi by (vm_compute; reflexivity).
  split; [exact Hi|]. split; [vm_compute; lia|].
  apply (C6_read_your_write stop_oracle 0 _ 0 _ 8 "value" (VInt 7) Hi).
  - exists VNone. vm_compute. reflexivity.
  - vm_compute. lia.
  - vm_compute. repeat constructor; discriminate.
Defined.

(** C6 fails as stated: the root of [full_root_list] has a full log, all
    versions at most 3; [write(3, 'value', 11)] on it succeeds by splitting,
    the root itself is left as it was, and reading it back gives 10. *)
Example C6_counterexample :
  (∃ nd, heap full_root_list !! 0%nat = Some nd ∧
         is_Some (fields nd !! "value"%string) ∧
         Forall (λ e, e_version e ≤ 3) (mods nd)) ∧
  (write stop_oracle 8 0 3 "value" (VInt 11) (heap full_root_list)).2 = Ok tt ∧
  (∃ nd', (write stop_oracle 8 0 3 "value" (VInt 11) (heap full_root_list)).1 !! 0%nat
            = Some nd' ∧
          read nd' "value" 3 = Ok (VInt 10)).
Proof.
  split; [|split].
  - eexists. split; [vm_compute; reflexivity|]. split.
    + exists VNone. vm_compute. reflexivity.
    + vm_compute. repeat constructor; discriminate.
  - vm_compute. reflexivity.
  - eexists. split; vm_compute; reflexivity.
Qed.

(** ** One stamp per operation, two on the fallback *)

(** C7, as the code has it.  [set_root_value], [append] and a
    [delete_ith_node] whose assertion holds take one stamp and hand it to
    every engine call they make; every log entry they add carries it.
    [modify_ith_node_val] (with [i >= 0]) and [insert_after_ith_node] do the
    same when the walk stays inside the list; when it runs off the end they
    call [append], which takes a second stamp: the walk's reads carry the
    first, the append's reads and writes the second.  A failed assertion
    leaves list and clock as they were. *)
Theorem C7_stamps (orc : oracle) (fuel : nat) (o : op) (s : LinkedList) :
  op_stamps o s (run_op orc fuel o s).1 (run_op orc fuel o s).2.
Proof.
  destruct (run_op orc fuel o s) as [s' r] eqn:E. simpl.
  destruct o as [val|val|i val|i val|i|]; simpl in *.
  - by eapply set_root_value_one_tick.
  - by eapply append_one_tick.
  - by eapply modify_ticks.
  - by eapply insert_ticks.
  - by eapply delete_ticks.
  - by injection E as <- _.
Qed.

(** C7 fails as stated: on a fresh list [modify_ith_node_val(1, 5)] walks
    off the end with stamp 0, then appends with stamp 1, and leaves the clock
    at 2. *)
Example C7_counterexample :
  (run_op stop_oracle 8 (OpModify 1 (VInt 5)) LinkedList_init).2 = Ok tt ∧
  timestamp (run_op stop_oracle 8 (OpModify 1 (VInt 5)) LinkedList_init).1
    = timestamp LinkedList_init + 2 ∧
  calls (run_op stop_oracle 8 (OpModify 1 (VInt 5)) LinkedList_init).1
    = [0; 1; 1; 1].
Proof. vm_compute. repeat split. Qed.

(** ** Printing the current list *)

(** C8.  On every list a program can reach on which a version has been
    issued, [__str__] (which reads at [_timestamp], the version the clock
    would issue next) gives exactly what [str_] gives at the last version
    issued, [_timestamp - 1]: same text, or the same exception, at every
    fuel. *)
Theorem C8_render_current_is_latest (s : LinkedList) (n : nat) :
  reachable s → 1 ≤ timestamp s →
  str_current n s = str_ n s (timestamp s - 1).
Proof.
  intros [_ Hall]%reachable_ok _. unfold str_current, str_.
  apply str_loop_same_at; [|lia].
  eapply Forall_impl; [exact Hall|]. intros nd [_ _ _ Hv].
  eapply Forall_impl; [exact Hv|]. simpl. intros; lia.
Qed.

Example C8_render_current_is_latest_witness :
  let s := (run_ops stop_oracle 8 (main_build ++ main_modify2) LinkedList_init).1 in
  reachable s ∧ 1 ≤ timestamp s ∧
  str_current 8 s = str_ 8 s (timestamp s - 1) ∧
  str_current 8 s = Ok "1->2->20->4->5->END"%string.
Proof.
  assert (reachable
    (run_ops stop_oracle 8 (main_build ++ main_modify2) LinkedList_init).1) as Hr
    by apply reachable_run_ops, reach_init.
  split; [exact Hr|]. split; [by vm_compute|].
  split; [|by vm_compute].
  apply C8_render_current_is_latest; [exact Hr|by vm_compute].
Defined.

(** ** Deleting the last element *)

(** C9, as the code has it.  On a list a program can reach, let the walk of
    [i - 1] steps from the root end at a node (the cursor) whose successor
    exists and has no successor: the last element is at index [i >= 1].
    Then [delete_ith_node(i)] raises [AttributeError] after taking its
    stamp.  If the cursor's log has room (at most [2p] entries) the cursor's
    pointer has by then been rewritten to [None] at the operation's version:
    it reads [None] from that version on.  If the cursor's log is full the
    exception comes from the split and the cursor is left as it was. *)
Theorem C9_delete_last (orc : oracle) (fuel : nat) (s : LinkedList) (i : Z)
    (c n : nat) (nc nn : node) :
  reachable s → i > 0 →
  walk (Z.to_nat (i - 1)) (heap s) (timestamp s) (root s) = Ok (Some c) →
  heap s !! c = Some nc → read nc "next_ptr" (timestamp s) = Ok (VRef n) →
  heap s !! n = Some nn → read nn "next_ptr" (timestamp s) = Ok VNone →
  let r := delete_ith_node orc (S fuel) i s in
  r.2 = Raise AttributeError ∧ timestamp r.1 = timestamp s + 1 ∧
  ∃ nc', heap r.1 !! c = Some nc' ∧
    if bool_decide (length (mods nc) ≤ 2 * n_p nc)%nat
    then ∀ v, timestamp s ≤ v → read nc' "next_ptr" v = Ok VNone
    else nc' = nc.
Proof.
  intros Hreach Hi Hw Hc Hrc Hn Hrn.
  apply reachable_ok in Hreach as [Hts Hall].
  rewrite Forall_lookup in Hall. destruct (Hall _ _ Hc) as [Hsch Hkey Hlog Hver].
  pose proof (read_Ok_declared _ _ _ _ Hrc) as Hdecl.
  assert (∃ s', delete_ith_node orc (S fuel) i s = (s', Raise AttributeError) ∧
                timestamp s' = timestamp s + 1 ∧
                ∃ nc', heap s' !! c = Some nc' ∧
                  if bool_decide (length (mods nc) ≤ 2 * n_p nc)%nat
                  then ∀ v, timestamp s ≤ v → read nc' "next_ptr" v = Ok VNone
                  else nc' = nc) as (s' & Hrun & Hrest);
    [|by rewrite Hrun].
  unfold delete_ith_node. rewrite bool_decide_true by done.
  unfold bind at 1, now. unfold bind at 1, get_root. unfold bind at 1. simpl.
  destruct (hop_walk (Z.to_nat (i - 1)) (timestamp s) (root s)
              (MkList (heap s) (root s) (timestamp s + 1) (calls s)))
    as (ev & Hev & ->). simpl. rewrite Hw.
  unfold bind at 1. rewrite (call_read_run _ _ nc) by done. simpl. rewrite Hrc.
  unfold bind at 1. rewrite (call_read_run _ _ nn) by done. simpl. rewrite Hrn.
  unfold bind at 1. unfold call_write.
  case_bool_decide as Hroom.
  - erewrite engine_run; [|by apply write_room]. simpl.
    eexists. split; [done|]. split; [done|]. simpl.
    eexists. split; [apply list_lookup_insert_eq; by eapply lookup_lt_Some|].
    intros v Hv. unfold read. simpl.
    destruct Hdecl as [base ->]. f_equal.
    rewrite (read_scan_all_visible _ (timestamp s)); [| |done].
    + apply read_scan_snoc. eapply Forall_impl; [exact Hver|]. simpl. intros; lia.
    + apply Forall_app. split.
      * eapply Forall_impl; [exact Hver|]. simpl. intros; lia.
      * by apply Forall_singleton.
  - destruct (copy_back_is_Some _ Hkey) as [bk Hbk].
    destruct Hsch as (_ & _ & Hpt).
    erewrite engine_run; [|by eapply write_full_absent;
      [..|exact Hpt|simpl; apply lookup_insert_eq]]. simpl.
    eexists. split; [done|]. split; [done|]. simpl.
    exists nc. split; [|done].
    rewrite lookup_app_l; [done|]. by eapply lookup_lt_Some.
Qed.

Example C9_delete_last_witness :
  let s := main_state2 in
  let nc := default (PartialPersistentNode [] [] 0) (heap s !! 3%nat) in
  let nn := default (PartialPersistentNode [] [] 0) (heap s !! 4%nat) in
  let r := delete_ith_node stop_oracle 1 4 s in
  (reachable s ∧
   walk (Z.to_nat (4 - 1)) (heap s) (timestamp s) (root s) = Ok (Some 3%nat) ∧
   heap s !! 3%nat = Some nc ∧ read nc "next_ptr" (timestamp s) = Ok (VRef 4) ∧
   heap s !! 4%nat = Some nn ∧ read nn "next_ptr" (timestamp s) = Ok VNone ∧
   bool_decide (length (mods nc) ≤ 2 * n_p nc)%nat = true) ∧
  r.2 = Raise AttributeError ∧ timestamp r.1 = timestamp s + 1 ∧
  ∃ nc', heap r.1 !! 3%nat = Some nc' ∧
    if bool_decide (length (mods nc) ≤ 2 * n_p nc)%nat
    then ∀ v, timestamp s ≤ v → read nc' "next_ptr" v = Ok VNone
    else nc' = nc.
Proof.
  assert (reachable main_state2) as Hr by apply reachable_run_ops, reach_init.
  split; [split; [exact Hr|]; vm_compute; repeat split|].
  apply (C9_delete_last stop_oracle 0 main_state2 4 3 4
           (default (PartialPersistentNode [] [] 0) (heap main_state2 !! 3%nat))
           (default (PartialPersistentNode [] [] 0) (heap main_state2 !! 4%nat)) Hr);
    vm_compute; reflexivity.
Defined.

(** C9 fails as stated on [full_root_list], a two-element list (it prints
    [10->2->END]) whose last element is at index 1: [delete_ith_node(1)]
    raises, but the root, whose log is full, is left as it was, still points
    at the second element, and the list prints as before. *)
Example C9_counterexample :
  str_current 8 full_root_list = Ok "10->2->END"%string ∧
  (delete_ith_node stop_oracle 8 1 full_root_list).2 = Raise AttributeError ∧
  heap (delete_ith_node stop_oracle 8 1 full_root_list).1 !! 0%nat
    = heap full_root_list !! 0%nat ∧
  ((λ nd, read nd "next_ptr" 3) <$>
     heap (delete_ith_node stop_oracle 8 1 full_root_list).1 !! 0%nat)
    = Some (Ok (VRef 1)) ∧
  str_current 8 (delete_ith_node stop_oracle 8 1 full_root_list).1
    = Ok "10->2->END"%string.
Proof. vm_compute. repeat split. Qed.

(** ** A split whose pointer target is absent *)

(** C10.  In a reachable list, a write on a node whose log holds [2p + 1]
    entries, when the pointer field of the node the split builds is [None]
    (the pointer tag is written with [None], or another tag is written and
    the log's latest entry for the pointer tag is [None] or missing), raises
    [AttributeError]: [set_back] is called on [None]; the store has gained
    the unlinked new node and every node that was there, the overflowing one
    included, is exactly as it was.  Such a state is reached on a one-node
    list, with any values: the seed and two modifications of index 0 fill the
    root's log with three entries for the data tag, and the next modification
    raises. *)
Theorem C10_split_crash (orc : oracle) (fuel : nat) :
  (∀ s self nd now var val,
     reachable s → heap s !! self = Some nd → is_Some (fields nd !! var) →
     length (mods nd) = (2 * n_p nd + 1)%nat →
     (if decide (var = "next_ptr"%string) then val = VNone
      else latest_logged "next_ptr" (mods nd) = None
           ∨ latest_logged "next_ptr" (mods nd) = Some VNone) →
     let r := write orc (S fuel) self now var val (heap s) in
     r.2 = Raise AttributeError ∧ r.1 !! self = Some nd ∧
     ∃ new, r.1 = heap s ++ [new]) ∧
  (∀ a b c d,
     let r3 := run_ops orc (S fuel) [OpSetRoot a; OpModify 0 b; OpModify 0 c]
                 LinkedList_init in
     let r4 := run_op orc (S fuel) (OpModify 0 d) r3.1 in
     r3.2 = Ok tt ∧
     (mods <$> heap r3.1)
       = [[(0, "value"%string, a); (1, "value"%string, b); (2, "value"%string, c)]] ∧
     r4.2 = Raise AttributeError ∧
     heap r4.1 !! 0%nat = heap r3.1 !! 0%nat ∧
     ((λ nd, fields nd !! "next_ptr"%string) <$> heap r4.1 !! 1%nat)
       = Some (Some VNone)).
Proof.
  split.
  - intros s self nd now var val Hreach Hself Hdecl Hfull Habs r.
    destruct (overflow_absent_raises orc fuel s self nd now var val)
      as [new Hrun]; [done..|].
    subst r. rewrite Hrun. simpl. split; [done|]. split; [|by exists new].
    rewrite lookup_app_l; [done|]. by eapply lookup_lt_Some.
  - intros a b c d. vm_compute. repeat split.
Qed.

(** * Further properties *)

(** ** Properties that every node keeps *)

Section ipres_facts.
Context {S : Type} (I : S → Prop).

Lemma ipres_ret {A} (a : A) : ipres I (ret a).
Proof. by intros s s' r ? [= <- _]. Qed.

Lemma ipres_bind {A B} (m : M S A) (k : A → M S B) :
  ipres I m → (∀ a, ipres I (k a)) → ipres I (bind m k).
Proof.
  intros Hm Hk s s' r Hs. unfold bind.
  destruct (m s) as [s1 [a|e|]] eqn:E; intros H.
  - eapply Hk; [|exact H]. by eapply Hm.
  - injection H as <- _. by eapply Hm.
  - injection H as <- _. by eapply Hm.
Qed.

End ipres_facts.

(** A property of single nodes that appending to the log, changing the
    reverse map and splitting keep holds of every node for good. *)
Section node_inv.
Variable orc : oracle.
Variable P : node → Prop.
Hypothesis P_mods : ∀ nd l, P nd → P (with_mods l nd).
Hypothesis P_back : ∀ nd b, P nd → P (with_back b nd).
Hypothesis P_split : ∀ nd var val bk, P nd → P (split_node nd var val bk).

Lemma Forall_insert_node (h : list node) i nd :
  Forall P h → P nd → Forall P (<[i := nd]> h).
Proof.
  intros Hall Hnd. apply Forall_lookup. intros j x Hj.
  destruct (decide (i = j)) as [->|Hne].
  - destruct (decide (j < length h)%nat).
    + rewrite list_lookup_insert_eq in Hj by done. congruence.
    + rewrite list_insert_ge in Hj by lia. by eapply Forall_lookup_1.
  - rewrite list_lookup_insert_ne in Hj by done. by eapply Forall_lookup_1.
Qed.

Lemma set_back_ipres self ptr new old : ipres (Forall P) (set_back self ptr new old).
Proof.
  intros h h' r Hall. unfold set_back.
  destruct (h !! self) as [nd|] eqn:E; [|by intros [= <- _]].
  case_bool_decide; [|by intros [= <- _]].
  destruct (back nd !! ptr); intros [= <- _]; [|done].
  apply Forall_insert_node; [done|]. apply P_back. by eapply Forall_lookup_1.
Qed.

Lemma retarget_ipres ptrs new self : ipres (Forall P) (retarget ptrs new self).
Proof.
  induction ptrs as [|ptr rest IH]; [apply ipres_ret|].
  intros h h' r Hall. simpl.
  destruct (h !! new) as [nn|]; [|by intros [= <- _]].
  destruct (fields nn !! ptr) as [[| |t]|]; try (by intros [= <- _]).
  revert Hall. apply ipres_bind; [apply set_back_ipres|intros _; apply IH].
Qed.

Lemma iter_back_ipres n body new ptr snap dirty visited pending :
  (∀ x, ipres (Forall P) (body x)) →
  ipres (Forall P) (iter_back orc n body new ptr snap dirty visited pending).
Proof.
  intros Hbody. revert dirty visited pending.
  induction n as [|n IH]; intros dirty visited pending h h' r Hall; simpl;
    (destruct (h !! new) as [nn|]; [|by intros [= <- _]]);
    (case_bool_decide; [by intros [= <- _]|]);
    (destruct (choose _ _ _ _ _ _); [|by intros [= <- _]]).
  - by intros [= <- _].
  - revert Hall. apply ipres_bind; [apply Hbody|intros _; apply IH].
Qed.

Lemma cascade_ipres n wr ptrs new now :
  (∀ x var val, ipres (Forall P) (wr x now var val)) →
  ipres (Forall P) (cascade orc n wr ptrs new now).
Proof.
  intros Hwr. induction ptrs as [|ptr rest IH]; [apply ipres_ret|].
  simpl. apply ipres_bind; [|intros _; apply IH].
  intros h h' r Hall. destruct (h !! new) as [nn|]; [|by intros [= <- _]].
  revert Hall. apply iter_back_ipres. intros x. apply Hwr.
Qed.

Lemma write_ipres fuel self now var val :
  ipres (Forall P) (write orc fuel self now var val).
Proof.
  revert self var val. induction fuel as [|fuel IH]; intros self var val;
    [by intros h h' r ? [= <- _]|].
  intros h h' r Hall. simpl.
  destruct (h !! self) as [nd|] eqn:E; [|by intros [= <- _]].
  assert (P nd) as Hnd by (by eapply Forall_lookup_1).
  case_bool_decide; [|by intros [= <- _]].
  case_bool_decide.
  - intros [= <- _]. apply Forall_insert_node; [done|by apply P_mods].
  - destruct (copy_back nd) as [bk|]; [|by intros [= <- _]].
    assert (ipres (Forall P)
              (retarget (n_pt nd) (length h) self ;;
               cascade orc fuel (write orc fuel) (n_pt nd) (length h) now)) as Hp.
    { apply ipres_bind; [apply retarget_ipres|].
      intros _. apply cascade_ipres. intros x var' val'. apply IH. }
    apply Hp. apply Forall_app. split; [done|].
    apply Forall_singleton. by apply P_split.
Qed.

End node_inv.

(** The same for the list's operations, when the property also holds of a
    node as the list creates it. *)
Section list_inv.
Variable orc : oracle.
Variable fuel : nat.
Variable P : node → Prop.
Hypothesis P_mods : ∀ nd l, P nd → P (with_mods l nd).
Hypothesis P_back : ∀ nd b, P nd → P (with_back b nd).
Hypothesis P_split : ∀ nd var val bk, P nd → P (split_node nd var val bk).
Hypothesis P_new : P (PartialPersistentNode LL_dt LL_pt LL_p).

Lemma engine_ipres {A} at_ (m : M (list node) A) :
  ipres (Forall P) m → ipres (heap_all P) (engine at_ m).
Proof.
  intros Hm s s' r Hs. unfold engine.
  destruct (m (heap s)) as [h' r'] eqn:E. intros [= <- _]. by eapply Hm.
Qed.

Lemma call_read_ipres recv var at_ : ipres (heap_all P) (call_read recv var at_).
Proof.
  destruct recv; try (by intros s s' r ? [= <- _]).
  apply engine_ipres. intros h h' r Hh.
  by destruct (h !! n); intros [= <- _].
Qed.

Lemma call_write_ipres recv at_ var val :
  ipres (heap_all P) (call_write orc fuel recv at_ var val).
Proof.
  destruct recv; try (by intros s s' r ? [= <- _]).
  by apply engine_ipres, write_ipres.
Qed.

Lemma call_set_back_ipres recv ptr new old :
  ipres (heap_all P) (call_set_back recv ptr new old).
Proof.
  destruct recv; try (by intros s s' r ? [= <- _]).
  intros s s' r Hs. unfold call_set_back.
  destruct (set_back n ptr new old (heap s)) as [h' r'] eqn:E. intros [= <- _].
  by eapply set_back_ipres.
Qed.

Lemma new_node_ipres : ipres (heap_all P) new_node.
Proof.
  intros s s' r Hs [= <- _]. unfold heap_all. simpl.
  apply Forall_app. split; [done|by apply Forall_singleton].
Qed.

Lemma now_ipres : ipres (heap_all P) now.
Proof. by intros s s' r Hs [= <- _]. Qed.

Lemma get_root_ipres : ipres (heap_all P) get_root.
Proof. by intros s s' r Hs [= <- _]. Qed.

Lemma append_walk_ipres n at_ cursor : ipres (heap_all P) (append_walk n at_ cursor).
Proof.
  revert cursor. induction n as [|n IH]; intros cursor; simpl;
    [by intros s s' r ? [= <- _]|].
  apply ipres_bind; [apply call_read_ipres|].
  intros [| |c]; [by intros s s' r ? [= <- _]..|apply IH].
Qed.

Lemma hop_ipres k at_ cursor : ipres (heap_all P) (hop k at_ cursor).
Proof.
  revert cursor. induction k as [|k IH]; intros cursor; simpl;
    [by intros s s' r ? [= <- _]|].
  apply ipres_bind; [apply call_read_ipres|].
  intros [| |c]; [by intros s s' r ? [= <- _]..|apply IH].
Qed.

Lemma append_ipres val : ipres (heap_all P) (append orc fuel val).
Proof.
  apply ipres_bind; [apply now_ipres|intros at_].
  apply ipres_bind; [apply get_root_ipres|intros rt].
  apply ipres_bind; [apply append_walk_ipres|intros cursor].
  apply ipres_bind; [apply new_node_ipres|intros new].
  apply ipres_bind; [apply call_write_ipres|intros _].
  apply ipres_bind; [apply call_set_back_ipres|intros _].
  apply call_write_ipres.
Qed.

Lemma run_op_ipres o : ipres (heap_all P) (run_op orc fuel o).
Proof.
  destruct o as [val|val|i val|i val|i|]; simpl.
  - apply ipres_bind; [apply now_ipres|intros at_].
    apply ipres_bind; [apply get_root_ipres|intros rt]. apply call_write_ipres.
  - apply append_ipres.
  - unfold modify_ith_node_val. case_bool_decide; [|by intros s s' r ? [= <- _]].
    apply ipres_bind; [apply now_ipres|intros at_].
    apply ipres_bind; [apply get_root_ipres|intros rt].
    apply ipres_bind; [apply hop_ipres|intros [c|]];
      [apply call_write_ipres|apply append_ipres].
  - apply ipres_bind; [apply now_ipres|intros at_].
    apply ipres_bind; [apply get_root_ipres|intros rt].
    apply ipres_bind; [apply hop_ipres|intros [c|]]; [|apply append_ipres].
    apply ipres_bind; [apply call_read_ipres|intros next_].
    apply ipres_bind; [apply new_node_ipres|intros new].
    apply ipres_bind; [apply call_write_ipres|intros _].
    apply ipres_bind; [apply call_write_ipres|intros _].
    apply ipres_bind; [apply call_write_ipres|intros _].
    apply ipres_bind; [apply call_set_back_ipres|intros _].
    apply call_set_back_ipres.
  - unfold delete_ith_node. case_bool_decide; [|by intros s s' r ? [= <- _]].
    apply ipres_bind; [apply now_ipres|intros at_].
    apply ipres_bind; [apply get_root_ipres|intros rt].
    apply ipres_bind; [apply hop_ipres|intros [c|]];
      [|by intros s s' r ? [= <- _]].
    apply ipres_bind; [apply call_read_ipres|intros next_].
    destruct next_ as [| |nx]; try (by intros s s' r ? [= <- _]).
    apply ipres_bind; [apply call_read_ipres|intros next_next].
    apply ipres_bind; [apply call_write_ipres|intros _].
    apply call_set_back_ipres.
  - apply ipres_bind; [apply now_ipres|by intros _ s s' r ? [= <- _]].
Qed.

End list_inv.

Lemma reachable_Forall (P : node → Prop) (s : LinkedList) :
  (∀ nd l, P nd → P (with_mods l nd)) →
  (∀ nd b, P nd → P (with_back b nd)) →
  (∀ nd var val bk, P nd → P (split_node nd var val bk)) →
  P (PartialPersistentNode LL_dt LL_pt LL_p) →
  reachable s → Forall P (heap s).
Proof.
  intros Hm Hb Hs Hn. induction 1 as [|s orc fuel o _ IH].
  - by apply Forall_singleton.
  - eapply (run_op_ipres orc fuel P Hm Hb Hs Hn o); [exact IH|].
    apply surjective_pairing.
Qed.

(** In every state a list can reach, both tags are declared on every node. *)
Lemma reachable_declared s i nd :
  reachable s → heap s !! i = Some nd → declared nd.
Proof.
  intros Hr Hi.
  assert (Forall (λ nd, (n_dt nd = LL_dt ∧ n_pt nd = LL_pt) ∧ declared nd) (heap s))
    as Hall.
  { apply reachable_Forall; [by intros x l [? ?]|by intros x b [? ?]| | |done].
    - intros x var val bk [[Hdt Hpt] _]. split; [done|].
      unfold declared. simpl. rewrite Hdt, Hpt.
      assert (∀ tag init, is_Some (init !! tag) →
                is_Some (<[var := val]> (fold_mods (mods x) init) !! tag)) as Hk.
      { intros tag init Ht. destruct (decide (var = tag)) as [->|].
        - rewrite lookup_insert_eq. by eexists.
        - rewrite lookup_insert_ne by done. rewrite fold_mods_lookup.
          by destruct (latest_logged tag (mods x)). }
      split; apply Hk; by eexists.
    - split; [done|]. split; by eexists. }
  by destruct (Forall_lookup_1 _ _ _ _ Hall Hi) as [_ ?].
Qed.

(** ** Logs stay sorted *)

Lemma run_op_window orc fuel o s s' r :
  run_op orc fuel o s = (s', r) →
  timestamp s ≤ timestamp s' ∧
  (heap s' = heap s ∨
   ∃ lo, timestamp s ≤ lo < timestamp s' ∧ evolves lo (lo + 1) (heap s) (heap s')).
Proof.
  assert (∀ s s', one_tick s s' →
            timestamp s ≤ timestamp s' ∧
            (heap s' = heap s ∨
             ∃ lo, timestamp s ≤ lo < timestamp s' ∧
                   evolves lo (lo + 1) (heap s) (heap s'))) as H1.
  { intros a b [_ T Hh _]. split; [lia|]. right. exists (timestamp a).
    split; [lia|done]. }
  assert (∀ s s', two_ticks s s' →
            timestamp s ≤ timestamp s' ∧
            (heap s' = heap s ∨
             ∃ lo, timestamp s ≤ lo < timestamp s' ∧
                   evolves lo (lo + 1) (heap s) (heap s'))) as H2.
  { intros a b [_ T Hh _]. split; [lia|]. right. exists (timestamp a + 1).
    split; [lia|]. by replace (timestamp a + 1 + 1) with (timestamp a + 2) by lia. }
  destruct o as [val|val|i val|i val|i|]; simpl.
  - intros H. by eapply H1, set_root_value_one_tick.
  - intros H. by eapply H1, append_one_tick.
  - intros H%modify_ticks. case_bool_decide.
    + destruct (walk _ _ _ _) as [[c|]| |]; auto.
    + destruct H as [-> _]. split; [lia|by left].
  - intros H%insert_ticks. destruct (walk _ _ _ _) as [[c|]| |]; auto.
  - intros H%delete_ticks. case_bool_decide; [auto|].
    destruct H as [-> _]. split; [lia|by left].
  - intros [= <- _]. simpl. split; [lia|by left].
Qed.

Lemma sorted_app_stamp (l extra : list entry) lo :
  Sorted version_le l → Forall (λ e, e_version e < lo + 1) l →
  Forall (in_window lo (lo + 1)) extra →
  Sorted version_le (l ++ extra).
Proof.
  intros Hs Hl He.
  apply StronglySorted_Sorted.
  apply Sorted_StronglySorted in Hs; [|intros a b c; unfold version_le; lia].
  apply StronglySorted_app_2; [|done|].
  - intros a b Ha Hb. rewrite Forall_forall in Hl, He.
    specialize (Hl _ Ha). specialize (He _ Hb).
    unfold in_window, version_le in *. simpl in *. lia.
  - clear -He. induction He as [|e extra Hx He IH]; constructor; [done|].
    eapply Forall_impl; [exact He|]. unfold in_window, version_le in *.
    simpl. intros; lia.
Qed.

Lemma log_ok_window lo ts ts' h h' :
  0 ≤ ts → ts ≤ lo < ts' → evolves lo (lo + 1) h h' →
  Forall (log_ok ts) h → Forall (log_ok ts') h'.
Proof.
  intros H0 Hlo [O N] Hall. rewrite Forall_lookup in Hall.
  apply Forall_lookup. intros i nd' Hi.
  destruct (h !! i) as [nd|] eqn:E.
  - destruct (O _ _ E) as (nd'' & Hi' & (_ & _ & _ & e & Hm & Hw & _)).
    assert (nd'' = nd') as -> by congruence.
    destruct (Hall _ _ E) as [Hs Hv]. split; rewrite Hm.
    + eapply sorted_app_stamp; [done| |done].
      eapply Forall_impl; [exact Hv|]. simpl. intros; lia.
    + apply Forall_app. split.
      * eapply Forall_impl; [exact Hv|]. simpl. intros; lia.
      * eapply Forall_impl; [exact Hw|]. unfold in_window. simpl. intros; lia.
  - destruct (N _ _ E Hi) as (Hw & _). split.
    + apply (sorted_app_stamp [] _ lo); [constructor|constructor|done].
    + eapply Forall_impl; [exact Hw|]. unfold in_window. simpl. intros; lia.
Qed.

Lemma log_ok_later ts ts' nd : ts ≤ ts' → log_ok ts nd → log_ok ts' nd.
Proof.
  intros Hle [Hs Hv]. split; [done|].
  eapply Forall_impl; [exact Hv|]. simpl. intros; lia.
Qed.

(** X1.  In every state a list can reach, the log of every node is sorted
    by version and holds only versions the clock has issued, from 0 up to
    but not including [_timestamp]; so on every node, reading either tag of
    the list at any version raises nothing and returns what the spec's rule
    says. *)
Theorem X1_reachable_logs_sorted (s : LinkedList) (i : nat) (nd : node) :
  reachable s → heap s !! i = Some nd →
  Sorted version_le (mods nd) ∧
  Forall (λ e, 0 ≤ e_version e < timestamp s) (mods nd) ∧
  ∀ var v, var ∈ LL_dt ++ LL_pt →
    ∃ x, read_spec nd var v = Some x ∧ read nd var v = Ok x.
Proof.
  intros Hreach Hi.
  assert (0 ≤ timestamp s ∧ Forall (log_ok (timestamp s)) (heap s)) as [_ Hall].
  { clear i nd Hi. induction Hreach as [|s orc fuel o _ [H0 IH]].
    - split; [done|]. repeat constructor.
    - destruct (run_op orc fuel o s) as [s' r] eqn:E. simpl.
      apply run_op_window in E as [Hts [Hsame|(lo & Hlo & Hev)]].
      + split; [lia|]. rewrite Hsame.
        eapply Forall_impl; [exact IH|]. intros nd. by apply log_ok_later.
      + split; [lia|]. by eapply log_ok_window. }
  rewrite Forall_lookup in Hall. destruct (Hall _ _ Hi) as [Hs Hv].
  split; [done|]. split; [done|].
  intros var v Hvar.
  assert (is_Some (fields nd !! var)) as [base Hbase].
  { destruct (reachable_declared _ _ _ Hreach Hi) as [Hdv Hdn].
    apply elem_of_cons in Hvar as [->|Hvar]; [done|].
    apply elem_of_cons in Hvar as [->|Hvar]; [done|]. by apply elem_of_nil in Hvar. }
  apply Sorted_StronglySorted in Hs; [|intros a b c; unfold version_le; lia].
  unfold read, read_spec. rewrite Hbase, (read_scan_spec _ _ _ _ Hs).
  destruct (last (filter (visible var v) (mods nd))); simpl; eauto.
Qed.

Lemma main_state2_reachable : reachable main_state2.
Proof. apply reachable_run_ops, reach_init. Qed.

Example X1_reachable_logs_sorted_witness :
  reachable main_state2 ∧
  heap main_state2 !! 2%nat = Some (node_at main_state2 2) ∧
  mods (node_at main_state2 2)
    = [(2, "value"%string, VInt 3); (3, "next_ptr"%string, VRef 3);
       (6, "value"%string, VInt 20)] ∧
  Sorted version_le (mods (node_at main_state2 2)) ∧
  Forall (λ e, 0 ≤ e_version e < timestamp main_state2) (mods (node_at main_state2 2)).
Proof.
  assert (heap main_state2 !! 2%nat = Some (node_at main_state2 2)) as Hi
    by (vm_compute; reflexivity).
  destruct (X1_reachable_logs_sorted main_state2 2 _ main_state2_reachable Hi)
    as (Hs & Hv & _).
  split; [exact main_state2_reachable|]. split; [exact Hi|].
  split; [vm_compute; reflexivity|]. split; [exact Hs|exact Hv].
Defined.

(** ** Reads at two versions *)

Lemma filter_visible_same var v1 v2 (l : list entry) :
  v1 ≤ v2 →
  Forall (λ e, e_field e = var → ¬ (v1 < e_version e ≤ v2)) l →
  filter (visible var v1) l = filter (visible var v2) l.
Proof.
  intros Hle. induction 1 as [|e l He _ IH]; [done|].
  rewrite !filter_cons, IH. unfold visible in *.
  repeat case_decide; try done; exfalso; intuition lia.
Qed.

(** X2.  On a node whose log is sorted by version, two reads of a tag at
    versions [v1 <= v2] agree (in value, or in both raising) whenever the log
    has no entry for that tag with a version above [v1] and at most [v2]. *)
Theorem X2_read_version_monotone (nd : node) (var : string) (v1 v2 : Z) :
  Sorted version_le (mods nd) → v1 ≤ v2 →
  Forall (λ e, e_field e = var → ¬ (v1 < e_version e ≤ v2)) (mods nd) →
  read nd var v1 = read nd var v2.
Proof.
  intros Hs Hle Hno.
  apply Sorted_StronglySorted in Hs; [|intros a b c; unfold version_le; lia].
  unfold read. destruct (fields nd !! var); [|done].
  rewrite !read_scan_spec by done. by rewrite (filter_visible_same var v1 v2).
Qed.

Example X2_read_version_monotone_witness :
  let nd := with_mods [(0, "value"%string, VInt 1); (1, "next_ptr"%string, VRef 1);
                       (10, "next_ptr"%string, VRef 7)]
              (PartialPersistentNode LL_dt LL_pt LL_p) in
  Sorted version_le (mods nd) ∧ 2 ≤ 9 ∧
  read nd "next_ptr" 2 = read nd "next_ptr" 9 ∧
  read nd "next_ptr" 9 = Ok (VRef 1).
Proof.
  assert (Sorted version_le
            [(0, "value"%string, VInt 1); (1, "next_ptr"%string, VRef 1);
             (10, "next_ptr"%string, VRef 7)]) as Hs.
  { repeat constructor; unfold version_le, e_version; simpl; lia. }
  split; [exact Hs|]. split; [lia|]. split; [|vm_compute; reflexivity].
  apply X2_read_version_monotone; [exact Hs|lia|].
  repeat constructor; unfold e_field, e_version; simpl; intros; try discriminate; lia.
Defined.

(** ** Whole programs *)

Lemma op_step_trans s1 s2 s3 : op_step s1 s2 → op_step s2 s3 → op_step s1 s3.
Proof.
  intros [R1 T1 H1] [R2 T2 H2]. split; [congruence|lia|].
  etrans; (eapply evolves_mono; [| |eassumption]); lia.
Qed.

Lemma steps_op_step s s' : steps s s' → op_step s s'.
Proof.
  induction 1 as [|s' orc fuel o _ IH]; [apply op_step_refl|].
  eapply op_step_trans; [exact IH|].
  eapply run_op_step. apply surjective_pairing.
Qed.

Lemma grows_full_same lo hi nd nd' :
  grows lo hi nd nd' → (2 * n_p nd < length (mods nd))%nat →
  mods nd' = mods nd ∧ fields nd' = fields nd ∧ same_schema nd nd'.
Proof.
  intros (Hs & Hf & _ & e & Hm & _ & Hb) Hfull. split; [|done].
  destruct e as [|x e]; [by rewrite Hm, app_nil_r|].
  specialize (Hb ltac:(done)). rewrite Hm, length_app in Hb. simpl in Hb. lia.
Qed.

(** X3.  A node whose log is full is never changed again.  Whatever
    operations run on the list from then on, with whatever iteration order,
    and whether each of them returns or raises before the next one runs:
    the node is still there with the same log, the same baseline and the
    same [p], so it is still full and reads the same at every version; and
    [self.root] is never reassigned.  For the root this means that, once
    its log is full, the first element the list prints can no longer be
    modified. *)
Theorem X3_full_node_frozen (s s' : LinkedList) (i : nat) (nd : node) :
  heap s !! i = Some nd → (2 * n_p nd < length (mods nd))%nat →
  steps s s' →
  root s' = root s ∧
  ∃ nd', heap s' !! i = Some nd' ∧ mods nd' = mods nd ∧ fields nd' = fields nd ∧
         n_p nd' = n_p nd ∧ n_dt nd' = n_dt nd ∧ n_pt nd' = n_pt nd ∧
         ∀ var v, read nd' var v = read nd var v.
Proof.
  intros Hi Hfull Hst. destruct (steps_op_step _ _ Hst) as [R _ [O _]].
  split; [done|]. destruct (O _ _ Hi) as (nd' & Hi' & G).
  destruct (grows_full_same _ _ _ _ G Hfull) as (Hm & Hf & Hp & Hdt & Hpt).
  exists nd'. split; [done|]. split; [done|]. split; [done|].
  split; [done|]. split; [done|]. split; [done|].
  intros var v. unfold read. by rewrite Hm, Hf.
Qed.

Example X3_full_node_frozen_witness :
  let s := full_root_list in
  let s1 := (run_op stop_oracle 8 (OpDelete 0) s).1 in
  let s2 := (run_op stop_oracle 8 (OpInsert 5 (VInt 3)) s1).1 in
  let s3 := (run_op once_oracle 8 (OpModify 0 (VInt 99)) s2).1 in
  let s4 := (run_op stop_oracle 8 (OpModify 2 (VInt 4)) s3).1 in
  (heap s !! 0%nat = Some (node_at s 0) ∧
   (2 * n_p (node_at s 0) < length (mods (node_at s 0)))%nat ∧ steps s s4) ∧
  (run_op stop_oracle 8 (OpDelete 0) s).2 = Raise AssertionError ∧
  (run_op stop_oracle 8 (OpInsert 5 (VInt 3)) s1).2 = Ok tt ∧
  (run_op once_oracle 8 (OpModify 0 (VInt 99)) s2).2 = Ok tt ∧
  (run_op stop_oracle 8 (OpModify 2 (VInt 4)) s3).2 = Ok tt ∧
  root s4 = root s ∧
  (∃ nd', heap s4 !! 0%nat = Some nd' ∧ mods nd' = mods (node_at s 0) ∧
          fields nd' = fields (node_at s 0)) ∧
  str_current 8 s = Ok "10->2->END"%string ∧
  str_current 8 s4 = Ok "10->2->4->END"%string.
Proof.
  cbv zeta.
  assert (heap full_root_list !! 0%nat = Some (node_at full_root_list 0)) as Hi
    by (vm_compute; reflexivity).
  assert (2 * n_p (node_at full_root_list 0)
          < length (mods (node_at full_root_list 0)))%nat as Hfull
    by (vm_compute; lia).
  pose proof (steps_step _ _ stop_oracle 8 (OpModify 2 (VInt 4))
               (steps_step _ _ once_oracle 8 (OpModify 0 (VInt 99))
                 (steps_step _ _ stop_oracle 8 (OpInsert 5 (VInt 3))
                   (steps_step _ _ stop_oracle 8 (OpDelete 0)
                     (steps_refl full_root_list))))) as Hst.
  destruct (X3_full_node_frozen _ _ 0 _ Hi Hfull Hst)
    as (Hr & nd' & Hn & Hm & Hf & _).
  split; [exact (conj Hi (conj Hfull Hst))|].
  split; [vm_compute; reflexivity|]. split; [vm_compute; reflexivity|].
  split; [vm_compute; reflexivity|]. split; [vm_compute; reflexivity|].
  split; [exact Hr|].
  split; [exists nd'; exact (conj Hn (conj Hm Hf))|].
  split; vm_compute; reflexivity.
Defined.

(** ** Operations, call by call *)

Section list_runs.
Variable orc : oracle.

Lemma call_write_run fuel s n at_ var val h' r :
  write orc fuel n at_ var val (heap s) = (h', r) →
  call_write orc fuel (VRef n) at_ var val s
  = (MkList h' (root s) (timestamp s) (calls s ++ [at_]), r).
Proof. intros H. unfold call_write. by apply engine_run. Qed.

Lemma call_set_back_run s n ptr new old h' r :
  set_back n ptr new old (heap s) = (h', r) →
  call_set_back (VRef n) ptr new old s
  = (MkList h' (root s) (timestamp s) (calls s), r).
Proof. intros H. unfold call_set_back. by rewrite H. Qed.

(** The start of every operation that walks: the stamp, the root, the walk. *)
Lemma walk_prefix {A} k (rest : Z → option nat → M LinkedList A) s :
  ∃ ev, Forall (λ v, v = timestamp s) ev ∧
    (do at_ <- now; do r <- get_root; do c <- hop k at_ r; rest at_ c) s
    = match walk k (heap s) (timestamp s) (root s) with
      | Ok c => rest (timestamp s) c
                  (MkList (heap s) (root s) (timestamp s + 1) (calls s ++ ev))
      | Raise e => (MkList (heap s) (root s) (timestamp s + 1) (calls s ++ ev), Raise e)
      | OutOfFuel => (MkList (heap s) (root s) (timestamp s + 1) (calls s ++ ev), OutOfFuel)
      end.
Proof.
  destruct (hop_walk k (timestamp s) (root s)
              (MkList (heap s) (root s) (timestamp s + 1) (calls s)))
    as (ev & Hev & Heq).
  exists ev. split; [done|].
  unfold bind at 1, now. unfold bind at 1, get_root. unfold bind at 1.
  simpl in *. rewrite Heq. simpl. by destruct (walk _ _ _ _).
Qed.

Lemma read_after_snoc nd var ts x v :
  is_Some (fields nd !! var) →
  Forall (λ e, e_version e < ts) (mods nd) → ts ≤ v →
  read (with_mods (mods nd ++ [(ts, var, x)]) nd) var v = Ok x.
Proof.
  intros [base Hb] Hver Hv. unfold read. simpl. rewrite Hb. f_equal.
  rewrite (read_scan_all_visible _ ts); [| |done].
  - apply read_scan_snoc. eapply Forall_impl; [exact Hver|]. simpl. intros; lia.
  - apply Forall_app. split; [|by apply Forall_singleton].
    eapply Forall_impl; [exact Hver|]. simpl. intros; lia.
Qed.

Lemma read_other_snoc nd var var' ts x v :
  var ≠ var' →
  Forall (λ e, e_version e < ts) (mods nd) → ts ≤ v →
  read (with_mods (mods nd ++ [(ts, var', x)]) nd) var v = read nd var v.
Proof.
  intros Hne Hver Hv. unfold read. simpl.
  destruct (fields nd !! var) as [base|]; [|done]. f_equal.
  generalize base. induction Hver as [|[[mv mf] mx] l Hx _ IH]; intros res; simpl.
  - rewrite bool_decide_false by lia. by rewrite bool_decide_false by done.
  - unfold e_version in Hx. simpl in Hx.
    rewrite bool_decide_false by lia. apply IH.
Qed.

(** X9.  [delete_ith_node(i)] with [i > 0] on a list that has no element
    at index [i] changes no node, with any fuel: when the walk of [i - 1]
    steps runs off the end it returns normally, and when it ends on the last
    element it raises [AttributeError] ([read] is called on [None]); the
    clock has advanced by one either way. *)
Theorem X9_delete_past_end (fuel : nat) (i : Z) (s : LinkedList) :
  i > 0 →
  let r := delete_ith_node orc fuel i s in
  let w := walk (Z.to_nat (i - 1)) (heap s) (timestamp s) (root s) in
  (w = Ok None →
     r.2 = Ok tt ∧ heap r.1 = heap s ∧ timestamp r.1 = timestamp s + 1) ∧
  (∀ c nc, w = Ok (Some c) → heap s !! c = Some nc →
     read nc "next_ptr" (timestamp s) = Ok VNone →
     r.2 = Raise AttributeError ∧ heap r.1 = heap s ∧
     timestamp r.1 = timestamp s + 1).
Proof.
  intros Hi r w. subst r w.
  destruct (delete_ith_node orc fuel i s) as [s' r] eqn:E. simpl.
  unfold delete_ith_node in E. rewrite bool_decide_true in E by done.
  destruct (walk_prefix (Z.to_nat (i - 1))
    (λ at_ c, match c with
       | Some cursor =>
           do next_ <- call_read (VRef cursor) "next_ptr" at_;
           match next_ with
           | VRef nx =>
               do next_next <- call_read (VRef nx) "next_ptr" at_;
               call_write orc fuel (VRef cursor) at_ "next_ptr" next_next;;
               call_set_back next_next "next_ptr" cursor (Some nx)
           | _ => raise AttributeError
           end
       | None => ret ()
       end) s) as (ev & _ & Heq).
  rewrite Heq in E. clear Heq. split.
  - intros Hw. rewrite Hw in E. by injection E as <- <-.
  - intros c nc Hw Hc Hrd. rewrite Hw in E. unfold bind at 1 in E.
    rewrite (call_read_run _ _ nc) in E by done. simpl in E. rewrite Hrd in E.
    by injection E as <- <-.
Qed.

End list_runs.

Example X9_delete_past_end_witness :
  let s := main_state2 in
  let r := delete_ith_node stop_oracle 1 9 s in
  (9 > 0 ∧ walk (Z.to_nat (9 - 1)) (heap s) (timestamp s) (root s) = Ok None) ∧
  r.2 = Ok tt ∧ heap r.1 = heap s ∧ timestamp r.1 = timestamp s + 1.
Proof.
  assert (walk (Z.to_nat (9 - 1)) (heap main_state2) (timestamp main_state2)
            (root main_state2) = Ok None) as Hw by (vm_compute; reflexivity).
  destruct (X9_delete_past_end stop_oracle 1 9 main_state2 ltac:(lia)) as [Hnone _].
  split; [split; [lia|exact Hw]|]. exact (Hnone Hw).
Defined.

Lemma reachable_node s i nd :
  reachable s → heap s !! i = Some nd →
  list_schema nd ∧ keyed nd ∧ declared nd ∧
  Forall (λ e, e_version e < timestamp s) (mods nd).
Proof.
  intros Hr Hi. pose proof (reachable_declared _ _ _ Hr Hi) as Hd.
  apply reachable_ok in Hr as [_ Hall].
  by destruct (Forall_lookup_1 _ _ _ _ Hall Hi) as [Hs Hk _ Hv].
Qed.

Section ops_runs.
Variable orc : oracle.

Lemma write_room_run fuel s n nd at_ var val :
  heap s !! n = Some nd → is_Some (fields nd !! var) →
  (length (mods nd) ≤ 2 * n_p nd)%nat →
  call_write orc (S fuel) (VRef n) at_ var val s
  = (MkList (<[n := with_mods (mods nd ++ [(at_, var, val)]) nd]> (heap s))
       (root s) (timestamp s) (calls s ++ [at_]), Ok tt).
Proof. intros. apply call_write_run. by apply write_room. Qed.

Lemma set_back_ok (h : list node) n x ptr sx new old :
  h !! n = Some x → ptr ∈ n_pt x → back x !! ptr = Some sx →
  set_back n ptr new old h
  = (<[n := with_back
             (<[ptr := match old with
                       | Some o => if bool_decide (o ∈ sx) then sx ∖ {[o]} else sx
                       | None => sx
                       end ∪ {[new]}]> (back x)) x]> h, Ok tt).
Proof.
  intros Hn Hp Hb. unfold set_back. rewrite Hn.
  rewrite bool_decide_true by done. by rewrite Hb.
Qed.

(** X5.  On a list a program can reach, [modify_ith_node_val(i, val)] with
    [i >= 0] on an element whose log has room (at most [2p] entries)
    succeeds, advances the clock by one and changes the store in one place
    only: the element's log gains the entry [(at, 'value', val)].  From the
    operation's version on the element reads [val] for its value and what it
    read before for its pointer. *)
Theorem X5_modify_in_range (fuel : nat) (i : Z) (val : value) (s : LinkedList)
    (c : nat) (nc : node) :
  reachable s → i >= 0 →
  walk (Z.to_nat i) (heap s) (timestamp s) (root s) = Ok (Some c) →
  heap s !! c = Some nc →
  (length (mods nc) ≤ 2 * n_p nc)%nat →
  let r := modify_ith_node_val orc (S fuel) i val s in
  let nc' := with_mods (mods nc ++ [(timestamp s, "value"%string, val)]) nc in
  r.2 = Ok tt ∧ timestamp r.1 = timestamp s + 1 ∧
  heap r.1 = <[c := nc']> (heap s) ∧
  ∀ v, timestamp s ≤ v →
    read nc' "value" v = Ok val ∧ read nc' "next_ptr" v = read nc "next_ptr" v.
Proof.
  intros Hreach Hi Hw Hc Hroom r nc'.
  destruct (reachable_node _ _ _ Hreach Hc) as (_ & _ & [Hdv Hdn] & Hver).
  subst r. destruct (modify_ith_node_val orc (S fuel) i val s) as [s' r] eqn:E.
  unfold modify_ith_node_val in E. rewrite bool_decide_true in E by done.
  destruct (walk_prefix (Z.to_nat i)
    (λ at_ c, match c with
       | Some cursor => call_write orc (S fuel) (VRef cursor) at_ "value" val
       | None => append orc (S fuel) val
       end) s) as (ev & _ & Heq).
  rewrite Heq, Hw in E. clear Heq.
  erewrite write_room_run in E by done. injection E as <- <-. simpl.
  split; [done|]. split; [done|]. split; [done|].
  intros v Hv. split; [by apply read_after_snoc|by apply read_other_snoc].
Qed.

(** X7.  On a list a program can reach, [insert_after_ith_node(i, val)]
    after the last element, when that element's log has room, raises
    [AttributeError] ([set_back] is called on [None]) after it has linked the
    new node in: the store has one node more, the last element points to it
    from the operation's version on, it reads [val] and has no successor, and
    its reverse set is still empty. *)
Theorem X7_insert_after_last (fuel : nat) (i : Z) (val : value) (s : LinkedList)
    (c : nat) (nc : node) :
  reachable s →
  walk (Z.to_nat i) (heap s) (timestamp s) (root s) = Ok (Some c) →
  heap s !! c = Some nc →
  read nc "next_ptr" (timestamp s) = Ok VNone →
  (length (mods nc) ≤ 2 * n_p nc)%nat →
  let r := insert_after_ith_node orc (S fuel) i val s in
  let new := length (heap s) in
  r.2 = Raise AttributeError ∧ timestamp r.1 = timestamp s + 1 ∧
  length (heap r.1) = S (length (heap s)) ∧
  ∃ nc' nn,
    heap r.1 !! c = Some nc' ∧ heap r.1 !! new = Some nn ∧
    back nn !! "next_ptr"%string = Some ∅ ∧
    ∀ v, timestamp s ≤ v →
      read nc' "next_ptr" v = Ok (VRef new) ∧
      read nn "value" v = Ok val ∧ read nn "next_ptr" v = Ok VNone.
Proof.
  intros Hreach Hw Hc Hrd Hroom r new.
  destruct (reachable_node _ _ _ Hreach Hc) as (_ & _ & [Hdv Hdn] & Hver).
  pose proof (lookup_lt_Some _ _ _ Hc) as Hlt.
  subst r. destruct (insert_after_ith_node orc (S fuel) i val s) as [s' r] eqn:E.
  unfold insert_after_ith_node in E.
  destruct (walk_prefix (Z.to_nat i)
    (λ at_ c, match c with
       | Some cursor =>
           do next_ <- call_read (VRef cursor) "next_ptr" at_;
           do new <- new_node;
           call_write orc (S fuel) (VRef new) at_ "value" val ;;
           call_write orc (S fuel) (VRef cursor) at_ "next_ptr" (VRef new) ;;
           call_write orc (S fuel) (VRef new) at_ "next_ptr" next_ ;;
           call_set_back next_ "next_ptr" new (Some cursor) ;;
           call_set_back (VRef new) "next_ptr" cursor None
       | None => append orc (S fuel) val
       end) s) as (ev & _ & Heq).
  rewrite Heq, Hw in E. clear Heq.
  unfold bind at 1 in E. rewrite (call_read_run _ _ nc) in E by done.
  rewrite Hrd in E. unfold bind at 1 in E. unfold new_node at 1 in E. simpl in E.
  unfold bind at 1 in E.
  rewrite (write_room_run _ _ _ (PartialPersistentNode LL_dt LL_pt LL_p)) in E;
    [|simpl; apply lookup_new_node|exists VNone; reflexivity|simpl; lia].
  unfold bind at 1 in E.
  rewrite (write_room_run _ _ _ nc) in E; [| |exact Hdn|exact Hroom]; cycle 1.
  { simpl. rewrite list_lookup_insert_ne by lia. by rewrite lookup_app_l. }
  unfold bind at 1 in E. simpl in E.
  rewrite (write_room_run _ _ _
             (with_mods [(timestamp s, "value"%string, val)]
                (PartialPersistentNode LL_dt LL_pt LL_p))) in E;
    [| |exists VNone; reflexivity|simpl; lia]; cycle 1.
  { simpl. rewrite list_lookup_insert_ne by lia.
    apply list_lookup_insert_eq. rewrite length_app. simpl. lia. }
  injection E as <- <-. simpl.
  split; [done|]. split; [done|].
  split; [rewrite !length_insert, length_app; simpl; lia|].
  eexists _, _. split; [|split; [|split]].
  - rewrite list_lookup_insert_ne by lia.
    apply list_lookup_insert_eq. rewrite length_insert, length_app. simpl. lia.
  - apply list_lookup_insert_eq. rewrite !length_insert, length_app. simpl. lia.
  - done.
  - intros v Hv. split; [by apply read_after_snoc|].
    unfold read. simpl.
    rewrite !bool_decide_false by lia. done.
Qed.
End ops_runs.

Example X5_modify_in_range_witness :
  let s := main_state2 in
  let r := modify_ith_node_val stop_oracle 1 1 (VInt 10) s in
  (reachable s ∧ 1 >= 0 ∧
   walk (Z.to_nat 1) (heap s) (timestamp s) (root s) = Ok (Some 1%nat) ∧
   heap s !! 1%nat = Some (node_at s 1) ∧
   (length (mods (node_at s 1)) ≤ 2 * n_p (node_at s 1))%nat) ∧
  r.2 = Ok tt ∧ timestamp r.1 = timestamp s + 1 ∧
  heap r.1 = <[1%nat := with_mods (mods (node_at s 1)
                 ++ [(timestamp s, "value"%string, VInt 10)]) (node_at s 1)]> (heap s).
Proof.
  assert (heap main_state2 !! 1%nat = Some (node_at main_state2 1)) as Hi
    by (vm_compute; reflexivity).
  assert (walk (Z.to_nat 1) (heap main_state2) (timestamp main_state2)
            (root main_state2) = Ok (Some 1%nat)) as Hw by (vm_compute; reflexivity).
  assert (length (mods (node_at main_state2 1))
          ≤ 2 * n_p (node_at main_state2 1))%nat as Hroom by (vm_compute; lia).
  destruct (X5_modify_in_range stop_oracle 0 1 (VInt 10) main_state2 1 _
              main_state2_reachable ltac:(lia) Hw Hi Hroom) as (Hok & Hts & Hh & _).
  split; [by repeat split; try apply main_state2_reachable; try lia|].
  by repeat split.
Defined.

Example X7_insert_after_last_witness :
  let s := main_state2 in
  let r := insert_after_ith_node stop_oracle 1 4 (VInt 6) s in
  (reachable s ∧
   walk (Z.to_nat 4) (heap s) (timestamp s) (root s) = Ok (Some 4%nat) ∧
   heap s !! 4%nat = Some (node_at s 4) ∧
   read (node_at s 4) "next_ptr" (timestamp s) = Ok VNone ∧
   (length (mods (node_at s 4)) ≤ 2 * n_p (node_at s 4))%nat) ∧
  r.2 = Raise AttributeError ∧ timestamp r.1 = timestamp s + 1 ∧
  length (heap r.1) = S (length (heap s)) ∧
  str_current 8 r.1 = Ok "1->2->20->4->5->6->END"%string.
Proof.
  assert (heap main_state2 !! 4%nat = Some (node_at main_state2 4)) as Hc
    by (vm_compute; reflexivity).
  assert (walk (Z.to_nat 4) (heap main_state2) (timestamp main_state2)
            (root main_state2) = Ok (Some 4%nat)) as Hw by (vm_compute; reflexivity).
  assert (read (node_at main_state2 4) "next_ptr" (timestamp main_state2)
          = Ok VNone) as Hrc by (vm_compute; reflexivity).
  assert (length (mods (node_at main_state2 4))
          ≤ 2 * n_p (node_at main_state2 4))%nat as Hroom by (vm_compute; lia).
  destruct (X7_insert_after_last stop_oracle 0 4 (VInt 6) main_state2 4 _
              main_state2_reachable Hw Hc Hrc Hroom) as (Hok & Hts & Hlen & _).
  split; [by repeat split; try apply main_state2_reachable|].
  split; [exact Hok|]. split; [exact Hts|]. split; [exact Hlen|].
  vm_compute. reflexivity.
Defined.

(** ** Appending *)

Lemma append_walk_last n at_ cursor s :
  ∃ ev, Forall (λ v, v = at_) ev ∧
        append_walk n at_ cursor s
        = (MkList (heap s) (root s) (timestamp s) (calls s ++ ev),
           last_node n (heap s) at_ cursor).
Proof.
  revert cursor s. induction n as [|n IH]; intros cursor s; simpl.
  - exists []. split; [done|]. rewrite app_nil_r. by destruct s.
  - unfold bind, call_read, engine.
    destruct (heap s !! cursor) as [nd|] eqn:E.
    + destruct (read nd "next_ptr" at_) as [[| |c]| |] eqn:Er;
        try (exists [at_]; split; [by apply Forall_singleton|done]).
      destruct (IH c (MkList (heap s) (root s) (timestamp s) (calls s ++ [at_])))
        as (ev & Hev & Heq).
      exists (at_ :: ev). split; [by constructor|].
      rewrite Heq. simpl. by rewrite <- app_assoc.
    + exists [at_]. split; [by apply Forall_singleton|done].
Qed.

Lemma last_node_reads n h at_ x c :
  last_node n h at_ x = Ok c →
  ∃ nc, h !! c = Some nc ∧ read nc "next_ptr" at_ = Ok VNone.
Proof.
  revert x. induction n as [|n IH]; intros x; simpl; [done|].
  destruct (h !! x) as [nd|] eqn:E; [|done].
  destruct (read nd "next_ptr" at_) as [[| |y]| |] eqn:Er; try done.
  - intros [= <-]. eauto.
  - apply IH.
Qed.

(** Printing a list that has gained one element after its last node. *)
Lemma str_loop_extend (h h' : list node) ts ts' c new nc' nn val :
  ts ≤ ts' →
  Forall (λ nd, Forall (λ e, e_version e ≤ ts) (mods nd)) h →
  (∀ j x, h !! j = Some x → j ≠ c → h' !! j = Some x) →
  h' !! c = Some nc' →
  (∀ nc, h !! c = Some nc → read nc' "value" ts' = read nc "value" ts) →
  read nc' "next_ptr" ts' = Ok (VRef new) →
  h' !! new = Some nn →
  read nn "value" ts' = Ok val → read nn "next_ptr" ts' = Ok VNone →
  ∀ k n x res t,
    last_node n h ts x = Ok c →
    str_loop k h (VRef x) ts res = Ok t →
    ∃ t0, t = t0 +:+ "END" ∧
          str_loop (S k) h' (VRef x) ts' res
          = Ok ((t0 +:+ str_value val +:+ "->") +:+ "END").
Proof.
  intros Hts Hver Hframe Hc' Hcv Hcn Hnew Hnv Hnn.
  induction k as [|k IH]; intros n x res t Hlast; [done|].
  destruct n as [|n]; [done|]. simpl in Hlast. cbn [str_loop].
  destruct (h !! x) as [nd|] eqn:Ex; [|done].
  destruct (read nd "value" ts) as [a| |] eqn:Ea; [|done..].
  destruct (read nd "next_ptr" ts) as [[| |y]| |] eqn:En; try done.
  - injection Hlast as ->. intros Hold.
    assert (t = (res +:+ str_value a +:+ "->") +:+ "END") as ->
      by (destruct k; simpl in Hold; congruence).
    exists (res +:+ str_value a +:+ "->"). split; [done|].
    rewrite Hc', (Hcv _ Ex), Ea, Hcn, Hnew, Hnv, Hnn. by destruct k.
  - intros Hold.
    assert (x ≠ c) as Hne.
    { intros ->. destruct (last_node_reads _ _ _ _ _ Hlast) as (nc & Hnc & Hr).
      congruence. }
    destruct (IH _ _ _ _ Hlast Hold) as (t0 & -> & Hnew').
    exists t0. split; [done|].
    rewrite (Hframe _ _ Ex Hne).
    pose proof (Forall_lookup_1 _ _ _ _ Hver Ex) as Hv.
    rewrite !(read_same_at nd _ ts ts') by done.
    rewrite Ea, En. exact Hnew'.
Qed.

Section append_run.
Variable orc : oracle.

(** X4.  On a list a program can reach, let the walk of [append] end at a
    node whose log has room.  Then [append(val)] succeeds and advances the
    clock by one; the store gains one node and no node but the last one is
    changed; from the operation's version on the last node points to the new
    node and keeps its value, and the new node reads [val], has no successor
    and has the last node as its only referencer; and if the list printed
    [t0 ++ "END"] before, it now prints [t0] followed by [str(val)], ["->"]
    and ["END"]. *)
Theorem X4_append_at_end (fuel : nat) (val : value) (s : LinkedList)
    (c : nat) (nc : node) :
  reachable s →
  last_node (S fuel) (heap s) (timestamp s) (root s) = Ok c →
  heap s !! c = Some nc →
  (length (mods nc) ≤ 2 * n_p nc)%nat →
  let r := append orc (S fuel) val s in
  let new := length (heap s) in
  r.2 = Ok tt ∧ timestamp r.1 = timestamp s + 1 ∧
  length (heap r.1) = S (length (heap s)) ∧
  (∀ j x, heap s !! j = Some x → j ≠ c → heap r.1 !! j = Some x) ∧
  (∃ nc' nn,
     heap r.1 !! c = Some nc' ∧ heap r.1 !! new = Some nn ∧
     back nn !! "next_ptr"%string = Some {[c]} ∧
     ∀ v, timestamp s ≤ v →
       read nc' "value" v = read nc "value" v ∧
       read nc' "next_ptr" v = Ok (VRef new) ∧
       read nn "value" v = Ok val ∧ read nn "next_ptr" v = Ok VNone) ∧
  (∀ k t, str_current k s = Ok t →
     ∃ t0, t = t0 +:+ "END" ∧
           str_current (S k) r.1 = Ok ((t0 +:+ str_value val +:+ "->") +:+ "END")).
Proof.
  intros Hreach Hlast Hc Hroom r new.
  destruct (reachable_node _ _ _ Hreach Hc) as (_ & _ & [Hdv Hdn] & Hver).
  pose proof (lookup_lt_Some _ _ _ Hc) as Hlt.
  subst r. destruct (append orc (S fuel) val s) as [s' r] eqn:E.
  unfold append in E.
  unfold bind at 1, now in E. unfold bind at 1, get_root in E.
  unfold bind at 1 in E. simpl root in E.
  destruct (append_walk_last (S fuel) (timestamp s) (root s)
              (MkList (heap s) (root s) (timestamp s + 1) (calls s)))
    as (ev & _ & Heq).
  simpl timestamp in E. rewrite Heq in E. clear Heq. simpl heap in E.
  rewrite Hlast in E.
  unfold bind at 1 in E. unfold new_node at 1 in E. simpl in E.
  unfold bind at 1 in E.
  rewrite (write_room_run _ _ _ _ (PartialPersistentNode LL_dt LL_pt LL_p)) in E;
    [|simpl; apply lookup_new_node|exists VNone; reflexivity|simpl; lia].
  unfold bind at 1 in E. simpl in E.
  erewrite call_set_back_run in E; cycle 1.
  { simpl. eapply (set_back_ok _ _ _ _ ∅).
    - apply list_lookup_insert_eq. rewrite length_app. simpl. lia.
    - simpl. set_solver.
    - reflexivity. }
  simpl in E.
  rewrite (write_room_run _ _ _ _ nc) in E; [| |exact Hdn|exact Hroom]; cycle 1.
  { simpl. rewrite !list_lookup_insert_ne by lia. by rewrite lookup_app_l. }
  injection E as <- <-. simpl.
  set (nc' := with_mods (mods nc ++ [(timestamp s, "next_ptr"%string, VRef new)]) nc).
  set (nn := with_back _ _).
  assert (∀ j x, heap s !! j = Some x → j ≠ c →
            <[c := nc']> (<[new := nn]> (<[new :=
               with_mods [(timestamp s, "value"%string, val)]
                 (PartialPersistentNode LL_dt LL_pt LL_p)]>
               (heap s ++ [PartialPersistentNode LL_dt LL_pt LL_p]))) !! j = Some x)
    as Hframe.
  { intros j x Hj Hne. pose proof (lookup_lt_Some _ _ _ Hj).
    rewrite !list_lookup_insert_ne by (unfold new; lia). by rewrite lookup_app_l. }
  assert (<[c := nc']> (<[new := nn]> (<[new :=
               with_mods [(timestamp s, "value"%string, val)]
                 (PartialPersistentNode LL_dt LL_pt LL_p)]>
               (heap s ++ [PartialPersistentNode LL_dt LL_pt LL_p]))) !! c
          = Some nc') as Hc'.
  { apply list_lookup_insert_eq. rewrite !length_insert, length_app. simpl. lia. }
  assert (<[c := nc']> (<[new := nn]> (<[new :=
               with_mods [(timestamp s, "value"%string, val)]
                 (PartialPersistentNode LL_dt LL_pt LL_p)]>
               (heap s ++ [PartialPersistentNode LL_dt LL_pt LL_p]))) !! new
          = Some nn) as Hnew.
  { rewrite list_lookup_insert_ne by (unfold new; lia).
    apply list_lookup_insert_eq. rewrite !length_insert, length_app.
    unfold new. simpl. lia. }
  assert (∀ v, timestamp s ≤ v →
       read nc' "value" v = read nc "value" v ∧
       read nc' "next_ptr" v = Ok (VRef new) ∧
       read nn "value" v = Ok val ∧ read nn "next_ptr" v = Ok VNone) as Hreads.
  { intros v Hv. split; [by apply read_other_snoc|].
    split; [by apply read_after_snoc|].
    unfold read. simpl. rewrite !bool_decide_false by lia. done. }
  split; [done|]. split; [done|].
  split; [rewrite !length_insert, length_app; simpl; lia|].
  split; [exact Hframe|]. split.
  - exists nc', nn. split; [done|]. split; [done|]. split; [|done].
    unfold nn. simpl. rewrite lookup_insert_eq. f_equal.
    apply (left_id_L ∅ (∪)).
  - intros k t Hold. unfold str_current, str_ in *. simpl.
    apply reachable_ok in Hreach as [_ Hall].
    destruct (Hreads (timestamp s + 1)) as (Hr1 & Hr2 & Hr3 & Hr4); [lia|].
    assert (Forall (λ nd, Forall (λ e, e_version e ≤ timestamp s) (mods nd)) (heap s))
      as Hle.
    { eapply Forall_impl; [exact Hall|]. intros nd [_ _ _ Hv].
      eapply Forall_impl; [exact Hv|]. simpl. intros; lia. }
    assert (∀ nc0, heap s !! c = Some nc0 →
              read nc' "value" (timestamp s + 1) = read nc0 "value" (timestamp s))
      as Hval.
    { intros nc0 Hc0. assert (nc0 = nc) as -> by congruence.
      rewrite Hr1. apply read_same_at; [|lia].
      eapply Forall_impl; [exact Hver|]. simpl. intros; lia. }
    exact (str_loop_extend (heap s) _ (timestamp s) (timestamp s + 1) c new nc' nn val
             ltac:(lia) Hle Hframe Hc' Hval Hr2 Hnew Hr3 Hr4
             k (S fuel) (root s) "" t Hlast Hold).
Qed.

End append_run.

Example X4_append_at_end_witness :
  let s := main_state2 in
  let r := append stop_oracle 8 (VInt 6) s in
  (reachable s ∧ last_node 8 (heap s) (timestamp s) (root s) = Ok 4%nat ∧
   heap s !! 4%nat = Some (node_at s 4) ∧
   (length (mods (node_at s 4)) ≤ 2 * n_p (node_at s 4))%nat) ∧
  r.2 = Ok tt ∧ timestamp r.1 = timestamp s + 1 ∧
  str_current 8 s = Ok "1->2->20->4->5->END"%string ∧
  ∃ t0, "1->2->20->4->5->END"%string = t0 +:+ "END" ∧
        str_current 9 r.1 = Ok ((t0 +:+ str_value (VInt 6) +:+ "->") +:+ "END").
Proof.
  assert (last_node 8 (heap main_state2) (timestamp main_state2) (root main_state2)
          = Ok 4%nat) as Hl by (vm_compute; reflexivity).
  assert (heap main_state2 !! 4%nat = Some (node_at main_state2 4)) as Hi
    by (vm_compute; reflexivity).
  assert (length (mods (node_at main_state2 4))
          ≤ 2 * n_p (node_at main_state2 4))%nat as Hroom by (vm_compute; lia).
  assert (str_current 8 main_state2 = Ok "1->2->20->4->5->END"%string) as Hs
    by (vm_compute; reflexivity).
  destruct (X4_append_at_end stop_oracle 7 (VInt 6) main_state2 4 _
              main_state2_reachable Hl Hi Hroom) as (Hok & Hts & _ & _ & _ & Hstr).
  split; [by repeat split; try apply main_state2_reachable|].
  split; [exact Hok|]. split; [exact Hts|]. split; [exact Hs|].
  exact (Hstr 8%nat _ Hs).
Defined.

(** ** Between two elements *)

Section middle_runs.
Variable orc : oracle.

(** X8.  On a list a program can reach, [delete_ith_node(i)] of an element
    that has a successor, when the log of the element before it (the cursor)
    has room, succeeds and advances the clock by one; no node is added, and
    none is changed but the cursor and the successor: the cursor's log gains
    the pointer to the successor, which it reads from the operation's
    version on with its value unchanged, and in the successor's reverse set
    the cursor replaces the removed element. *)
Theorem X8_delete_in_middle (fuel : nat) (i : Z) (s : LinkedList)
    (c n m : nat) (nc nn nm : node) (sm : gset nat) :
  reachable s → i > 0 →
  walk (Z.to_nat (i - 1)) (heap s) (timestamp s) (root s) = Ok (Some c) →
  heap s !! c = Some nc → read nc "next_ptr" (timestamp s) = Ok (VRef n) →
  heap s !! n = Some nn → read nn "next_ptr" (timestamp s) = Ok (VRef m) →
  heap s !! m = Some nm → back nm !! "next_ptr"%string = Some sm →
  (length (mods nc) ≤ 2 * n_p nc)%nat →
  let r := delete_ith_node orc (S fuel) i s in
  r.2 = Ok tt ∧ timestamp r.1 = timestamp s + 1 ∧
  length (heap r.1) = length (heap s) ∧
  (∀ j x, heap s !! j = Some x → j ≠ c → j ≠ m → heap r.1 !! j = Some x) ∧
  ∃ nc' nm',
    heap r.1 !! c = Some nc' ∧ heap r.1 !! m = Some nm' ∧
    mods nc' = mods nc ++ [(timestamp s, "next_ptr"%string, VRef m)] ∧
    fields nc' = fields nc ∧
    back nm' !! "next_ptr"%string
      = Some ((if bool_decide (n ∈ sm) then sm ∖ {[n]} else sm) ∪ {[c]}) ∧
    ∀ v, timestamp s ≤ v →
      read nc' "next_ptr" v = Ok (VRef m) ∧ read nc' "value" v = read nc "value" v.
Proof.
  intros Hreach Hi Hw Hc Hrc Hn Hrn Hm Hsm Hroom r.
  destruct (reachable_node _ _ _ Hreach Hc) as (_ & _ & [Hdv Hdn] & Hver).
  destruct (reachable_node _ _ _ Hreach Hm) as ((_ & _ & Hptm) & _ & _ & _).
  pose proof (lookup_lt_Some _ _ _ Hc) as Hltc.
  pose proof (lookup_lt_Some _ _ _ Hm) as Hltm.
  subst r. destruct (delete_ith_node orc (S fuel) i s) as [s' r] eqn:E.
  unfold delete_ith_node in E. rewrite bool_decide_true in E by done.
  destruct (walk_prefix (Z.to_nat (i - 1))
    (λ at_ c, match c with
       | Some cursor =>
           do next_ <- call_read (VRef cursor) "next_ptr" at_;
           match next_ with
           | VRef nx =>
               do next_next <- call_read (VRef nx) "next_ptr" at_;
               call_write orc (S fuel) (VRef cursor) at_ "next_ptr" next_next;;
               call_set_back next_next "next_ptr" cursor (Some nx)
           | _ => raise AttributeError
           end
       | None => ret ()
       end) s) as (ev & _ & Heq).
  rewrite Heq, Hw in E. clear Heq.
  unfold bind at 1 in E. rewrite (call_read_run _ _ nc) in E by done.
  rewrite Hrc in E.
  unfold bind at 1 in E. rewrite (call_read_run _ _ nn) in E by done.
  simpl in E. rewrite Hrn in E.
  unfold bind at 1 in E.
  rewrite (write_room_run _ _ _ _ nc) in E by done. simpl in E.
  set (nc1 := with_mods (mods nc ++ [(timestamp s, "next_ptr"%string, VRef m)]) nc) in *.
  assert (∃ x, <[c := nc1]> (heap s) !! m = Some x ∧
               n_pt x = n_pt nm ∧ back x = back nm ∧
               (m = c → x = nc1) ∧ (m ≠ c → x = nm)) as (x & Hx & Hxp & Hxb & Hxe & Hxn).
  { destruct (decide (m = c)) as [->|Hne].
    - exists nc1. rewrite list_lookup_insert_eq by done.
      assert (nm = nc) as -> by congruence. done.
    - exists nm. by rewrite list_lookup_insert_ne. }
  erewrite call_set_back_run in E; cycle 1.
  { simpl. eapply (set_back_ok _ _ _ _ sm); [exact Hx| |by rewrite Hxb].
    rewrite Hxp, Hptm. set_solver. }
  injection E as <- <-. simpl.
  split; [done|]. split; [done|].
  split; [by rewrite !length_insert|].
  split.
  { intros j y Hj Hjc Hjm. by rewrite !list_lookup_insert_ne. }
  destruct (decide (m = c)) as [->|Hne].
  - rewrite (Hxe eq_refl) in *.
    eexists _, _. split; [apply list_lookup_insert_eq; by rewrite length_insert|].
    split; [apply list_lookup_insert_eq; by rewrite length_insert|].
    split; [done|]. split; [done|].
    split; [simpl; by rewrite lookup_insert_eq|].
    intros v Hv. split; [by apply (read_after_snoc nc)|by apply (read_other_snoc nc)].
  - rewrite (Hxn Hne) in *.
    exists nc1. eexists. split.
    { rewrite list_lookup_insert_ne by done. by apply list_lookup_insert_eq. }
    split; [apply list_lookup_insert_eq; by rewrite length_insert|].
    split; [done|]. split; [done|].
    split; [simpl; by rewrite lookup_insert_eq|].
    intros v Hv. split; [by apply read_after_snoc|by apply read_other_snoc].
Qed.

(** X6.  On a list a program can reach, [insert_after_ith_node(i, val)]
    at an element (the cursor) that has a successor and whose log has room
    succeeds and advances the clock by one; the store gains one node, and no
    other node is changed but the cursor and its successor.  From the
    operation's version on the cursor points to the new node and keeps its
    value, the new node reads [val] and points to the old successor, the
    cursor is the new node's only referencer, and in the successor's reverse
    set the new node replaces the cursor. *)
Theorem X6_insert_in_middle (fuel : nat) (i : Z) (val : value) (s : LinkedList)
    (c n : nat) (nc nn : node) (sn : gset nat) :
  reachable s →
  walk (Z.to_nat i) (heap s) (timestamp s) (root s) = Ok (Some c) →
  heap s !! c = Some nc → read nc "next_ptr" (timestamp s) = Ok (VRef n) →
  heap s !! n = Some nn → back nn !! "next_ptr"%string = Some sn →
  (length (mods nc) ≤ 2 * n_p nc)%nat →
  let r := insert_after_ith_node orc (S fuel) i val s in
  let new := length (heap s) in
  r.2 = Ok tt ∧ timestamp r.1 = timestamp s + 1 ∧
  length (heap r.1) = S (length (heap s)) ∧
  (∀ j x, heap s !! j = Some x → j ≠ c → j ≠ n → heap r.1 !! j = Some x) ∧
  ∃ nc' nn' nw,
    heap r.1 !! c = Some nc' ∧ heap r.1 !! n = Some nn' ∧
    heap r.1 !! new = Some nw ∧
    mods nc' = mods nc ++ [(timestamp s, "next_ptr"%string, VRef new)] ∧
    fields nc' = fields nc ∧
    back nn' !! "next_ptr"%string
      = Some ((if bool_decide (c ∈ sn) then sn ∖ {[c]} else sn) ∪ {[new]}) ∧
    back nw !! "next_ptr"%string = Some {[c]} ∧
    ∀ v, timestamp s ≤ v →
      read nc' "next_ptr" v = Ok (VRef new) ∧
      read nc' "value" v = read nc "value" v ∧
      read nw "value" v = Ok val ∧ read nw "next_ptr" v = Ok (VRef n).
Proof.
  intros Hreach Hw Hc Hrc Hn Hsn Hroom r new. subst new.
  destruct (reachable_node _ _ _ Hreach Hc) as (_ & _ & [Hdv Hdn] & Hver).
  destruct (reachable_node _ _ _ Hreach Hn) as ((_ & _ & Hptn) & _ & _ & _).
  pose proof (lookup_lt_Some _ _ _ Hc) as Hltc.
  pose proof (lookup_lt_Some _ _ _ Hn) as Hltn.
  subst r. destruct (insert_after_ith_node orc (S fuel) i val s) as [s' r] eqn:E.
  unfold insert_after_ith_node in E.
  destruct (walk_prefix (Z.to_nat i)
    (λ at_ c, match c with
       | Some cursor =>
           do next_ <- call_read (VRef cursor) "next_ptr" at_;
           do new <- new_node;
           call_write orc (S fuel) (VRef new) at_ "value" val ;;
           call_write orc (S fuel) (VRef cursor) at_ "next_ptr" (VRef new) ;;
           call_write orc (S fuel) (VRef new) at_ "next_ptr" next_ ;;
           call_set_back next_ "next_ptr" new (Some cursor) ;;
           call_set_back (VRef new) "next_ptr" cursor None
       | None => append orc (S fuel) val
       end) s) as (ev & _ & Heq).
  rewrite Heq, Hw in E. clear Heq.
  unfold bind at 1 in E. rewrite (call_read_run _ _ nc) in E by done.
  rewrite Hrc in E. unfold bind at 1 in E. unfold new_node at 1 in E. simpl in E.
  unfold bind at 1 in E.
  rewrite (write_room_run _ _ _ _ (PartialPersistentNode LL_dt LL_pt LL_p)) in E;
    [|simpl; apply lookup_new_node|exists VNone; reflexivity|simpl; lia].
  unfold bind at 1 in E.
  rewrite (write_room_run _ _ _ _ nc) in E; [| |exact Hdn|exact Hroom]; cycle 1.
  { simpl. rewrite list_lookup_insert_ne by lia. by rewrite lookup_app_l. }
  unfold bind at 1 in E. simpl in E.
  rewrite (write_room_run _ _ _ _
             (with_mods [(timestamp s, "value"%string, val)]
                (PartialPersistentNode LL_dt LL_pt LL_p))) in E;
    [| |exists VNone; reflexivity|simpl; lia]; cycle 1.
  { simpl. rewrite list_lookup_insert_ne by lia.
    apply list_lookup_insert_eq. rewrite length_app. simpl. lia. }
  unfold bind at 1 in E. simpl in E.
  set (nc1 := with_mods (mods nc ++ [(timestamp s, "next_ptr"%string, VRef (length (heap s)))]) nc) in *.
  set (nw1 := with_mods _ (with_mods _ _)) in *.
  remember (<[length (heap s) := with_mods [(timestamp s, "value"%string, val)]
                        (PartialPersistentNode LL_dt LL_pt LL_p)]>
               (heap s ++ [PartialPersistentNode LL_dt LL_pt LL_p])) as h0 eqn:Hh0.
  assert (length h0 = S (length (heap s))) as Hlen0.
  { rewrite Hh0, length_insert, length_app. simpl. lia. }
  assert (∀ j y, heap s !! j = Some y → h0 !! j = Some y) as Hh0old.
  { intros j y Hj. pose proof (lookup_lt_Some _ _ _ Hj).
    rewrite Hh0, list_lookup_insert_ne by lia.
    by rewrite lookup_app_l. }
  assert (∃ x, <[length (heap s) := nw1]> (<[c := nc1]> h0) !! n = Some x ∧
               n_pt x = n_pt nn ∧ back x = back nn ∧
               (n = c → x = nc1) ∧ (n ≠ c → x = nn)) as (x & Hx & Hxp & Hxb & Hxe & Hxn).
  { rewrite list_lookup_insert_ne by lia.
    destruct (decide (n = c)) as [->|Hne].
    - exists nc1. assert (nn = nc) as -> by congruence.
      split; [apply list_lookup_insert_eq; lia|done].
    - exists nn. rewrite list_lookup_insert_ne by done. by rewrite (Hh0old _ _ Hn). }
  erewrite call_set_back_run in E; cycle 1.
  { simpl. eapply (set_back_ok _ _ _ _ sn); [exact Hx| |by rewrite Hxb].
    rewrite Hxp, Hptn. set_solver. }
  simpl in E.
  erewrite call_set_back_run in E; cycle 1.
  { simpl. eapply (set_back_ok _ _ nw1 _ ∅).
    - rewrite list_lookup_insert_ne by lia.
      apply list_lookup_insert_eq. rewrite length_insert. lia.
    - simpl. set_solver.
    - reflexivity. }
  injection E as <- <-. simpl.
  split; [done|]. split; [done|].
  split; [by rewrite !length_insert|].
  split.
  { intros j y Hj Hjc Hjn. pose proof (lookup_lt_Some _ _ _ Hj).
    rewrite !list_lookup_insert_ne by lia. by apply Hh0old. }
  assert (∀ v, timestamp s ≤ v →
      read nc1 "next_ptr" v = Ok (VRef (length (heap s))) ∧
      read nc1 "value" v = read nc "value" v) as Hreads.
  { intros v Hv. split; [by apply read_after_snoc|by apply read_other_snoc]. }
  destruct (decide (n = c)) as [->|Hne].
  - rewrite (Hxe eq_refl) in *.
    eexists _, _, _. split.
    { rewrite list_lookup_insert_ne by lia.
      apply list_lookup_insert_eq. rewrite !length_insert. lia. }
    split.
    { rewrite list_lookup_insert_ne by lia.
      apply list_lookup_insert_eq. rewrite !length_insert. lia. }
    split; [apply list_lookup_insert_eq; rewrite !length_insert; lia|].
    split; [done|]. split; [done|].
    split; [simpl; by rewrite lookup_insert_eq|].
    split; [simpl; rewrite lookup_insert_eq; f_equal; apply (left_id_L ∅ (∪))|].
    intros v Hv. destruct (Hreads v Hv) as [? ?].
    repeat split; try done; unfold read; simpl;
      rewrite !bool_decide_false by lia; done.
  - rewrite (Hxn Hne) in *.
    eexists _, _, _. split.
    { rewrite list_lookup_insert_ne by lia.
      rewrite list_lookup_insert_ne by done.
      rewrite list_lookup_insert_ne by lia.
      apply list_lookup_insert_eq. lia. }
    split.
    { rewrite list_lookup_insert_ne by lia.
      apply list_lookup_insert_eq. rewrite !length_insert. lia. }
    split; [apply list_lookup_insert_eq; rewrite !length_insert; lia|].
    split; [done|]. split; [done|].
    split; [simpl; by rewrite lookup_insert_eq|].
    split; [simpl; rewrite lookup_insert_eq; f_equal; apply (left_id_L ∅ (∪))|].
    intros v Hv. destruct (Hreads v Hv) as [? ?].
    repeat split; try done; unfold read; simpl;
      rewrite !bool_decide_false by lia; done.
Qed.

End middle_runs.

Example X8_delete_in_middle_witness :
  let s := main_state2 in
  let r := delete_ith_node stop_oracle 1 1 s in
  (reachable s ∧ 1 > 0 ∧
   walk (Z.to_nat (1 - 1)) (heap s) (timestamp s) (root s) = Ok (Some 0%nat) ∧
   heap s !! 0%nat = Some (node_at s 0) ∧
   read (node_at s 0) "next_ptr" (timestamp s) = Ok (VRef 1) ∧
   heap s !! 1%nat = Some (node_at s 1) ∧
   read (node_at s 1) "next_ptr" (timestamp s) = Ok (VRef 2) ∧
   heap s !! 2%nat = Some (node_at s 2) ∧
   back (node_at s 2) !! "next_ptr"%string = Some {[1%nat]} ∧
   (length (mods (node_at s 0)) ≤ 2 * n_p (node_at s 0))%nat) ∧
  r.2 = Ok tt ∧ timestamp r.1 = timestamp s + 1 ∧
  length (heap r.1) = length (heap s) ∧
  str_current 8 r.1 = Ok "1->20->4->5->END"%string.
Proof.
  assert (heap main_state2 !! 0%nat = Some (node_at main_state2 0)) as Hc
    by (vm_compute; reflexivity).
  assert (heap main_state2 !! 1%nat = Some (node_at main_state2 1)) as Hn
    by (vm_compute; reflexivity).
  assert (heap main_state2 !! 2%nat = Some (node_at main_state2 2)) as Hm
    by (vm_compute; reflexivity).
  assert (walk (Z.to_nat (1 - 1)) (heap main_state2) (timestamp main_state2)
            (root main_state2) = Ok (Some 0%nat)) as Hw by (vm_compute; reflexivity).
  assert (read (node_at main_state2 0) "next_ptr" (timestamp main_state2)
          = Ok (VRef 1)) as Hrc by (vm_compute; reflexivity).
  assert (read (node_at main_state2 1) "next_ptr" (timestamp main_state2)
          = Ok (VRef 2)) as Hrn by (vm_compute; reflexivity).
  assert (back (node_at main_state2 2) !! "next_ptr"%string = Some {[1%nat]}) as Hsm
    by (vm_compute; reflexivity).
  assert (length (mods (node_at main_state2 0))
          ≤ 2 * n_p (node_at main_state2 0))%nat as Hroom by (vm_compute; lia).
  destruct (X8_delete_in_middle stop_oracle 0 1 main_state2 0 1 2 _ _ _ _
              main_state2_reachable ltac:(lia) Hw Hc Hrc Hn Hrn Hm Hsm Hroom)
    as (Hok & Hts & Hlen & _).
  split; [by repeat split; try apply main_state2_reachable; try lia|].
  split; [exact Hok|]. split; [exact Hts|]. split; [exact Hlen|].
  vm_compute. reflexivity.
Defined.

Example X6_insert_in_middle_witness :
  let s := main_state2 in
  let r := insert_after_ith_node stop_oracle 1 0 (VInt 15) s in
  (reachable s ∧
   walk (Z.to_nat 0) (heap s) (timestamp s) (root s) = Ok (Some 0%nat) ∧
   heap s !! 0%nat = Some (node_at s 0) ∧
   read (node_at s 0) "next_ptr" (timestamp s) = Ok (VRef 1) ∧
   heap s !! 1%nat = Some (node_at s 1) ∧
   back (node_at s 1) !! "next_ptr"%string = Some {[0%nat]} ∧
   (length (mods (node_at s 0)) ≤ 2 * n_p (node_at s 0))%nat) ∧
  r.2 = Ok tt ∧ timestamp r.1 = timestamp s + 1 ∧
  length (heap r.1) = S (length (heap s)) ∧
  str_current 8 r.1 = Ok "1->15->2->20->4->5->END"%string.
Proof.
  assert (heap main_state2 !! 0%nat = Some (node_at main_state2 0)) as Hc
    by (vm_compute; reflexivity).
  assert (heap main_state2 !! 1%nat = Some (node_at main_state2 1)) as Hn
    by (vm_compute; reflexivity).
  assert (walk (Z.to_nat 0) (heap main_state2) (timestamp main_state2)
            (root main_state2) = Ok (Some 0%nat)) as Hw by (vm_compute; reflexivity).
  assert (read (node_at main_state2 0) "next_ptr" (timestamp main_state2)
          = Ok (VRef 1)) as Hrc by (vm_compute; reflexivity).
  assert (back (node_at main_state2 1) !! "next_ptr"%string = Some {[0%nat]}) as Hsn
    by (vm_compute; reflexivity).
  assert (length (mods (node_at main_state2 0))
          ≤ 2 * n_p (node_at main_state2 0))%nat as Hroom by (vm_compute; lia).
  destruct (X6_insert_in_middle stop_oracle 0 0 (VInt 15) main_state2 0 1 _ _ _
              main_state2_reachable Hw Hc Hrc Hn Hsn Hroom)
    as (Hok & Hts & Hlen & _).
  split; [by repeat split; try apply main_state2_reachable|].
  split; [exact Hok|]. split; [exact Hts|]. split; [exact Hlen|].
  vm_compute. reflexivity.
Defined.

(** ** The split and its referencer *)

Section cascade_runs.
Variable orc : oracle.

(** An iteration whose set is as it was and has nothing pending ends. *)
Lemma iter_back_done n body new ptr snap visited x (h : list node) :
  h !! new = Some x → back x !! ptr = Some snap →
  iter_back orc n body new ptr snap false visited [] h = (h, Ok tt).
Proof.
  intros Hn Hb. destruct n; simpl; rewrite Hn, Hb; simpl;
    rewrite bool_decide_false by (intros H; by apply H);
    by rewrite bool_decide_true by done.
Qed.

(** An iteration over one node whose body leaves the set alone. *)
Lemma iter_back_single n body new ptr p x x' (h h' : list node) :
  h !! new = Some x → back x !! ptr = Some {[p]} →
  body p h = (h', Ok tt) →
  h' !! new = Some x' → back x' !! ptr = Some {[p]} →
  iter_back orc (S n) body new ptr {[p]} false [] (elements ({[p]} : gset nat)) h
  = (h', Ok tt).
Proof.
  intros Hn Hb Hbody Hn' Hb'. rewrite elements_singleton. simpl.
  rewrite Hn, Hb. simpl.
  rewrite bool_decide_false by (intros H; by apply H).
  rewrite bool_decide_true by done. simpl.
  unfold bind. rewrite Hbody.
  rewrite (filter_cons_False (λ y, y ≠ p)) by (intros H; by apply H).
  rewrite filter_nil. by eapply iter_back_done.
Qed.

Lemma bind_ret_unit {S} (m : M S unit) s : (m ;; ret tt) s = m s.
Proof. unfold bind, ret. by destruct (m s) as [s' [[]|e|]]. Qed.

Lemma retarget_one ptr new self nn t (h : list node) :
  h !! new = Some nn → fields nn !! ptr = Some (VRef t) →
  retarget [ptr] new self h = set_back t ptr new (Some self) h.
Proof.
  intros Hn Hf. cbn [retarget]. rewrite Hn, Hf. apply bind_ret_unit.
Qed.

Lemma cascade_one n wr ptr new now nn snap (h : list node) :
  h !! new = Some nn → back nn !! ptr = Some snap →
  cascade orc n wr [ptr] new now h
  = iter_back orc n (λ x, wr x now ptr (VRef new)) new ptr snap false []
      (elements snap) h.
Proof.
  intros Hn Hb. cbn [cascade].
  rewrite (bind_ret_unit (λ h0, match h0 !! new with
                                | Some nn0 => _ | None => _ end) h).
  by rewrite Hn, Hb.
Qed.

(** X10.  The split as the algorithm intends it.  In a list a program can
    reach, take a node whose log is full, whose only referencer has room in
    its log and whose new copy will point at a node of the store.  A write
    on it at a version not below the last one issued succeeds with fuel 2:
    the store gains exactly the copy, which has an empty log, the written
    value in its baseline and the referencer as its only referencer; the
    referencer's log gains a pointer to the copy, which it reads from that
    version on; in the reverse set of the node pointed at, the copy replaces
    the old node; and every other node is as it was. *)
Theorem X10_split_redirects_referencer (fuel : nat) (s : LinkedList)
    (self p t : nat) (nd np nt : node) (st : gset nat)
    (now : Z) (var : string) (val : value) :
  reachable s →
  heap s !! self = Some nd → is_Some (fields nd !! var) →
  length (mods nd) = (2 * n_p nd + 1)%nat →
  back nd !! "next_ptr"%string = Some {[p]} →
  heap s !! p = Some np → (length (mods np) ≤ 2 * n_p np)%nat →
  (if decide (var = "next_ptr"%string) then val = VRef t
   else latest_logged "next_ptr" (mods nd) = Some (VRef t)) →
  heap s !! t = Some nt → back nt !! "next_ptr"%string = Some st →
  timestamp s - 1 ≤ now →
  let r := write orc (S (S fuel)) self now var val (heap s) in
  let new := length (heap s) in
  r.2 = Ok tt ∧ length r.1 = S (length (heap s)) ∧
  (∀ j x, heap s !! j = Some x → j ≠ p → j ≠ t → r.1 !! j = Some x) ∧
  ∃ np' nt' nn,
    r.1 !! p = Some np' ∧ r.1 !! t = Some nt' ∧ r.1 !! new = Some nn ∧
    mods np' = mods np ++ [(now, "next_ptr"%string, VRef new)] ∧
    fields np' = fields np ∧
    (∀ v, now ≤ v → read np' "next_ptr" v = Ok (VRef new)) ∧
    back nt' !! "next_ptr"%string
      = Some ((if bool_decide (self ∈ st) then st ∖ {[self]} else st) ∪ {[new]}) ∧
    mods nn = [] ∧ back nn !! "next_ptr"%string = Some {[p]} ∧
    fields nn !! var = Some val ∧ fields nn !! "next_ptr"%string = Some (VRef t).
Proof.
  intros Hreach Hself Hdecl Hfull Hback Hp Hroom Htgt Ht Hst Hnow r new.
  subst new.
  destruct (reachable_node _ _ _ Hreach Hself) as ((_ & Hdt & Hpt) & Hkey & _ & _).
  destruct (reachable_node _ _ _ Hreach Hp) as (_ & _ & [_ Hdn] & Hverp).
  destruct (reachable_node _ _ _ Hreach Ht) as ((_ & _ & Hptt) & _ & _ & _).
  pose proof (lookup_lt_Some _ _ _ Hp) as Hltp.
  pose proof (lookup_lt_Some _ _ _ Ht) as Hltt.
  pose proof (lookup_lt_Some _ _ _ Hself) as Hlts.
  destruct (copy_back_is_Some _ Hkey) as [bk Hbk].
  remember (split_node nd var val bk) as new0 eqn:Hnew0.
  assert (fields new0 !! "next_ptr" = Some (VRef t)) as Hf.
  { rewrite Hnew0. simpl. case_decide as Hv.
    - subst. by rewrite lookup_insert_eq.
    - rewrite lookup_insert_ne by done. rewrite fold_mods_lookup. by rewrite Htgt. }
  assert (fields new0 !! var = Some val) as Hfv.
  { rewrite Hnew0. simpl. by rewrite lookup_insert_eq. }
  assert (back new0 !! "next_ptr" = Some {[p]}) as Hb0.
  { rewrite Hnew0. simpl.
    destruct (copy_back_lookup nd bk "next_ptr" Hbk) as [-> _];
      [rewrite Hpt; set_solver|done]. }
  assert (mods new0 = []) as Hm0 by (by rewrite Hnew0).
  assert (n_pt new0 = LL_pt) as Hpt0 by (by rewrite Hnew0).
  set (h1 := heap s ++ [new0]).
  set (bt := <["next_ptr"%string :=
               (if bool_decide (self ∈ st) then st ∖ {[self]} else st)
               ∪ {[length (heap s)]}]> (back nt)).
  set (h2 := <[t := with_back bt nt]> h1).
  assert (∃ xp, h2 !! p = Some xp ∧ mods xp = mods np ∧ fields xp = fields np ∧
                n_p xp = n_p np ∧
                (p = t → back xp = bt) ) as (xp & Hxp & Hxm & Hxf & Hxn & Hxb).
  { unfold h2, h1. destruct (decide (p = t)) as [->|Hne].
    - exists (with_back bt nt). assert (np = nt) as -> by congruence.
      split; [apply list_lookup_insert_eq; rewrite length_app; simpl; lia|done].
    - exists np. rewrite list_lookup_insert_ne by done.
      rewrite lookup_app_l by done. done. }
  set (h3 := <[p := with_mods (mods xp ++ [(now, "next_ptr"%string,
                                            VRef (length (heap s)))]) xp]> h2).
  assert (r = (h3, Ok tt)) as ->.
  { subst r. rewrite (write_full orc _ _ _ nd bk) by (try done; lia).
    rewrite <- Hnew0, Hpt. fold h1. unfold LL_pt. unfold bind at 1.
    rewrite (retarget_one _ _ _ new0 t) by (try done; apply lookup_new_node).
    rewrite (set_back_ok h1 t nt "next_ptr" st);
      [|unfold h1; by rewrite lookup_app_l|rewrite Hptt; set_solver|done].
    fold bt. fold h2.
    assert (h2 !! length (heap s) = Some new0) as Hn2.
    { unfold h2. rewrite list_lookup_insert_ne by lia. apply lookup_new_node. }
    rewrite (cascade_one _ _ _ _ _ new0 {[p]}) by done.
    apply (iter_back_single fuel _ _ _ p new0 new0 h2 h3); try done.
    - apply write_room; [done|by rewrite Hxf|by rewrite Hxm, Hxn].
    - unfold h3. by rewrite list_lookup_insert_ne by lia. }
  simpl.
  assert (length h3 = S (length (heap s))) as Hlen.
  { unfold h3, h2, h1. rewrite !length_insert, length_app. simpl. lia. }
  split; [done|]. split; [done|]. split.
  { intros j x Hj Hjp Hjt. pose proof (lookup_lt_Some _ _ _ Hj).
    unfold h3, h2, h1. rewrite !list_lookup_insert_ne by done.
    by rewrite lookup_app_l. }
  assert (h3 !! p = Some (with_mods (mods xp ++ [(now, "next_ptr"%string,
                                        VRef (length (heap s)))]) xp)) as Hp3.
  { unfold h3. apply list_lookup_insert_eq. unfold h2, h1.
    rewrite length_insert, length_app. simpl. lia. }
  assert (∃ nt', h3 !! t = Some nt' ∧ back nt' = bt) as (nt' & Ht3 & Hbt).
  { destruct (decide (p = t)) as [->|Hne].
    - eexists. split; [exact Hp3|]. simpl. by apply Hxb.
    - exists (with_back bt nt). split; [|done]. unfold h3, h2.
      rewrite list_lookup_insert_ne by done. apply list_lookup_insert_eq.
      unfold h1. rewrite length_app. simpl. lia. }
  eexists _, nt', new0. split; [exact Hp3|]. split; [exact Ht3|]. split.
  { unfold h3, h2. rewrite !list_lookup_insert_ne by lia. apply lookup_new_node. }
  split; [simpl; by rewrite Hxm|]. split; [simpl; by rewrite Hxf|]. split.
  { intros v Hv. unfold read. simpl. rewrite Hxf, Hxm.
    destruct Hdn as [base ->]. f_equal.
    rewrite (read_scan_all_visible _ now); [| |done].
    - apply read_scan_snoc. eapply Forall_impl; [exact Hverp|]. simpl. intros; lia.
    - apply Forall_app. split; [|by apply Forall_singleton].
      eapply Forall_impl; [exact Hverp|]. simpl. intros; lia. }
  split; [rewrite Hbt; unfold bt; by rewrite lookup_insert_eq|].
  done.
Qed.

End cascade_runs.

Example X10_split_redirects_referencer_witness :
  let s := main_state2 in
  let r := write stop_oracle 2 2 8 "value" (VInt 7) (heap s) in
  (reachable s ∧ heap s !! 2%nat = Some (node_at s 2) ∧
   length (mods (node_at s 2)) = (2 * n_p (node_at s 2) + 1)%nat ∧
   back (node_at s 2) !! "next_ptr"%string = Some {[1%nat]} ∧
   heap s !! 1%nat = Some (node_at s 1) ∧
   (length (mods (node_at s 1)) ≤ 2 * n_p (node_at s 1))%nat ∧
   latest_logged "next_ptr" (mods (node_at s 2)) = Some (VRef 3) ∧
   heap s !! 3%nat = Some (node_at s 3) ∧
   back (node_at s 3) !! "next_ptr"%string = Some {[2%nat]} ∧
   timestamp s - 1 ≤ 8) ∧
  r.2 = Ok tt ∧ length r.1 = S (length (heap s)) ∧
  ∃ np', r.1 !! 1%nat = Some np' ∧
         mods np' = mods (node_at s 1)
                    ++ [(8, "next_ptr"%string, VRef (length (heap s)))].
Proof.
  cbv zeta.
  assert (heap main_state2 !! 2%nat = Some (node_at main_state2 2)) as Hself
    by (vm_compute; reflexivity).
  assert (is_Some (fields (node_at main_state2 2) !! "value"%string)) as Hd
    by (exists VNone; vm_compute; reflexivity).
  assert (length (mods (node_at main_state2 2))
          = (2 * n_p (node_at main_state2 2) + 1)%nat) as Hfull
    by (vm_compute; reflexivity).
  assert (back (node_at main_state2 2) !! "next_ptr"%string = Some {[1%nat]}) as Hb
    by (vm_compute; reflexivity).
  assert (heap main_state2 !! 1%nat = Some (node_at main_state2 1)) as Hp
    by (vm_compute; reflexivity).
  assert (length (mods (node_at main_state2 1))
          ≤ 2 * n_p (node_at main_state2 1))%nat as Hroom by (vm_compute; lia).
  assert (latest_logged "next_ptr" (mods (node_at main_state2 2)) = Some (VRef 3))
    as Hl by (vm_compute; reflexivity).
  assert (heap main_state2 !! 3%nat = Some (node_at main_state2 3)) as Ht
    by (vm_compute; reflexivity).
  assert (back (node_at main_state2 3) !! "next_ptr"%string = Some {[2%nat]}) as Hst
    by (vm_compute; reflexivity).
  assert (timestamp main_state2 - 1 ≤ 8) as Hnow by (vm_compute; discriminate).
  destruct (X10_split_redirects_referencer stop_oracle 0 main_state2 2 1 3 _ _ _ _
              8 "value" (VInt 7) main_state2_reachable Hself Hd Hfull Hb Hp Hroom
              Hl Ht Hst Hnow)
    as (Hok & Hlen & _ & np' & nt' & nn & Hp' & _ & _ & Hm & _).
  split.
  { exact (conj main_state2_reachable (conj Hself (conj Hfull (conj Hb
      (conj Hp (conj Hroom (conj Hl (conj Ht (conj Hst Hnow))))))))). }
  split; [exact Hok|]. split; [exact Hlen|].
  exists np'. exact (conj Hp' Hm).
Defined.

(** ** The fallback to append *)

Section csim_facts.
Variable orc : oracle.
Variable fuel : nat.

Lemma csim_ret {A} (a : A) : csim (ret a).
Proof. by intros s1 s2 H. Qed.

Lemma csim_raise {A} e : csim (raise (A:=A) e).
Proof. by intros s1 s2 H. Qed.

Lemma csim_bind {A B} (m : M LinkedList A) (k : A → M LinkedList B) :
  csim m → (∀ a, csim (k a)) → csim (bind m k).
Proof.
  intros Hm Hk s1 s2 H. unfold bind.
  destruct (Hm _ _ H) as [Hc Hr].
  destruct (m s1) as [s1' r1], (m s2) as [s2' r2]. simpl in *. subst r2.
  destruct r1 as [a|e|]; [by apply Hk|done..].
Qed.

Lemma csim_engine {A} at_ (m : M (list node) A) : csim (engine at_ m).
Proof.
  intros s1 s2 (Hh & Hr & Ht). unfold engine. rewrite Hh.
  destruct (m (heap s2)) as [h' r]. by repeat split.
Qed.

Lemma csim_call_read recv var v : csim (call_read recv var v).
Proof. destruct recv; [apply csim_raise..|apply csim_engine]. Qed.

Lemma csim_call_write recv at_ var val : csim (call_write orc fuel recv at_ var val).
Proof. destruct recv; [apply csim_raise..|apply csim_engine]. Qed.

Lemma csim_call_set_back recv ptr new old : csim (call_set_back recv ptr new old).
Proof.
  destruct recv; [apply csim_raise..|].
  intros s1 s2 (Hh & Hr & Ht). unfold call_set_back. rewrite Hh.
  destruct (set_back n ptr new old (heap s2)) as [h' r]. by repeat split.
Qed.

Lemma csim_append_walk n at_ cursor : csim (append_walk n at_ cursor).
Proof.
  revert cursor. induction n as [|n IH]; intros cursor; simpl; [by intros s1 s2 H|].
  apply csim_bind; [apply csim_call_read|].
  intros [| |c]; [apply csim_ret|apply csim_raise|apply IH].
Qed.

Lemma csim_append val : csim (append orc fuel val).
Proof.
  apply csim_bind.
  { intros s1 s2 (Hh & Hr & Ht). unfold now. simpl. rewrite Ht. by repeat split. }
  intros at_. apply csim_bind.
  { intros s1 s2 (Hh & Hr & Ht). unfold get_root. simpl. by rewrite Hr. }
  intros rt. apply csim_bind; [apply csim_append_walk|intros cursor].
  apply csim_bind.
  { intros s1 s2 (Hh & Hr & Ht). unfold new_node. simpl. rewrite Hh. by repeat split. }
  intros new. apply csim_bind; [apply csim_call_write|intros _].
  apply csim_bind; [apply csim_call_set_back|intros _].
  apply csim_call_write.
Qed.

(** X11.  When the walk of [i] steps runs off the end of the list,
    [modify_ith_node_val(i, val)] and [insert_after_ith_node(i, val)] both
    do what one [now()] followed by [append(val)] does: same outcome, same
    store, same root, same clock, which is two above where it started. *)
Theorem X11_off_end_is_append (i : Z) (val : value) (s : LinkedList) :
  walk (Z.to_nat i) (heap s) (timestamp s) (root s) = Ok None →
  let a := append orc fuel val (now s).1 in
  let rm := modify_ith_node_val orc fuel i val s in
  let ri := insert_after_ith_node orc fuel i val s in
  (rm.2 = a.2 ∧ heap rm.1 = heap a.1 ∧ timestamp rm.1 = timestamp a.1 ∧
   root rm.1 = root a.1) ∧
  (ri.2 = a.2 ∧ heap ri.1 = heap a.1 ∧ timestamp ri.1 = timestamp a.1 ∧
   root ri.1 = root a.1) ∧
  timestamp a.1 = timestamp s + 2.
Proof.
  intros Hw a rm ri.
  assert (i >= 0) as Hi.
  { destruct (decide (i >= 0)) as [|Hneg]; [done|].
    replace (Z.to_nat i) with 0%nat in Hw by lia. done. }
  assert (∀ ev, same_core
            (MkList (heap s) (root s) (timestamp s + 1) (calls s ++ ev)) (now s).1)
    as Hcore by (by intros ev).
  split; [|split].
  - subst rm. unfold modify_ith_node_val. rewrite bool_decide_true by done.
    destruct (walk_prefix (Z.to_nat i)
      (λ at_ c, match c with
         | Some cursor => call_write orc fuel (VRef cursor) at_ "value" val
         | None => append orc fuel val
         end) s) as (ev & _ & ->).
    rewrite Hw. destruct (csim_append val _ _ (Hcore ev)) as [(? & ? & ?) ?].
    by repeat split.
  - subst ri. unfold insert_after_ith_node.
    destruct (walk_prefix (Z.to_nat i)
      (λ at_ c, match c with
         | Some cursor =>
             do next_ <- call_read (VRef cursor) "next_ptr" at_;
             do new <- new_node;
             call_write orc fuel (VRef new) at_ "value" val ;;
             call_write orc fuel (VRef cursor) at_ "next_ptr" (VRef new) ;;
             call_write orc fuel (VRef new) at_ "next_ptr" next_ ;;
             call_set_back next_ "next_ptr" new (Some cursor) ;;
             call_set_back (VRef new) "next_ptr" cursor None
         | None => append orc fuel val
         end) s) as (ev & _ & ->).
    rewrite Hw. destruct (csim_append val _ _ (Hcore ev)) as [(? & ? & ?) ?].
    by repeat split.
  - subst a. destruct (append orc fuel val (now s).1) as [s' r] eqn:E.
    apply append_one_tick in E as [_ T _ _]. simpl in *. lia.
Qed.

End csim_facts.

Example X11_off_end_is_append_witness :
  let s := LinkedList_init in
  let a := append stop_oracle 8 (VInt 5) (now s).1 in
  let rm := modify_ith_node_val stop_oracle 8 1 (VInt 5) s in
  walk (Z.to_nat 1) (heap s) (timestamp s) (root s) = Ok None ∧
  rm.2 = a.2 ∧ heap rm.1 = heap a.1 ∧ timestamp rm.1 = timestamp a.1 ∧
  rm.2 = Ok tt ∧ str_current 8 rm.1 = Ok "None->5->END"%string.
Proof.
  assert (walk (Z.to_nat 1) (heap LinkedList_init) (timestamp LinkedList_init)
            (root LinkedList_init) = Ok None) as Hw by (vm_compute; reflexivity).
  destruct (X11_off_end_is_append stop_oracle 8 1 (VInt 5) LinkedList_init Hw)
    as ((H1 & H2 & H3 & _) & _ & _).
  split; [exact Hw|]. split; [exact H1|]. split; [exact H2|]. split; [exact H3|].
  split; vm_compute; reflexivity.
Defined.

(** ** Pointers stay inside the store *)

Section closed_facts.

Lemma closed_mono n m x : (n ≤ m)%nat → closed n x → closed m x.
Proof. destruct x; simpl; [done..|lia]. Qed.

Lemma node_closed_mono n m nd :
  (n ≤ m)%nat → node_closed n nd → node_closed m nd.
Proof.
  intros Hle (Hs & Hd & Hk & Hf & Hm & Hb).
  split; [done|]. split; [done|]. split; [done|]. split; [|split].
  - intros x Hx. eapply closed_mono; eauto.
  - eapply Forall_impl; [exact Hm|]. simpl. intros e He Hfe.
    eapply closed_mono; eauto.
  - intros ptr bs j H1 H2. specialize (Hb _ _ _ H1 H2). lia.
Qed.

Lemma heap_closed_insert h i nd :
  heap_closed h → node_closed (length h) nd → heap_closed (<[i := nd]> h).
Proof. unfold heap_closed. rewrite length_insert. apply Forall_insert. Qed.

Lemma heap_closed_snoc h nd :
  heap_closed h → node_closed (S (length h)) nd → heap_closed (h ++ [nd]).
Proof.
  unfold heap_closed. intros Hh Hnd. rewrite length_app. simpl.
  rewrite Nat.add_1_r. apply Forall_app. split; [|by apply Forall_singleton].
  eapply Forall_impl; [exact Hh|]. intros x. apply node_closed_mono. lia.
Qed.

Lemma heap_closed_lookup h i :
  heap_closed h → (i < length h)%nat →
  ∃ nd, h !! i = Some nd ∧ node_closed (length h) nd.
Proof.
  intros Hh Hi. destruct (lookup_lt_is_Some_2 h i Hi) as [nd E].
  exists nd. split; [done|]. by eapply Forall_lookup_1.
Qed.

Lemma read_scan_closed n v res l :
  closed n res →
  Forall (λ e, e_field e = "next_ptr"%string → closed n (e_value e)) l →
  closed n (read_scan "next_ptr" v res l).
Proof.
  revert res. induction l as [|[[mv mf] mx] l IH]; intros res Hres Hl; [done|].
  apply Forall_cons in Hl as [He Hl]. simpl.
  case_bool_decide; [done|]. apply IH; [|done].
  case_bool_decide; [|done]. by apply He.
Qed.

Lemma read_ptr_closed n nd v :
  node_closed n nd → ∃ x, read nd "next_ptr" v = Ok x ∧ closed n x.
Proof.
  intros (_ & [_ [base Hbase]] & _ & Hf & Hm & _).
  unfold read. rewrite Hbase. eexists. split; [done|].
  apply read_scan_closed; [by apply Hf|done].
Qed.

Lemma read_value_Ok n nd v : node_closed n nd → ∃ x, read nd "value" v = Ok x.
Proof.
  intros (_ & [[base Hbase] _] & _). unfold read. rewrite Hbase. by eexists.
Qed.

Lemma new_node_closed n p : node_closed n (PartialPersistentNode LL_dt LL_pt p).
Proof.
  split; [done|]. split; [split; by eexists|]. split; [by eexists|].
  split; [|split].
  - intros x Hx. vm_compute in Hx. by injection Hx as <-.
  - constructor.
  - intros ptr bs j Hbs Hj. simpl in Hbs.
    destruct (decide (ptr = "next_ptr"%string)) as [->|Hne].
    + rewrite lookup_insert_eq in Hbs. injection Hbs as <-. set_solver.
    + rewrite lookup_insert_ne in Hbs by done. done.
Qed.

Lemma hsafe_bind {A B} F (m : M (list node) A) (k : A → M (list node) B) :
  mono F → hsafe F m → (∀ a, hsafe F (k a)) → hsafe F (bind m k).
Proof.
  intros HF Hm Hk h h' r Hh HFh. unfold bind.
  destruct (m h) as [h1 [a|e|]] eqn:E;
    destruct (Hm _ _ _ Hh HFh E) as (H1 & L1 & B1).
  - intros H. destruct (Hk a _ _ _ H1 (HF _ _ L1 HFh) H) as (H2 & L2 & B2).
    split; [done|]. split; [lia|done].
  - by intros [= <- <-].
  - by intros [= <- <-].
Qed.

Lemma hsafe_weaken {A} (F F' : nat → Prop) (m : M (list node) A) :
  (∀ n, F n → F' n) → hsafe F' m → hsafe F m.
Proof. intros HF Hm h h' r Hh HFh. apply Hm; [done|by apply HF]. Qed.

Lemma hsafe_ret {A} F (a : A) : hsafe F (ret a).
Proof. by intros h h' r Hh _ [= <- <-]. Qed.

Lemma set_back_hsafe self new old :
  hsafe (λ n, (self < n)%nat ∧ (new < n)%nat) (set_back self "next_ptr" new old).
Proof.
  intros h h' r Hh [Hs Hn]. unfold set_back.
  destruct (heap_closed_lookup _ _ Hh Hs) as (nd & E & Hnd). rewrite E.
  destruct Hnd as ([Hdt Hpt] & Hd & [s Hk] & Hf & Hm & Hb).
  rewrite bool_decide_true by (rewrite Hpt; apply list_elem_of_singleton; done).
  rewrite Hk. intros [= <- <-].
  split; [|split; [by rewrite length_insert|done]].
  apply heap_closed_insert; [done|].
  split; [done|]. split; [done|]. simpl.
  split; [rewrite lookup_insert_eq; by eexists|]. split; [done|]. split; [done|].
  intros ptr bs j Hl Hj.
  destruct (decide (ptr = "next_ptr"%string)) as [->|Hne].
  - rewrite lookup_insert_eq in Hl. injection Hl as <-.
    apply elem_of_union in Hj as [Hj|Hj].
    + apply (Hb _ _ _ Hk). destruct old as [o|]; [|done].
      case_bool_decide; [|done]. by apply elem_of_difference in Hj as [Hj _].
    + apply elem_of_singleton in Hj. by subst.
  - rewrite lookup_insert_ne in Hl by done. by eapply Hb.
Qed.

Lemma retarget_hsafe ptrs new self :
  Forall (λ p, p = "next_ptr"%string) ptrs →
  hsafe (λ n, (new < n)%nat ∧ (self < n)%nat) (retarget ptrs new self).
Proof.
  induction 1 as [|ptr rest -> _ IH]; [apply hsafe_ret|].
  intros h h' r Hh [Hn Hs]. cbn [retarget].
  destruct (heap_closed_lookup _ _ Hh Hn) as (nn & E & Hnn). rewrite E.
  destruct Hnn as (_ & [_ [x Hx]] & _ & Hf & _). rewrite Hx.
  specialize (Hf _ Hx). destruct x as [|z|t]; [by intros [= <- <-]|done|].
  simpl in Hf.
  apply (hsafe_bind (λ n, (t < n)%nat ∧ (new < n)%nat ∧ (self < n)%nat));
    [intros n m Hle; lia| | |done|done].
  - eapply hsafe_weaken; [|apply set_back_hsafe]. simpl. intros; lia.
  - intros _. eapply hsafe_weaken; [|apply IH]. simpl. intros; lia.
Qed.

Lemma choose_elem orc dirty new ptr visited cands x :
  choose orc dirty new ptr visited cands = Some x → x ∈ cands.
Proof.
  unfold choose. destruct cands as [|a [|b l]]; [done| |].
  - destruct dirty; [destruct (orc _ _ _)|]; intros [= <-]; set_solver.
  - set (cs := a :: b :: l). destruct (orc _ _ _) as [k|].
    + intros H. assert (x = nth (k `mod` length cs)%nat cs a) as -> by congruence.
      apply list_elem_of_In, nth_In. apply Nat.mod_upper_bound. done.
    + destruct dirty; intros [= <-]. set_solver.
Qed.

Lemma iter_back_hsafe orc k body new ptr snap dirty visited pending :
  (∀ x, hsafe (λ n, (x < n)%nat ∧ (new < n)%nat) (body x)) →
  hsafe (λ n, (new < n)%nat ∧ Forall (λ x, (x < n)%nat) pending)
    (iter_back orc k body new ptr snap dirty visited pending).
Proof.
  intros Hbody. revert dirty visited pending.
  induction k as [|k IH]; intros dirty visited pending h h' r Hh [Hn Hp]; simpl;
    destruct (heap_closed_lookup _ _ Hh Hn) as (nn & E & Hnn); rewrite E;
    (case_bool_decide; [by intros [= <- <-]|]);
    (destruct (choose _ _ _ _ _ _) as [x|] eqn:C; [|by intros [= <- <-]]).
  - by intros [= <- <-].
  - assert (x < length h)%nat as Hx.
    { apply choose_elem in C. destruct Hnn as (_ & _ & _ & _ & _ & Hb).
      destruct (_ || _).
      - apply elem_of_elements in C.
        destruct (back nn !! ptr) as [bs|] eqn:Hbs; simpl in C; [|set_solver].
        by eapply Hb.
      - rewrite Forall_forall in Hp. by apply Hp. }
    unfold bind. destruct (body x h) as [h1 [[]|e|]] eqn:Eb;
      destruct (Hbody x _ _ _ Hh (conj Hx Hn) Eb) as (H1 & L1 & B1);
      [|by intros [= <- <-]..].
    intros Hrun. apply IH in Hrun as (H2 & L2 & B2); [|done|].
    + split; [done|]. split; [lia|done].
    + split; [lia|]. apply Forall_forall. intros y Hy.
      apply list_elem_of_filter in Hy as [_ Hy].
      rewrite Forall_forall in Hp. specialize (Hp y Hy). lia.
Qed.

Lemma cascade_hsafe orc k wr ptrs new now :
  (∀ x ptr, hsafe (λ n, (x < n)%nat ∧ (new < n)%nat) (wr x now ptr (VRef new)) ∨
            ptr ∉ ptrs) →
  hsafe (λ n, (new < n)%nat) (cascade orc k wr ptrs new now).
Proof.
  induction ptrs as [|ptr rest IH]; intros Hwr; [apply hsafe_ret|].
  cbn [cascade]. apply hsafe_bind; [intros n m; lia| |].
  - intros h h' r Hh Hn.
    destruct (heap_closed_lookup _ _ Hh Hn) as (nn & E & Hnn). rewrite E.
    apply iter_back_hsafe; [|done|].
    + intros x. destruct (Hwr x ptr) as [Hx|Hx]; [done|]. set_solver.
    + split; [done|]. apply Forall_forall. intros y Hy.
      apply elem_of_elements in Hy.
      destruct Hnn as (_ & _ & _ & _ & _ & Hb).
      destruct (back nn !! ptr) as [bs|] eqn:Hbs; simpl in Hy; [|set_solver].
      by eapply Hb.
  - intros _. apply IH. intros x p. destruct (Hwr x p) as [Hx|Hx]; [by left|].
    right. set_solver.
Qed.

Lemma split_node_closed n nd var val bk :
  node_closed n nd → (var = "next_ptr"%string → closed n val) →
  copy_back nd = Some bk →
  node_closed n (split_node nd var val bk).
Proof.
  intros ([Hdt Hpt] & Hd & [s Hk] & Hf & Hm & Hb) Hval Hbk.
  unfold copy_back in Hbk. rewrite Hpt in Hbk. simpl in Hbk.
  rewrite Hk in Hbk. simpl in Hbk. injection Hbk as <-.
  assert (fields (split_node nd var val (<["next_ptr"%string := s]> ∅))
          = <[var := val]>
              (fold_mods (mods nd)
                 (fields (PartialPersistentNode LL_dt LL_pt (n_p nd))))) as Hfields.
  { unfold split_node. simpl. by rewrite Hdt, Hpt. }
  unfold node_closed, declared. rewrite Hfields.
  cbn [split_node back mods n_dt n_pt]. split; [done|].
  assert (∀ tag, is_Some (fields (PartialPersistentNode LL_dt LL_pt (n_p nd)) !! tag) →
            is_Some (<[var := val]>
              (fold_mods (mods nd)
                 (fields (PartialPersistentNode LL_dt LL_pt (n_p nd)))) !! tag)) as Hkey.
  { intros tag Ht. destruct (decide (var = tag)) as [->|].
    - rewrite lookup_insert_eq. by eexists.
    - rewrite lookup_insert_ne by done. rewrite fold_mods_lookup.
      by destruct (latest_logged tag (mods nd)). }
  split; [split; apply Hkey; by eexists|].
  split; [by eexists|]. split; [|split; [constructor|]].
  - intros x. destruct (decide (var = "next_ptr"%string)) as [->|Hne].
    + rewrite lookup_insert_eq. intros [= <-]. by apply Hval.
    + rewrite lookup_insert_ne by done. rewrite fold_mods_lookup.
      unfold latest_logged.
      destruct (last (filter _ (mods nd))) as [e|] eqn:El; simpl.
      * intros [= <-]. apply last_Some_elem_of in El.
        apply list_elem_of_filter in El as [He Hin].
        rewrite Forall_forall in Hm. by apply Hm.
      * intros Hx. vm_compute in Hx. by injection Hx as <-.
  - intros ptr bs j Hl Hj.
    destruct (decide (ptr = "next_ptr"%string)) as [->|Hne].
    + rewrite lookup_insert_eq in Hl. injection Hl as <-. by eapply Hb.
    + rewrite lookup_insert_ne in Hl by done. done.
Qed.

Lemma write_hsafe orc fuel self now var val :
  list_tag var →
  hsafe (λ n, (self < n)%nat ∧ (var = "next_ptr"%string → closed n val))
    (write orc fuel self now var val).
Proof.
  revert self var val. induction fuel as [|fuel IH]; intros self var val Htag;
    [by intros h h' r ? _ [= <- <-]|].
  intros h h' r Hh [Hs Hval]. cbn [write].
  destruct (heap_closed_lookup _ _ Hh Hs) as (nd & E & Hnd). rewrite E.
  pose proof Hnd as ([Hdt Hpt] & [Hdv Hdn] & [s Hk] & Hf & Hm & Hb).
  rewrite bool_decide_true by (by destruct Htag as [-> | ->]).
  case_bool_decide.
  - intros [= <- <-]. split; [|split; [by rewrite length_insert|done]].
    apply heap_closed_insert; [done|].
    split; [done|]. split; [done|]. split; [by eexists|]. split; [done|].
    split; [|done]. simpl. apply Forall_app. split; [done|].
    by apply Forall_singleton.
  - destruct (copy_back nd) as [bk|] eqn:Hbk.
    2:{ exfalso. assert (is_Some (copy_back nd)) as [? ?]; [|congruence].
        apply copy_back_is_Some. intros ptr Hin. rewrite Hpt in Hin.
        apply list_elem_of_singleton in Hin as ->. by eexists. }
    intros Hrun.
    assert (heap_closed (h ++ [split_node nd var val bk])) as Hh1.
    { apply heap_closed_snoc; [done|]. apply split_node_closed; [|..|done].
      - eapply node_closed_mono; [|exact Hnd]. lia.
      - intros Hv. eapply closed_mono; [|by apply Hval]. lia. }
    assert (hsafe (λ n, (length h < n)%nat ∧ (self < n)%nat)
              (retarget (n_pt nd) (length h) self ;;
               cascade orc fuel (write orc fuel) (n_pt nd) (length h) now)) as Hp.
    { apply hsafe_bind; [intros n m; lia| |].
      - apply retarget_hsafe. rewrite Hpt. by repeat constructor.
      - intros _. eapply hsafe_weaken; [|apply cascade_hsafe].
        + simpl. intros n [? _]. done.
        + intros x ptr. rewrite Hpt.
          destruct (decide (ptr = "next_ptr"%string)) as [->|Hne].
          * left. eapply hsafe_weaken; [|apply IH; by right].
            simpl. intros n [? ?]. done.
          * right. intros Hin. by apply list_elem_of_singleton in Hin. }
    apply Hp in Hrun as (H2 & L2 & B2); [|done|].
    + split; [done|]. split; [|done].
      rewrite length_app in L2. simpl in L2. lia.
    + rewrite length_app. simpl. lia.
Qed.

End closed_facts.

Section list_closed_facts.
Variable orc : oracle.
Variable fuel : nat.

Lemma lsafe_bind {A B} F (m : M LinkedList A) Q (k : A → M LinkedList B) R :
  mono F → lsafe F m Q → (∀ a, lsafe (λ n, F n ∧ Q a n) (k a) R) →
  lsafe F (bind m k) R.
Proof.
  intros HF Hm Hk s s' r Hs HFs. unfold bind.
  destruct (m s) as [s1 [a|e|]] eqn:E;
    destruct (Hm _ _ _ Hs HFs E) as (H1 & L1 & B1).
  - intros H.
    destruct (Hk a _ _ _ H1 (conj (HF _ _ L1 HFs) B1) H) as (H2 & L2 & B2).
    split; [done|]. split; [lia|done].
  - by intros [= <- <-].
  - by intros [= <- <-].
Qed.

Lemma lsafe_weaken {A} (F F' : nat → Prop) (m : M LinkedList A) (Q Q' : A → nat → Prop) :
  (∀ n, F n → F' n) → (∀ a n, Q' a n → Q a n) → lsafe F' m Q' → lsafe F m Q.
Proof.
  intros HF HQ Hm s s' r Hs HFs E.
  destruct (Hm _ _ _ Hs (HF _ HFs) E) as (H1 & L1 & B1).
  split; [done|]. split; [done|]. destruct r; [by apply HQ|done..].
Qed.

Lemma lsafe_ret {A} F (a : A) (Q : A → nat → Prop) :
  (∀ n, F n → Q a n) → lsafe F (ret a) Q.
Proof. intros HQ s s' r Hs HF [= <- <-]. split; [done|]. split; [lia|by apply HQ]. Qed.

Lemma lsafe_raise {A} F e (Q : A → nat → Prop) :
  benign (Raise e : outcome A) → lsafe F (raise e) Q.
Proof. intros He s s' r Hs HF [= <- <-]. split; [done|]. split; [lia|done]. Qed.

Lemma now_lsafe : lsafe (λ _, True) now (λ _ _, True).
Proof. by intros s s' r Hs HF [= <- <-]. Qed.

Lemma get_root_lsafe : lsafe (λ _, True) get_root (λ rt n, (rt < n)%nat).
Proof. intros s s' r Hs HF [= <- <-]. split; [done|]. split; [lia|]. apply Hs. Qed.

Lemma new_node_lsafe : lsafe (λ _, True) new_node (λ new n, (new < n)%nat).
Proof.
  intros s s' r [Hh Hr] HF [= <- <-]. simpl. rewrite length_app. simpl.
  split; [|lia]. split; [|simpl; rewrite length_app; simpl; lia].
  simpl. apply heap_closed_snoc; [done|]. apply new_node_closed.
Qed.

Lemma engine_lsafe {A} F at_ (m : M (list node) A) :
  hsafe F m → lsafe F (engine at_ m) (λ _ _, True).
Proof.
  intros Hm s s' r [Hh Hr] HF. unfold engine.
  destruct (m (heap s)) as [h' r'] eqn:E. intros [= <- <-]. simpl.
  destruct (Hm _ _ _ Hh HF E) as (H1 & L1 & B1).
  split; [split; [done|simpl; lia]|]. split; [done|]. by destruct r'.
Qed.

Lemma call_read_lsafe c at_ :
  lsafe (λ n, (c < n)%nat) (call_read (VRef c) "next_ptr" at_) (λ x n, closed n x).
Proof.
  intros s s' r [Hh Hr] Hc. unfold call_read, engine.
  destruct (heap_closed_lookup _ _ Hh Hc) as (nd & E & Hnd). rewrite E.
  destruct (read_ptr_closed _ _ at_ Hnd) as (x & -> & Hx).
  intros [= <- <-]. simpl. done.
Qed.

Lemma call_write_lsafe recv at_ var val :
  list_tag var →
  lsafe (λ n, closed n recv ∧ (var = "next_ptr"%string → closed n val))
    (call_write orc fuel recv at_ var val) (λ _ _, True).
Proof.
  intros Htag. destruct recv as [|z|c]; [by apply lsafe_raise..|].
  unfold call_write. by apply engine_lsafe, write_hsafe.
Qed.

Lemma call_set_back_lsafe recv new old :
  lsafe (λ n, closed n recv ∧ (new < n)%nat)
    (call_set_back recv "next_ptr" new old) (λ _ _, True).
Proof.
  destruct recv as [|z|c]; [by apply lsafe_raise..|].
  intros s s' r [Hh Hr] HF. unfold call_set_back.
  destruct (set_back c "next_ptr" new old (heap s)) as [h' r'] eqn:E.
  intros [= <- <-]. simpl.
  destruct (set_back_hsafe _ _ _ _ _ _ Hh HF E) as (H1 & L1 & B1).
  split; [split; [done|simpl; lia]|]. split; [done|]. by destruct r'.
Qed.

Lemma hop_lsafe k at_ c :
  lsafe (λ n, (c < n)%nat) (hop k at_ c)
    (λ oc n, match oc with Some c' => (c' < n)%nat | None => True end).
Proof.
  revert c. induction k as [|k IH]; intros c; simpl; [by apply lsafe_ret|].
  eapply lsafe_bind; [intros n m; lia|apply call_read_lsafe|].
  intros [|z|c']; simpl.
  - by apply lsafe_ret.
  - by intros s s' r _ [_ []].
  - eapply lsafe_weaken; [| |apply IH]; simpl; [by intros n [_ ?]|done].
Qed.

Lemma append_walk_lsafe k at_ c :
  lsafe (λ n, (c < n)%nat) (append_walk k at_ c) (λ c' n, (c' < n)%nat).
Proof.
  revert c. induction k as [|k IH]; intros c; simpl;
    [by intros s s' r Hs _ [= <- <-]|].
  eapply lsafe_bind; [intros n m; lia|apply call_read_lsafe|].
  intros [|z|c']; simpl.
  - apply lsafe_ret. by intros n [? _].
  - by intros s s' r _ [_ []].
  - eapply lsafe_weaken; [| |apply IH]; simpl; [by intros n [_ ?]|done].
Qed.

Lemma lsafe_pre {A} (F F' : nat → Prop) (m : M LinkedList A) Q :
  (∀ n, F n → F' n) → lsafe F' m Q → lsafe F m Q.
Proof. intros HF. by apply lsafe_weaken. Qed.

Ltac size_tac :=
  simpl; intros;
  repeat match goal with H : _ ∧ _ |- _ => destruct H end;
  repeat split; try done; try lia; try (by left); try (by right);
  try (intros; simpl; lia);
  try (eapply closed_mono; [|eassumption]; lia).

Ltac lstep lem :=
  eapply lsafe_bind;
    [unfold mono; size_tac | eapply lsafe_pre; [|eapply lem]; size_tac | ].

Ltac llast lem := eapply lsafe_pre; [|eapply lem]; size_tac.

Lemma append_lsafe val : lsafe (λ _, True) (append orc fuel val) (λ _ _, True).
Proof.
  unfold append.
  lstep now_lsafe. intros at_.
  lstep get_root_lsafe. intros rt.
  lstep append_walk_lsafe. intros cursor.
  lstep new_node_lsafe. intros new.
  lstep call_write_lsafe. intros ?.
  lstep call_set_back_lsafe. intros ?.
  llast call_write_lsafe.
Qed.

Lemma set_root_value_lsafe val :
  lsafe (λ _, True) (set_root_value orc fuel val) (λ _ _, True).
Proof.
  unfold set_root_value.
  lstep now_lsafe. intros at_.
  lstep get_root_lsafe. intros rt.
  llast call_write_lsafe.
Qed.

Lemma modify_lsafe i val :
  lsafe (λ _, True)
    (do at_ <- now; do r <- get_root; do c <- hop (Z.to_nat i) at_ r;
     match c with
     | None => append orc fuel val
     | Some cursor => call_write orc fuel (VRef cursor) at_ "value" val
     end) (λ _ _, True).
Proof.
  lstep now_lsafe. intros at_.
  lstep get_root_lsafe. intros rt.
  lstep hop_lsafe. intros [cursor|].
  - llast call_write_lsafe.
  - llast append_lsafe.
Qed.

Lemma insert_lsafe i val :
  lsafe (λ _, True) (insert_after_ith_node orc fuel i val) (λ _ _, True).
Proof.
  unfold insert_after_ith_node.
  lstep now_lsafe. intros at_.
  lstep get_root_lsafe. intros rt.
  lstep hop_lsafe. intros [cursor|]; [|llast append_lsafe].
  lstep call_read_lsafe. intros next_.
  lstep new_node_lsafe. intros new.
  lstep call_write_lsafe. intros ?.
  lstep call_write_lsafe. intros ?.
  lstep call_write_lsafe. intros ?.
  lstep call_set_back_lsafe. intros ?.
  llast call_set_back_lsafe.
Qed.

Lemma delete_lsafe i :
  lsafe (λ _, True)
    (do at_ <- now; do r <- get_root; do c <- hop (Z.to_nat (i - 1)) at_ r;
     match c with
     | None => ret tt
     | Some cursor =>
         do next_ <- call_read (VRef cursor) "next_ptr" at_;
         match next_ with
         | VRef nx =>
             do next_next <- call_read (VRef nx) "next_ptr" at_;
             call_write orc fuel (VRef cursor) at_ "next_ptr" next_next ;;
             call_set_back next_next "next_ptr" cursor (Some nx)
         | _ => raise AttributeError
         end
     end) (λ _ _, True).
Proof.
  lstep now_lsafe. intros at_.
  lstep get_root_lsafe. intros rt.
  lstep hop_lsafe. intros [cursor|]; [|by apply lsafe_ret].
  lstep call_read_lsafe. intros [|z|nx]; [by apply lsafe_raise..|].
  lstep call_read_lsafe. intros next_next.
  lstep call_write_lsafe. intros ?.
  llast call_set_back_lsafe.
Qed.

Lemma lsafe_run {A} (m : M LinkedList A) s :
  lsafe (λ _, True) m (λ _ _, True) → list_closed s →
  list_closed (m s).1 ∧ benign (m s).2.
Proof.
  intros Hm Hs. destruct (m s) as [s' r] eqn:E.
  destruct (Hm _ _ _ Hs I E) as (H1 & _ & B1). split; [done|]. by destruct r.
Qed.

Lemma run_op_closed o s :
  list_closed s →
  list_closed (run_op orc fuel o s).1 ∧
  (benign (run_op orc fuel o s).2 ∨
   ((run_op orc fuel o s).2 = Raise AssertionError ∧ bad_index o)).
Proof.
  intros Hs.
  assert (∀ m : M LinkedList unit, lsafe (λ _, True) m (λ _ _, True) →
            list_closed (m s).1 ∧
            (benign (m s).2 ∨ ((m s).2 = Raise AssertionError ∧ bad_index o)))
    as Hok.
  { intros m Hm. destruct (lsafe_run m s Hm Hs). split; [done|by left]. }
  destruct o as [val|val|i val|i val|i|]; simpl.
  - apply Hok, set_root_value_lsafe.
  - apply Hok, append_lsafe.
  - unfold modify_ith_node_val. case_bool_decide; [apply Hok, modify_lsafe|].
    simpl. split; [done|]. right. split; [done|lia].
  - apply Hok, insert_lsafe.
  - unfold delete_ith_node. case_bool_decide; [apply Hok, delete_lsafe|].
    simpl. split; [done|]. right. split; [done|lia].
  - split; [apply Hs|by left].
Qed.

End list_closed_facts.

Lemma reachable_closed s : reachable s → list_closed s.
Proof.
  induction 1 as [|s orc fuel o _ IH].
  - split; [|simpl; lia]. apply Forall_singleton, new_node_closed.
  - by apply run_op_closed.
Qed.

Lemma str_loop_safe n h c v res :
  heap_closed h → closed (length h) c →
  str_loop n h c v res = OutOfFuel ∨ ∃ t, str_loop n h c v res = Ok t.
Proof.
  intros Hh. revert c res.
  induction n as [|n IH]; intros c res Hc;
    (destruct c as [|z|c]; [right; by eexists|done|]); simpl; [by left|].
  simpl in Hc. destruct (heap_closed_lookup _ _ Hh Hc) as (nd & E & Hnd).
  rewrite E. destruct (read_value_Ok _ _ v Hnd) as [x ->].
  destruct (read_ptr_closed _ _ v Hnd) as (nxt & -> & Hnxt). by apply IH.
Qed.

(** X12.  In every state a list can reach, every pointer leads to a node of
    the store: at every version each node's successor reads as [None] or as
    such a node, and every member of every reverse set is such a node.  So
    printing the list at any version raises nothing: with whatever fuel, it
    returns a text or is still running. *)
Theorem X12_pointers_closed (s : LinkedList) :
  reachable s →
  (root s < length (heap s))%nat ∧
  (∀ i nd v, heap s !! i = Some nd →
     ∃ x, read nd "next_ptr" v = Ok x ∧ closed (length (heap s)) x) ∧
  (∀ i nd ptr bs j, heap s !! i = Some nd → back nd !! ptr = Some bs →
     j ∈ bs → (j < length (heap s))%nat) ∧
  ∀ n v, str_ n s v = OutOfFuel ∨ ∃ t, str_ n s v = Ok t.
Proof.
  intros Hr. destruct (reachable_closed _ Hr) as [Hh Hroot].
  split; [done|]. split; [|split].
  - intros i nd v Hi. apply read_ptr_closed. by eapply Forall_lookup_1.
  - intros i nd ptr bs j Hi Hbs Hj.
    destruct (Forall_lookup_1 _ _ _ _ Hh Hi) as (_ & _ & _ & _ & _ & Hb).
    by eapply Hb.
  - intros n v. by apply str_loop_safe.
Qed.

Example X12_pointers_closed_witness :
  reachable main_state2 ∧
  (root main_state2 < length (heap main_state2))%nat ∧
  (∃ x, read (node_at main_state2 1) "next_ptr" 8 = Ok x ∧
        closed (length (heap main_state2)) x) ∧
  (str_ 3 main_state2 8 = OutOfFuel ∨ ∃ t, str_ 3 main_state2 8 = Ok t) ∧
  str_ 3 main_state2 8 = OutOfFuel ∧
  str_ 8 main_state2 8 = Ok "1->2->20->4->5->END"%string.
Proof.
  destruct (X12_pointers_closed main_state2 main_state2_reachable)
    as (Hroot & Hread & _ & Hstr).
  split; [exact main_state2_reachable|]. split; [exact Hroot|].
  split; [apply (Hread 1%nat); vm_compute; reflexivity|].
  split; [exact (Hstr 3%nat 8)|].
  split; vm_compute; reflexivity.
Defined.

(** X13.  On a list a program can reach, whatever the operation, the oracle
    and the fuel: no [assert] of the node engine fails and no dictionary
    lookup misses, and no reference leaves the store.  An operation raises
    [AssertionError] exactly when its own check of the index fails; the
    only other exceptions are [AttributeError] and [RuntimeError]. *)
Theorem X13_engine_checks_never_fail (orc : oracle) (fuel : nat) (o : op)
    (s : LinkedList) :
  reachable s →
  let r := (run_op orc fuel o s).2 in
  r ≠ Raise BadRef ∧ r ≠ Raise KeyError ∧
  (r = Raise AssertionError ↔ bad_index o).
Proof.
  intros Hr r. destruct (run_op_closed orc fuel o s (reachable_closed _ Hr))
    as [_ Hb]. fold r in Hb.
  split; [|split; [|split]].
  - intros Hx. destruct Hb as [Hb|[Hb _]]; [by rewrite Hx in Hb|congruence].
  - intros Hx. destruct Hb as [Hb|[Hb _]]; [by rewrite Hx in Hb|congruence].
  - intros Hx. destruct Hb as [Hb|[_ Hb]]; [by rewrite Hx in Hb|done].
  - intros Hbad. unfold r. destruct o as [val|val|i val|i val|i|]; try done;
      simpl in *.
    + unfold modify_ith_node_val. by rewrite bool_decide_false by lia.
    + unfold delete_ith_node. by rewrite bool_decide_false by lia.
Qed.

Example X13_engine_checks_never_fail_witness :
  let r := (run_op stop_oracle 8 (OpInsert 4 (VInt 6)) main_state2).2 in
  reachable main_state2 ∧ r = Raise AttributeError ∧
  r ≠ Raise BadRef ∧ r ≠ Raise KeyError ∧
  (r = Raise AssertionError ↔ bad_index (OpInsert 4 (VInt 6))).
Proof.
  cbv zeta.
  split; [exact main_state2_reachable|]. split; [vm_compute; reflexivity|].
  exact (X13_engine_checks_never_fail stop_oracle 8 (OpInsert 4 (VInt 6)) main_state2
           main_state2_reachable).
Defined.

(** ** Overflow, with referencers *)

Section overflow.
Variable orc : oracle.

(** One step of an iteration whose set is as it was when the loop began. *)
Lemma iter_back_clean n body new ptr snap nn visited pending (h : list node) :
  h !! new = Some nn → back nn !! ptr = Some snap →
  iter_back orc n body new ptr snap false visited pending h
  = match choose orc false new ptr visited pending with
    | None => (h, Ok tt)
    | Some x =>
        match n with
        | O => (h, OutOfFuel)
        | S n' =>
            (body x ;;
             iter_back orc n' body new ptr snap false (visited ++ [x])
               (filter (λ y, y ≠ x) pending)) h
        end
    end.
Proof.
  intros Hn Hb. destruct n; simpl; rewrite Hn, Hb; simpl;
    rewrite bool_decide_false by (intros H; by apply H);
    by rewrite bool_decide_true by done.
Qed.

Lemma choose_clean new ptr visited cands :
  cands ≠ [] → ∃ x, choose orc false new ptr visited cands = Some x ∧ x ∈ cands.
Proof.
  intros Hne. destruct (choose orc false new ptr visited cands) as [x|] eqn:C.
  - exists x. split; [done|]. by eapply choose_elem.
  - exfalso. unfold choose in C. destruct cands as [|a [|b l]]; [done..|].
    by destruct (orc _ _ _).
Qed.

Lemma length_filter_ne (x : nat) (l : list nat) :
  x ∈ l → (length (filter (λ y, y ≠ x) l) < length l)%nat.
Proof.
  induction l as [|a l IH]; intros Hin; [by apply elem_of_nil in Hin|].
  rewrite filter_cons. case_decide as Ha; simpl.
  - apply elem_of_cons in Hin as [->|Hin]; [done|]. specialize (IH Hin). lia.
  - pose proof (length_filter (λ y, y ≠ x) l). lia.
Qed.

(** An iteration over referencers whose logs all have room: each is
    written once, nothing else changes, and the iteration ends normally. *)
Lemma iter_back_room n body new ptr e snap nn visited pending (h : list node) :
  h !! new = Some nn → back nn !! ptr = Some snap →
  (length pending ≤ n)%nat → new ∉ pending →
  (∀ x, x ∈ pending → is_Some (h !! x)) →
  (∀ x nx h0, x ∈ pending → h0 !! x = Some nx → h !! x = Some nx →
     body x h0 = (<[x := with_mods (mods nx ++ [e]) nx]> h0, Ok tt)) →
  ∃ h', iter_back orc n body new ptr snap false visited pending h = (h', Ok tt) ∧
        length h' = length h ∧
        ∀ j, h' !! j = if bool_decide (j ∈ pending)
                       then (λ nx, with_mods (mods nx ++ [e]) nx) <$> h !! j
                       else h !! j.
Proof.
  revert visited pending h.
  induction n as [|n IH]; intros visited pending h Hn Hb Hlen Hnew Hex Hbody;
    rewrite (iter_back_clean _ _ _ _ _ _ _ _ _ Hn Hb).
  - destruct pending; [|simpl in Hlen; lia]. cbn [choose]. exists h.
    split; [done|]. split; [done|]. intros j.
    by rewrite bool_decide_false by (apply not_elem_of_nil).
  - destruct (decide (pending = [])) as [->|Hne].
    { cbn [choose]. exists h. split; [done|]. split; [done|]. intros j.
      by rewrite bool_decide_false by (apply not_elem_of_nil). }
    destruct (choose_clean new ptr visited pending Hne) as (x & -> & Hx).
    destruct (Hex x Hx) as [nx Hnx].
    unfold bind. rewrite (Hbody x nx h Hx Hnx Hnx).
    set (h1 := <[x := with_mods (mods nx ++ [e]) nx]> h).
    assert (x ≠ new) as Hxn by (intros ->; done).
    destruct (IH (visited ++ [x]) (filter (λ y, y ≠ x) pending) h1)
      as (h' & Hrun & Hl & Hchar).
    + unfold h1. by rewrite list_lookup_insert_ne.
    + done.
    + pose proof (length_filter_ne x pending Hx). lia.
    + intros Hin. apply list_elem_of_filter in Hin as [_ Hin]. done.
    + intros y Hy. apply list_elem_of_filter in Hy as [Hyx Hy].
      unfold h1. rewrite list_lookup_insert_ne by done. by apply Hex.
    + intros y ny h0 Hy Hh0 Hh1. apply list_elem_of_filter in Hy as [Hyx Hy].
      apply Hbody; [done..|]. unfold h1 in Hh1.
      by rewrite list_lookup_insert_ne in Hh1.
    + exists h'. split; [done|]. split; [by rewrite Hl; unfold h1; rewrite length_insert|].
      intros j. rewrite Hchar. destruct (decide (j = x)) as [->|Hjx].
      * rewrite bool_decide_false
          by (intros Hin; apply list_elem_of_filter in Hin as [? _]; done).
        rewrite bool_decide_true by done. unfold h1.
        rewrite list_lookup_insert_eq by (by eapply lookup_lt_Some).
        by rewrite Hnx.
      * unfold h1. rewrite list_lookup_insert_ne by done.
        destruct (decide (j ∈ pending)) as [Hj|Hj].
        -- rewrite !bool_decide_true; [done..|]. by apply list_elem_of_filter.
        -- rewrite !bool_decide_false; [done..|].
           intros Hin. apply list_elem_of_filter in Hin as [_ ?]. done.
Qed.

(** X14.  In every state a list can reach, every node has [p = 1] and at
    most [2p + 1 = 3] log entries.  A write of a declared tag on a node
    whose log holds [2p + 1] entries, however it ends, leaves that node's
    log and baseline as they were and puts a new node at the end of the
    store: its baseline holds the written value at the written tag and, at
    every other tag the old log has an entry for, the latest value logged,
    and its log holds nothing but entries of version [now].  When the new
    node's pointer field holds a node of the store and every referencer of
    the old node has room in its log, the write succeeds with fuel for the
    referencers, the store has exactly one node more, the new node's log is
    empty, and the log of every referencer has gained one entry, the pointer
    to the new node at version [now]. *)
Theorem X14_log_bound_and_split (fuel : nat) (s : LinkedList)
    (self : nat) (nd : node) (now : Z) (var : string) (val : value) :
  reachable s → heap s !! self = Some nd → is_Some (fields nd !! var) →
  (∀ i x, heap s !! i = Some x →
     n_p x = 1%nat ∧ (length (mods x) ≤ 2 * n_p x + 1)%nat) ∧
  (length (mods nd) = (2 * n_p nd + 1)%nat →
   let r := write orc (S fuel) self now var val (heap s) in
   ∃ old' new,
     r.1 !! self = Some old' ∧ mods old' = mods nd ∧ fields old' = fields nd ∧
     r.1 !! length (heap s) = Some new ∧
     fields new !! var = Some val ∧
     (∀ tag x, tag ≠ var → latest_logged tag (mods nd) = Some x →
        fields new !! tag = Some x) ∧
     Forall (λ e, e_version e = now) (mods new) ∧
     (∀ t bs, fields new !! "next_ptr" = Some (VRef t) → (t < length (heap s))%nat →
        back nd !! "next_ptr" = Some bs →
        (∀ x, x ∈ bs → ∃ nx, heap s !! x = Some nx ∧
                              (length (mods nx) ≤ 2 * n_p nx)%nat) →
        (size bs ≤ fuel)%nat →
        r.2 = Ok tt ∧ length r.1 = S (length (heap s)) ∧ mods new = [] ∧
        ∀ x nx, x ∈ bs → heap s !! x = Some nx →
          ∃ nx', r.1 !! x = Some nx' ∧
                 mods nx' = mods nx ++ [(now, "next_ptr"%string,
                                         VRef (length (heap s)))])).
Proof.
  intros Hreach Hself Hdecl.
  pose proof Hreach as Hreach0.
  apply reachable_ok in Hreach as [Hts Hall]. rewrite Forall_lookup in Hall.
  split.
  { intros i x Hx. destruct (Hall _ _ Hx) as [(Hp & _) _ Hlog _]. done. }
  intros Hfull r.
  destruct (Hall _ _ Hself) as [(Hp & Hdt & Hpt) Hkey _ _].
  destruct (copy_back_is_Some _ Hkey) as [bk Hbk].
  assert (¬ (length (mods nd) ≤ 2 * n_p nd)%nat) as Hnoroom by lia.
  remember (split_node nd var val bk) as new0 eqn:Hnew0.
  set (h1 := heap s ++ [new0]).
  assert (r = (retarget (n_pt nd) (length (heap s)) self ;;
               cascade orc fuel (write orc fuel) (n_pt nd) (length (heap s)) now) h1)
    as Hr by (subst new0 h1; by apply write_full).
  assert (h1 !! self = Some nd) as Hself1.
  { unfold h1. rewrite lookup_app_l; [done|]. by eapply lookup_lt_Some. }
  assert (h1 !! length (heap s) = Some new0) as Hnew1 by apply lookup_new_node.
  assert (evolves now (now + 1) h1 r.1) as [O _].
  { assert (pres (evolves now (now + 1))
              (retarget (n_pt nd) (length (heap s)) self ;;
               cascade orc fuel (write orc fuel) (n_pt nd) (length (heap s)) now)) as Hp'.
    { apply pres_bind; [apply _..|apply retarget_pres|].
      intros _. apply cascade_pres. intros. apply write_pres. lia. }
    eapply Hp'. rewrite Hr. apply surjective_pairing. }
  destruct (O _ _ Hself1) as (old' & Hold' & (_ & Hfo & _ & eo & Hmo & _ & Hbo)).
  destruct (O _ _ Hnew1) as (new & Hnew & (_ & Hfn & _ & en & Hmn & Hwn & _)).
  assert (eo = []) as ->.
  { destruct eo as [|x eo]; [done|]. exfalso.
    specialize (Hbo ltac:(done)). rewrite Hmo, length_app in Hbo. simpl in Hbo. lia. }
  rewrite app_nil_r in Hmo.
  assert (mods new0 = []) as Hm0 by (by rewrite Hnew0).
  rewrite Hm0 in Hmn. simpl in Hmn.
  assert (fields new0 !! "next_ptr" = fields new !! "next_ptr") as Hptr by (by rewrite Hfn).
  exists old', new. split; [done|]. split; [done|]. split; [done|]. split; [done|].
  split; [|split; [|split]].
  - rewrite Hfn, Hnew0. simpl. by rewrite lookup_insert_eq.
  - intros tag x Htag Hlog. rewrite Hfn, Hnew0. simpl.
    rewrite lookup_insert_ne by done. rewrite fold_mods_lookup. by rewrite Hlog.
  - rewrite Hmn. eapply Forall_impl; [exact Hwn|].
    unfold in_window. simpl. intros; lia.
  - rewrite <- Hptr. intros t bs Ht Hlt Hb Hroom Hsize.
    destruct (lookup_lt_is_Some_2 _ _ Hlt) as [nt Hnt].
    destruct (Hall _ _ Hnt) as [(_ & _ & Hptt) Hkeyt _ _].
    destruct (Hkeyt "next_ptr") as [st Hst]; [rewrite Hptt; set_solver|].
    assert (h1 !! t = Some nt) as Hnt1.
    { unfold h1. by rewrite lookup_app_l. }
    assert (back new0 !! "next_ptr" = Some bs) as Hbnew.
    { rewrite Hnew0. simpl.
      destruct (copy_back_lookup nd bk "next_ptr" Hbk) as [-> _];
        [rewrite Hpt; set_solver|done]. }
    set (new_ix := length (heap s)) in *.
    set (nt' := with_back
                  (<["next_ptr"%string :=
                       (if bool_decide (self ∈ st) then st ∖ {[self]} else st)
                       ∪ {[new_ix]}]> (back nt)) nt).
    set (h2 := <[t := nt']> h1).
    assert (h2 !! new_ix = Some new0) as Hnew2.
    { unfold h2. rewrite list_lookup_insert_ne by (unfold new_ix; lia). done. }
    assert (∀ x, x ∈ bs → (x < new_ix)%nat) as Hbs_lt.
    { intros x Hx. destruct (Hroom x Hx) as (nx & Hnx & _).
      by eapply lookup_lt_Some. }
    assert (∀ x nx, heap s !! x = Some nx →
              ∃ nx2, h2 !! x = Some nx2 ∧ mods nx2 = mods nx ∧
                     fields nx2 = fields nx ∧ n_p nx2 = n_p nx) as Hh2.
    { intros x nx Hnx. unfold h2. destruct (decide (x = t)) as [->|Hxt].
      - rewrite list_lookup_insert_eq by (by eapply lookup_lt_Some).
        exists nt'. assert (nx = nt) as -> by congruence. done.
      - rewrite list_lookup_insert_ne by done. exists nx. split; [|done].
        unfold h1. rewrite lookup_app_l; [done|]. by eapply lookup_lt_Some. }
    destruct (iter_back_room fuel
                (λ x, write orc fuel x now "next_ptr" (VRef new_ix))
                new_ix "next_ptr" (now, "next_ptr"%string, VRef new_ix)
                bs new0 [] (elements bs) h2)
      as (h3 & Hrun & Hlen3 & Hchar); [done|done|done| | | |].
    { intros Hin. apply elem_of_elements, Hbs_lt in Hin. lia. }
    { intros x Hx. apply elem_of_elements in Hx.
      destruct (Hroom x Hx) as (nx & Hnx & _).
      destruct (Hh2 x nx Hnx) as (nx2 & -> & _). by eexists. }
    { intros x nx2 h0 Hx Hh0 Hx2. apply elem_of_elements in Hx.
      destruct (Hroom x Hx) as (nx & Hnx & Hrm).
      destruct (Hh2 x nx Hnx) as (nx2' & Hx2' & Hm2 & Hf2 & Hp2).
      assert (nx2' = nx2) as -> by congruence.
      destruct fuel as [|k].
      { exfalso. assert (size bs = 0%nat) as Hz by lia.
        apply size_empty_inv in Hz. set_solver. }
      apply write_room; [done| |].
      - rewrite Hf2.
        by destruct (reachable_declared _ _ _ Hreach0 Hnx) as [_ ?].
      - rewrite Hm2, Hp2. done. }
    assert (r = (h3, Ok tt)) as Hr'.
    { rewrite Hr. unfold bind. rewrite Hpt. unfold LL_pt.
      rewrite (retarget_one _ _ _ _ t h1 Hnew1 Ht).
      rewrite (set_back_ok h1 t nt "next_ptr" st _ _ Hnt1)
        by (rewrite ?Hptt; set_solver).
      fold nt' h2. fold new_ix.
      rewrite (cascade_one orc _ _ _ _ _ new0 bs h2 Hnew2 Hbnew).
      exact Hrun. }
    rewrite Hr' in *. simpl in *.
    assert (h3 !! new_ix = Some new0) as Hnew3.
    { rewrite Hchar. rewrite bool_decide_false; [done|].
      intros Hin. apply elem_of_elements, Hbs_lt in Hin. lia. }
    assert (new = new0) as -> by congruence.
    split; [done|]. split; [|split; [done|]].
    { rewrite Hlen3. unfold h2. rewrite length_insert. unfold h1.
      rewrite length_app. simpl. unfold new_ix. lia. }
    intros x nx Hx Hnx. rewrite Hchar.
    rewrite bool_decide_true by (by apply elem_of_elements).
    destruct (Hh2 x nx Hnx) as (nx2 & -> & Hm2 & _). simpl.
    eexists. split; [done|]. simpl. by rewrite Hm2.
Qed.

End overflow.

Example X14_log_bound_and_split_witness :
  let s := main_state2 in
  let nd := node_at s 2 in
  let r := write stop_oracle 2 2 8 "value" (VInt 7) (heap s) in
  (reachable s ∧ heap s !! 2%nat = Some nd ∧
   length (mods nd) = (2 * n_p nd + 1)%nat ∧
   back nd !! "next_ptr"%string = Some {[1%nat]}) ∧
  r.2 = Ok tt ∧ length r.1 = S (length (heap s)) ∧
  ∃ old' new p',
    r.1 !! 2%nat = Some old' ∧ mods old' = mods nd ∧
    r.1 !! length (heap s) = Some new ∧
    fields new !! "value"%string = Some (VInt 7) ∧
    fields new !! "next_ptr"%string = Some (VRef 3) ∧ mods new = [] ∧
    r.1 !! 1%nat = Some p' ∧
    mods p' = mods (node_at s 1) ++ [(8, "next_ptr"%string, VRef 5)].
Proof.
  cbv zeta.
  assert (heap main_state2 !! 2%nat = Some (node_at main_state2 2)) as Hi
    by (vm_compute; reflexivity).
  assert (heap main_state2 !! 1%nat = Some (node_at main_state2 1)) as Hi1
    by (vm_compute; reflexivity).
  assert (is_Some (fields (node_at main_state2 2) !! "value"%string)) as Hd
    by (exists VNone; vm_compute; reflexivity).
  assert (length (mods (node_at main_state2 2))
          = (2 * n_p (node_at main_state2 2) + 1)%nat) as Hfull
    by (vm_compute; reflexivity).
  assert (back (node_at main_state2 2) !! "next_ptr"%string = Some {[1%nat]}) as Hb
    by (vm_compute; reflexivity).
  split; [exact (conj main_state2_reachable (conj Hi (conj Hfull Hb)))|].
  destruct (X14_log_bound_and_split stop_oracle 1 main_state2 2 _ 8
              "value" (VInt 7) main_state2_reachable Hi Hd) as [_ Hsplit].
  destruct (Hsplit Hfull) as (old' & new & Ho & Hmo & _ & Hn & Hv & Hlog & _ & Hone).
  assert (fields new !! "next_ptr"%string = Some (VRef 3)) as Hptr.
  { apply Hlog; [discriminate|vm_compute; reflexivity]. }
  destruct (Hone 3%nat {[1%nat]} Hptr) as (Hok & Hlen & Hm & Hrefs).
  - vm_compute; lia.
  - exact Hb.
  - intros x Hx. apply elem_of_singleton in Hx as ->.
    exists (node_at main_state2 1). split; [exact Hi1|vm_compute; lia].
  - rewrite size_singleton. lia.
  - destruct (Hrefs 1%nat _ ltac:(by apply elem_of_singleton) Hi1) as (p' & Hp' & Hmp').
    split; [exact Hok|]. split; [exact Hlen|].
    exists old', new, p'.
    exact (conj Ho (conj Hmo (conj Hn (conj Hv (conj Hptr (conj Hm (conj Hp' Hmp'))))))).
Defined.

(** When a referencer's log is full as well, its rewrite splits it too.
    Node 1 of [two_full_list] holds 3 log entries and so does its
    referencer, the root: a write on node 1 succeeds and leaves two new
    nodes, whether the disturbed iteration then ends or yields the root's
    copy once more. *)
Example cascade_splits_full_referencer :
  reachable two_full_list ∧
  (length ∘ mods <$> heap two_full_list !! 1%nat) = Some 3%nat ∧
  (length ∘ mods <$> heap two_full_list !! 0%nat) = Some 3%nat ∧
  (write stop_oracle 8 1 5 "value" (VInt 21) (heap two_full_list)).2 = Ok tt ∧
  length (write stop_oracle 8 1 5 "value" (VInt 21) (heap two_full_list)).1
    = (length (heap two_full_list) + 2)%nat ∧
  (write once_oracle 8 1 5 "value" (VInt 21) (heap two_full_list)).2 = Ok tt ∧
  length (write once_oracle 8 1 5 "value" (VInt 21) (heap two_full_list)).1
    = (length (heap two_full_list) + 2)%nat.
Proof.
  split; [apply reachable_run_ops, reach_init|]. vm_compute. repeat split.
Qed.
